(** * A limit order book: the matching engine of [limit_order_book.py]

    Shallow embedding of [Order] and [LimitOrderBook] and the properties of
    submission, matching and cancellation.

    Modelling choices.
    - [Decimal] prices and sizes are rationals ([Q]); Python compares them by
      value, which is [Qeq] / [Qcompare] here.  Special values (NaN,
      infinities) are left out.
    - The arithmetic of [Decimal] is that of its context: the results of
      [-], of unary [-] and of [abs] are rounded to 28 significant digits.
      The operations are therefore written twice: with exact arithmetic
      ([size_sub], [_convert_price], [_is_crossing], [match_loop], ...),
      and with a rounding [rd] at each of these results ([size_sub_ctx],
      [_convert_price_ctx], [_is_crossing_ctx], [match_loop_ctx], ...),
      [round_ctx] being the rounding of the default context.  On decimals
      of at most 28 digits on a common scale ([grid]) nothing is rounded and
      the two runs are the same ([run_ctx_exact]); beyond, they differ
      ([C3_rounded_fill_loses_size]).  What depends on the value of a
      difference of sizes, of a negated key or of an absolute value is
      stated of the operations of the context.
    - An [Order] is a mutable object: orders live in a store ([objects]) and
      are named by their position in it ([ref]).  The book's queues hold
      references, so a size written during matching is seen through the book.
      [deque.remove] compares with [==], which is identity for [Order]
      (the class defines [__hash__] only).
    - [sortedcontainers.SortedDict] is a list of (key, deque) pairs kept in
      ascending key order; [peekitem()] is called without an index, which is
      index [-1]: the entry with the LARGEST key.
    - The owner's [receive_update] is an external call: deliveries are
      appended to [inbox], in order.
    - Exceptions are results: [Raise e w] carries the world as it is when the
      exception leaves the operation.
    - [Client] of [client.py]: [create_order] and [cancel_order] are the calls
      of a run; [receive_update] is run over the updates of the inbox, in the
      order they were delivered ([received]), on a model of the Python set
      [active_orders] whose entries are found by hash, the identifier of the
      order, and identity.  The floats of [create_order] are taken as the
      decimals they are converted to; the [__repr__] methods are left out. *)

From Stdlib Require Import QArith Qabs Qround Lqa Lia ZArith NArith String.
From Stdlib Require Import DecimalFacts DecimalN DecimalPos Sorted.
From stdpp Require Import base option list.

Local Open Scope Q_scope.

(** ** Enumerations *)

Inductive OrderSide := BUY | SELL.

(** [OrderSide.opposite]; the [raise ValueError] arm needs a value that is
    not a member of the enumeration. *)
Definition opposite (side : OrderSide) : OrderSide :=
  match side with BUY => SELL | SELL => BUY end.

Inductive OrderStatus := CREATED | POSTED | PARTIALLY_FILLED | FILLED | CANCELLED.

(** ** Orders *)

(** Object identity of an [Order]: its position in the store. *)
Abbreviation ref := nat (only parsing).

(** The object given as [owner]: who it is, and its truth value
    ([if self.owner:]).  [None] is Python's [None]. *)
Record Owner := mkOwner { owner_key : nat; owner_truth : bool }.

Record Order := mkOrder {
  price : Q;
  size : Q;
  side : OrderSide;
  owner : option Owner;
  venue : option nat;
  status : OrderStatus;
  order_id : option N
}.

Definition with_size (o : Order) (s : Q) : Order :=
  mkOrder (price o) s (side o) (owner o) (venue o) (status o) (order_id o).
Definition with_status (o : Order) (s : OrderStatus) : Order :=
  mkOrder (price o) (size o) (side o) (owner o) (venue o) s (order_id o).
Definition with_order_id (o : Order) (i : N) : Order :=
  mkOrder (price o) (size o) (side o) (owner o) (venue o) (status o) (Some i).
Definition with_price (o : Order) (p : Q) : Order :=
  mkOrder p (size o) (side o) (owner o) (venue o) (status o) (order_id o).

(** [OrderUpdate = namedtuple('OrderUpdate', ('order', 'status', 'last_status'))] *)
Inductive OrderUpdate :=
  mkOrderUpdate (order : ref) (new_status last_status : OrderStatus).

Inductive exn :=
| ValueError
| LOBUnknownOrderError
| IndexError
| NoSuchObject.  (* a reference outside the store: not a Python value *)

(** ** The sorted dictionary of price levels *)

Definition deque := list ref.
Definition SortedDict := list (Q * deque).

(** [p in d] *)
Fixpoint sd_contains (p : Q) (d : SortedDict) : bool :=
  match d with
  | [] => false
  | (k, _) :: d' => Qeq_bool p k || sd_contains p d'
  end.

(** [d[p]] *)
Fixpoint sd_get (p : Q) (d : SortedDict) : option deque :=
  match d with
  | [] => None
  | (k, v) :: d' => if Qeq_bool p k then Some v else sd_get p d'
  end.

(** [d[p] = v]: the entry is replaced where the key is present and put at
    its place in the order where it is not. *)
Fixpoint sd_put (p : Q) (v : deque) (d : SortedDict) : SortedDict :=
  match d with
  | [] => [(p, v)]
  | (k, x) :: d' =>
      match p ?= k with
      | Lt => (p, v) :: (k, x) :: d'
      | Eq => (k, v) :: d'
      | Gt => (k, x) :: sd_put p v d'
      end
  end.

(** [del d[p]] *)
Fixpoint sd_del (p : Q) (d : SortedDict) : SortedDict :=
  match d with
  | [] => []
  | (k, x) :: d' => if Qeq_bool p k then d' else (k, x) :: sd_del p d'
  end.

(** [d.peekitem()], that is [d.peekitem(-1)]: the last entry. *)
Definition peekitem (d : SortedDict) : option (Q * deque) := last d.

(** [d.peekitem(0)]: the first entry (not called by the source). *)
Definition peekitem0 (d : SortedDict) : option (Q * deque) := head d.

(** [deque.remove(x)]: drops the first occurrence, [None] is [ValueError]. *)
Fixpoint deque_remove (x : ref) (q : deque) : option deque :=
  match q with
  | [] => None
  | y :: q' => if Nat.eqb y x then Some q'
               else match deque_remove x q' with
                    | Some q'' => Some (y :: q'')
                    | None => None
                    end
  end.

(** ** The book and the world *)

Record LimitOrderBook := mkBook {
  name : string;
  book_id : N;
  bids : SortedDict;
  asks : SortedDict;
  last_order : option ref;
  _order_count : N
}.

(** [LimitOrderBook.__init__]; [nb_books] is the class attribute shared by
    all books. *)
Definition LimitOrderBook_init (name : string) (nb_books : N)
  : LimitOrderBook * N :=
  let nb_books := (nb_books + 1)%N in
  (mkBook name nb_books [] [] None 0%N, nb_books).

(** [int(f"{self.book_id}{self._order_count}")] *)
Definition fstring_int (a b : N) : N :=
  N.of_uint (Decimal.app (N.to_uint a) (N.to_uint b)).

Definition _new_order_id (b : LimitOrderBook) : N * LimitOrderBook :=
  let c := (_order_count b + 1)%N in
  (fstring_int (book_id b) c,
   mkBook (name b) (book_id b) (bids b) (asks b) (last_order b) c).

Record World := mkWorld {
  objects : list Order;
  lob : LimitOrderBook;
  inbox : list (Owner * OrderUpdate)
}.

Inductive result (A : Type) :=
| Ok (a : A) (w : World)
| Raise (e : exn) (w : World)
| OutOfFuel.
Arguments Ok {A} a w.
Arguments Raise {A} e w.
Arguments OutOfFuel {A}.

Definition M (A : Type) := World -> result A.

Definition ret {A} (a : A) : M A := fun w => Ok a w.
Definition raise {A} (e : exn) : M A := fun w => Raise e w.
Definition bind {A B} (m : M A) (k : A -> M B) : M B :=
  fun w => match m w with
           | Ok a w' => k a w'
           | Raise e w' => Raise e w'
           | OutOfFuel => OutOfFuel
           end.

Notation "x <- m ;; k" := (bind m (fun x => k))
  (at level 100, m at level 99, right associativity).
Notation "m ;;; k" := (bind m (fun _ => k))
  (at level 100, right associativity).

Definition read (r : ref) : M Order :=
  fun w => match objects w !! r with
           | Some o => Ok o w
           | None => Raise NoSuchObject w
           end.

Definition write (r : ref) (o : Order) : M unit :=
  fun w => Ok tt (mkWorld (<[r := o]> (objects w)) (lob w) (inbox w)).

Definition get_book : M LimitOrderBook := fun w => Ok (lob w) w.
Definition put_book (b : LimitOrderBook) : M unit :=
  fun w => Ok tt (mkWorld (objects w) b (inbox w)).

Definition deliver (ow : Owner) (u : OrderUpdate) : M unit :=
  fun w => Ok tt (mkWorld (objects w) (lob w) (inbox w ++ [(ow, u)])).

(** Which of [self.bids] and [self.asks]. *)
Inductive book_side := BIDS | ASKS.

Definition dict (s : book_side) (b : LimitOrderBook) : SortedDict :=
  match s with BIDS => bids b | ASKS => asks b end.

Definition with_dict (s : book_side) (d : SortedDict) (b : LimitOrderBook)
  : LimitOrderBook :=
  match s with
  | BIDS => mkBook (name b) (book_id b) d (asks b) (last_order b) (_order_count b)
  | ASKS => mkBook (name b) (book_id b) (bids b) d (last_order b) (_order_count b)
  end.

Definition get_dict (s : book_side) : M SortedDict :=
  b <- get_book ;; ret (dict s b).

Definition set_dict (s : book_side) (d : SortedDict) : M unit :=
  b <- get_book ;; put_book (with_dict s d b).

(** ** [Order] methods *)

(** The [price] setter's test [price and price > 0]; [None] is the default
    argument. *)
Definition price_ok (p : option Q) : bool :=
  match p with
  | None => false
  | Some q => negb (Qeq_bool q 0) && match q ?= 0 with Gt => true | _ => false end
  end.

(** [Order.price = p] on an existing order. *)
Definition set_price (r : ref) (p : option Q) : M unit :=
  match p with
  | Some q => if price_ok p
              then o <- read r ;; write r (with_price o q)
              else raise ValueError
  | None => raise ValueError
  end.

(** [Order(price, size, side, venue, owner)]: the setter runs first, and an
    order whose constructor raised is never seen by anyone. *)
Definition Order_new (p : option Q) (sz : Q) (sd : OrderSide)
    (vn : option nat) (ow : option Owner) : M ref :=
  match p with
  | Some q =>
      if price_ok p
      then fun w =>
             Ok (length (objects w))
                (mkWorld (objects w ++ [mkOrder q sz sd ow vn CREATED None])
                         (lob w) (inbox w))
      else raise ValueError
  | None => raise ValueError
  end.

(** [if self.owner:] *)
Definition truthy (ow : option Owner) : bool :=
  match ow with Some x => owner_truth x | None => false end.

Definition update_status (r : ref) (new_status : OrderStatus) : M unit :=
  o <- read r ;;
  let old_status := status o in
  write r (with_status o new_status) ;;;
  match owner o with
  | Some ow => if owner_truth ow
               then deliver ow (mkOrderUpdate r new_status old_status)
               else ret tt
  | None => ret tt
  end.

Definition assign_id (r : ref) (i : N) : M unit :=
  o <- read r ;; write r (with_order_id o i).

(** ** [LimitOrderBook] methods *)

Definition _convert_price (o : Order) : Q :=
  match side o with SELL => price o | BUY => - price o end.

Definition _is_crossing (r : ref) : M bool :=
  o <- read r ;;
  b <- get_book ;;
  match side o with
  | BUY =>
      match peekitem (asks b) with
      | Some (k, _) => ret (Qle_bool k (price o))
      | None => ret false
      end
  | SELL =>
      match peekitem (bids b) with
      | Some (k, _) => ret (Qle_bool (price o) (- k))
      | None => ret false
      end
  end.

(** [order.size -= matching_order.size] and the like: both operands are
    read when the statement runs. *)
Definition size_sub (r m : ref) : M unit :=
  a <- read r ;; b <- read m ;; write r (with_size a (size a - size b)).

Definition size_zero (r : ref) : M unit :=
  a <- read r ;; write r (with_size a 0).

(** [top_orders.popleft()]: the deque is the one stored under [top_price],
    it is changed in place. *)
Definition popleft (s : book_side) (top_price : Q) (top_orders : deque) : M deque :=
  d <- get_dict s ;;
  set_dict s (sd_put top_price (tail top_orders) d) ;;;
  ret (tail top_orders).

(** [if len(top_orders) == 0: del opposite_side[top_price]] *)
Definition del_if_empty (s : book_side) (top_price : Q) (top_orders : deque) : M unit :=
  match top_orders with
  | [] => d <- get_dict s ;; set_dict s (sd_del top_price d)
  | _ :: _ => ret tt
  end.

(** One turn of the [while] loop of [_match], after its test: [true] when
    the turn reaches the end of the loop body, [false] when it returns. *)
Definition match_body (r : ref) (s : book_side) (top_price : Q) (top_orders : deque)
  : M bool :=
  match top_orders with
  | [] => raise IndexError
  | matching_order :: _ =>
      m <- read matching_order ;;
      o <- read r ;;
      match (size m - size o) ?= 0 with
      | Lt =>
          top_orders' <- popleft s top_price top_orders ;;
          size_sub r matching_order ;;;
          size_zero matching_order ;;;
          del_if_empty s top_price top_orders' ;;;
          update_status r PARTIALLY_FILLED ;;;
          update_status matching_order FILLED ;;;
          ret true
      | Gt =>
          size_sub matching_order r ;;;
          size_zero r ;;;
          update_status matching_order PARTIALLY_FILLED ;;;
          update_status r FILLED ;;;
          ret false
      | Eq =>
          top_orders' <- popleft s top_price top_orders ;;
          size_zero matching_order ;;;
          size_zero r ;;;
          del_if_empty s top_price top_orders' ;;;
          update_status matching_order FILLED ;;;
          update_status r FILLED ;;;
          ret false
      end
  end.

Fixpoint match_loop (fuel : nat) (r : ref) (s : book_side) (condition : Q -> bool)
    (top_price : Q) (top_orders : deque) : M unit :=
  match fuel with
  | O => fun _ => OutOfFuel
  | S fuel' =>
      if condition (Qabs top_price) then
        go_on <- match_body r s top_price top_orders ;;
        if go_on : bool then
          d <- get_dict s ;;
          match peekitem d with
          | None => ret tt
          | Some (top_price', top_orders') =>
              match_loop fuel' r s condition top_price' top_orders'
          end
        else ret tt
      else ret tt
  end.

(** All the references held by one side of the book. *)
Definition sd_refs (d : SortedDict) : list ref := concat (map snd d).

(** [_match]: every turn of the loop that goes on has popped one resting
    order, so the number of resting orders bounds the number of turns. *)
Definition _match (r : ref) : M unit :=
  o <- read r ;;
  let s := match side o with BUY => ASKS | SELL => BIDS end in
  let condition :=
    match side o with
    | BUY => fun x => Qle_bool x (price o)     (* order.price.__ge__ *)
    | SELL => fun x => Qle_bool (price o) x    (* order.price.__le__ *)
    end in
  d <- get_dict s ;;
  match peekitem d with
  | None => ret tt
  | Some (top_price, top_orders) =>
      match_loop (S (length (sd_refs d))) r s condition top_price top_orders
  end.

Definition set_last_order (r : ref) : M unit :=
  b <- get_book ;;
  put_book (mkBook (name b) (book_id b) (bids b) (asks b) (Some r) (_order_count b)).

Definition own_side (o : Order) : book_side :=
  match side o with BUY => BIDS | SELL => ASKS end.

(** The last statements of [add_order] before [self.last_order = order]. *)
Definition rest_order (r : ref) : M unit :=
  o <- read r ;;
  if negb (Qeq_bool (size o) 0) then
    let p := _convert_price o in
    d <- get_dict (own_side o) ;;
    let q := if sd_contains p d then default [] (sd_get p d) else [] in
    set_dict (own_side o) (sd_put p (q ++ [r]) d)
  else ret tt.

Definition add_order (r : ref) : M bool :=
  b <- get_book ;;
  put_book (snd (_new_order_id b)) ;;;
  assign_id r (fst (_new_order_id b)) ;;;
  update_status r POSTED ;;;
  crossing <- _is_crossing r ;;
  (if crossing : bool then _match r else ret tt) ;;;
  rest_order r ;;;
  set_last_order r ;;;
  ret true.

Definition remove_order (r : ref) : M bool :=
  o <- read r ;;
  let p := _convert_price o in
  d <- get_dict (own_side o) ;;
  if sd_contains p d then
    match deque_remove r (default [] (sd_get p d)) with
    | Some q =>
        set_dict (own_side o) (sd_put p q d) ;;;
        del_if_empty (own_side o) p q ;;;
        update_status r CANCELLED ;;;
        ret true
    | None => raise LOBUnknownOrderError
    end
  else raise LOBUnknownOrderError.

(** ** The empty book *)

Definition empty_book : LimitOrderBook := fst (LimitOrderBook_init "venue" 0%N).
Definition empty_world : World := mkWorld [] empty_book [].

(** * Definitions for the statements *)

(** The order [SortedDict] keeps its keys in. *)
Fixpoint sd_sorted (d : SortedDict) : Prop :=
  match d with
  | [] => True
  | (k, _) :: d' => Forall (fun e => k < fst e) d' /\ sd_sorted d'
  end.

(** No key holds an empty deque. *)
Definition levels_nonempty (d : SortedDict) : Prop :=
  Forall (fun e => snd e <> []) d.

(** The update [update_status] delivers for the order [o] stored at [r]:
    one, to a truthy owner; none otherwise. *)
Definition notes (o : Order) (r : ref) (new_status : OrderStatus)
  : list (Owner * OrderUpdate) :=
  match owner o with
  | Some ow => if owner_truth ow then [(ow, mkOrderUpdate r new_status (status o))] else []
  | None => []
  end.

(** What [popleft] / [remove] and the deletion of an emptied level leave
    under key [p], [q] being the deque after the removal. *)
Definition replace_level (p : Q) (q : deque) (d : SortedDict) : SortedDict :=
  match q with
  | [] => sd_del p (sd_put p [] d)
  | _ :: _ => sd_put p q d
  end.

(** Sum of a list of decimals. *)
Fixpoint sumQ (l : list Q) : Q :=
  match l with
  | [] => 0
  | x :: l' => x + sumQ l'
  end.

(** The size of the order [x], as the store has it. *)
Definition size_of (objs : list Order) (x : ref) : Q :=
  from_option size 0 (objs !! x).

(** Sum of the sizes of the orders of a queue. *)
Definition level_sum (objs : list Order) (l : list ref) : Q :=
  sumQ (map (size_of objs) l).

(** Sum of the sizes of all orders ever built. *)
Definition total (w : World) : Q := sumQ (map size (objects w)).

(** Sum of the sizes of all resting orders. *)
Definition resting (w : World) : Q :=
  level_sum (objects w) (sd_refs (bids (lob w)))
  + level_sum (objects w) (sd_refs (asks (lob w))).

(** The opposite side of the book. *)
Definition other (s : book_side) : book_side :=
  match s with BIDS => ASKS | ASKS => BIDS end.

(** The side of the orders a dictionary is for. *)
Definition order_side (s : book_side) : OrderSide :=
  match s with BIDS => BUY | ASKS => SELL end.

(** The statuses of an order that can still be matched or cancelled. *)
Definition live (st : OrderStatus) : Prop := st = POSTED \/ st = PARTIALLY_FILLED.

(** What holds of an order held by the dictionary of side [sd]. *)
Definition rests (w : World) (sd : OrderSide) (x : ref) : Prop :=
  exists o, objects w !! x = Some o /\ side o = sd /\ 0 < size o /\ live (status o).

(** The invariant of the book: keys in order, no empty level, no order
    queued twice, and every queued order known to the store, of the side of
    its dictionary, with a positive size and a live status. *)
Record Inv (w : World) : Prop := mkInv {
  inv_sorted : forall s, sd_sorted (dict s (lob w));
  inv_nonempty : forall s, levels_nonempty (dict s (lob w));
  inv_nodup : forall s, NoDup (sd_refs (dict s (lob w)));
  inv_rests : forall s x, x ∈ sd_refs (dict s (lob w)) -> rests w (order_side s) x
}.

(** The order [x] is queued somewhere in the book. *)
Definition in_book (w : World) (x : ref) : Prop :=
  exists s, x ∈ sd_refs (dict s (lob w)).

(** What matching takes: [q] from the incoming order [r] and [q] from the
    book. *)
Definition fill_effect (r : ref) (w w' : World) : Prop :=
  exists q, total w' == total w - q - q /\
            resting w' == resting w - q /\
            size_of (objects w') r == size_of (objects w) r - q.

(** The incoming order [r] between two points of [_match]. *)
Definition same_order (r : ref) (w w' : World) (left_over : Order -> Prop) : Prop :=
  exists o o', objects w !! r = Some o /\ objects w' !! r = Some o' /\
               price o' = price o /\ side o' = side o /\ left_over o'.

(** Something is left of the order, and its status says so. *)
Definition unfilled (o : Order) : Prop := 0 < size o /\ live (status o).

(** What holds after matching the incoming order [r] against side [s]. *)
Definition matched (r : ref) (s : book_side) (w w' : World) : Prop :=
  Inv w' /\ ~ in_book w' r /\ length (objects w') = length (objects w) /\
  fill_effect r w w' /\
  dict (other s) (lob w') = dict (other s) (lob w) /\
  same_order r w w' (fun o' => unfilled o' \/ size o' = 0).

(** The test of [_is_crossing] on the order and the book. *)
Definition crossing (o : Order) (b : LimitOrderBook) : bool :=
  match side o with
  | BUY =>
      match peekitem (asks b) with
      | Some (k, _) => Qle_bool k (price o)
      | None => false
      end
  | SELL =>
      match peekitem (bids b) with
      | Some (k, _) => Qle_bool (price o) (- k)
      | None => false
      end
  end.

(** The world when [add_order] reaches its crossing test. *)
Definition posted (r : ref) (o : Order) (w : World) : World :=
  mkWorld
    (<[r := with_status (with_order_id o (fst (_new_order_id (lob w)))) POSTED]>
       (objects w))
    (snd (_new_order_id (lob w)))
    (inbox w ++ notes o r POSTED).

(** Where [add_order] leaves the order [r], [w] being the book it is put
    into: at the tail of the queue of its price, or nowhere when nothing is
    left of it. *)
Definition queued_last (r : ref) (o : Order) (w w' : World) : Prop :=
  if Qeq_bool (size_of (objects w') r) 0
  then dict (own_side o) (lob w') = dict (own_side o) (lob w)
  else sd_get (_convert_price o) (dict (own_side o) (lob w'))
       = Some (default [] (sd_get (_convert_price o) (dict (own_side o) (lob w)))
               ++ [r]) /\
       forall k, ~ k == _convert_price o ->
         sd_get k (dict (own_side o) (lob w')) = sd_get k (dict (own_side o) (lob w)).

(** What a submission does to the sums: [q] is taken from the incoming
    order and [q] from the book, what is left of the order rests. *)
Definition submitted_effect (r : ref) (o : Order) (w w' : World) : Prop :=
  exists q, total w' == total w - q - q /\
            resting w' == resting w + size o - q - q /\
            size_of (objects w') r == size o - q.

(** The order is queued under the key of its own side and price. *)
Definition resting_at (w : World) (r : ref) : Prop :=
  exists o q, objects w !! r = Some o /\
              sd_get (_convert_price o) (dict (own_side o) (lob w)) = Some q /\
              r ∈ q.

(** The world a successful [remove_order] leaves. *)
Definition after_cancel (r : ref) (o : Order) (q' : deque) (w : World) : World :=
  mkWorld (<[r := with_status o CANCELLED]> (objects w))
          (with_dict (own_side o)
             (replace_level (_convert_price o) q' (dict (own_side o) (lob w)))
             (lob w))
          (inbox w ++ notes o r CANCELLED).

(** The calls of a client: [Submit] builds an [Order] and hands it to
    [add_order], as [Client.create_order] does; [Cancel] is [remove_order]. *)
Inductive op :=
| Submit (p : option Q) (sz : Q) (sd : OrderSide) (ow : option Owner)
| Cancel (r : ref).

(** The world an operation leaves, whether it returned or raised. *)
Definition after {A} (x : result A) (w : World) : World :=
  match x with
  | Ok _ w' | Raise _ w' => w'
  | OutOfFuel => w
  end.

(** The sizes that went through the book. *)
Record Ledger := mkLedger {
  submitted : Q;       (* sizes of the orders handed to [add_order] *)
  cancelled : Q;       (* sizes cancelled orders had when they were cancelled *)
  filled_in : Q;       (* taken from incoming orders by matching *)
  filled_book : Q      (* taken from the other orders by matching *)
}.

(** One call, and what it adds to the ledger; a call that raises leaves the
    ledger as it is. *)
Definition step (x : op) (st : World * Ledger) : World * Ledger :=
  let (w, l) := st in
  match x with
  | Submit p sz sd ow =>
      match Order_new p sz sd None ow w with
      | Ok r w1 =>
          let w2 := after (add_order r w1) w1 in
          let taken := size_of (objects w1) r - size_of (objects w2) r in
          (w2, mkLedger (submitted l + sz) (cancelled l)
                        (filled_in l + taken)
                        (filled_book l + (total w1 - total w2 - taken)))
      | Raise _ w1 => (w1, l)
      | OutOfFuel => (w, l)
      end
  | Cancel r =>
      match remove_order r w with
      | Ok _ w' =>
          (w', mkLedger (submitted l) (cancelled l + size_of (objects w) r)
                        (filled_in l) (filled_book l))
      | Raise _ w' => (w', l)
      | OutOfFuel => (w, l)
      end
  end.

(** The calls of [ops] one after the other. *)
Definition run_from (st : World * Ledger) (ops : list op) : World * Ledger :=
  fold_left (fun st x => step x st) ops st.

(** The calls of [ops] on a new book. *)
Definition run (ops : list op) : World * Ledger :=
  run_from (empty_world, mkLedger 0 0 0 0) ops.

(** Valid inputs: a positive size (the price is checked by [Order]). *)
Definition valid_op (x : op) : Prop :=
  match x with
  | Submit _ sz _ _ => 0 < sz
  | Cancel _ => True
  end.

(** The invariant of a run: the book's invariant and the balance of sizes. *)
Definition balanced (st : World * Ledger) : Prop :=
  Inv (fst st) /\
  resting (fst st) + (filled_in (snd st) + filled_book (snd st))
    == submitted (snd st) - cancelled (snd st) /\
  filled_in (snd st) == filled_book (snd st).

(** The three ways a turn can go, for an incoming order [r] that is not the
    resting order [m] it meets. *)
Inductive turn (r m : ref) (s : book_side) (tp : Q) (rest : deque) (w : World)
  : bool -> World -> Prop :=
| turn_Lt om or :
    objects w !! m = Some om -> objects w !! r = Some or -> size om < size or ->
    turn r m s tp rest w true
      (mkWorld
         (<[m := with_status (with_size om 0) FILLED]>
            (<[r := with_status (with_size or (size or - size om)) PARTIALLY_FILLED]>
               (objects w)))
         (with_dict s (replace_level tp rest (dict s (lob w))) (lob w))
         (inbox w ++ notes or r PARTIALLY_FILLED ++ notes om m FILLED))
| turn_Gt om or :
    objects w !! m = Some om -> objects w !! r = Some or -> size or < size om ->
    turn r m s tp rest w false
      (mkWorld
         (<[r := with_status (with_size or 0) FILLED]>
            (<[m := with_status (with_size om (size om - size or)) PARTIALLY_FILLED]>
               (objects w)))
         (lob w)
         (inbox w ++ notes om m PARTIALLY_FILLED ++ notes or r FILLED))
| turn_Eq om or :
    objects w !! m = Some om -> objects w !! r = Some or -> size om == size or ->
    turn r m s tp rest w false
      (mkWorld
         (<[r := with_status (with_size or 0) FILLED]>
            (<[m := with_status (with_size om 0) FILLED]> (objects w)))
         (with_dict s (replace_level tp rest (dict s (lob w))) (lob w))
         (inbox w ++ notes om m FILLED ++ notes or r FILLED)).

(** No empty level, and every queued order has a positive size and the
    side of its dictionary. *)
Definition book_well_formed (w : World) : Prop :=
  (forall s k q, (k, q) ∈ dict s (lob w) -> q <> []) /\
  (forall s x, x ∈ sd_refs (dict s (lob w)) ->
     exists o, objects w !! x = Some o /\ 0 < size o /\ side o = order_side s).

(** Two asks at 100, a bid that takes the first, the second cancelled. *)
Definition demo_ops : list op :=
  [ Submit (Some 100) 1 SELL None;
    Submit (Some 100) 1 SELL None;
    Submit (Some 100) 1 BUY None;
    Cancel 1%nat ].

(** Two asks, at 100 and at 105. *)
Definition two_asks : list op :=
  [ Submit (Some 100) 1 SELL None; Submit (Some 105) 1 SELL None ].

(** Two asks at the same price, then a bid that takes one of them. *)
Definition same_price_asks : list op :=
  [ Submit (Some 100) 1 SELL None; Submit (Some 100) 1 SELL None ].

(** The price is missing or not positive. *)
Definition bad_price (p : option Q) : Prop :=
  p = None \/ exists q, p = Some q /\ q <= 0.

(** The order an update is about. *)
Definition update_order (u : OrderUpdate) : ref :=
  match u with mkOrderUpdate x _ _ => x end.

(** The update [e] went to the owner of the order it is about, and that
    owner is truthy. *)
Definition to_its_owner (w : World) (e : Owner * OrderUpdate) : Prop :=
  exists o, objects w !! update_order (snd e) = Some o /\
            owner o = Some (fst e) /\ owner_truth (fst e) = true.

(** From [w] to [w']: owners are what they were, and the inbox has grown by
    updates sent to truthy owners of the orders they are about. *)
Definition notified (w w' : World) : Prop :=
  (forall y, owner <$> objects w' !! y = owner <$> objects w !! y) /\
  exists extra, inbox w' = inbox w ++ extra /\ Forall (to_its_owner w) extra.

(** Every way out of [m], by return or by exception, is related by [R] to
    the way in. *)
Definition steps (R : World -> World -> Prop) {A} (m : M A) : Prop :=
  forall w, match m w with
            | Ok _ w' | Raise _ w' => R w w'
            | OutOfFuel => True
            end.

(** Number of digits of the decimal writing of [c]. *)
Definition digits (c : N) : N := DecimalPos.Unsigned.usize (N.to_uint c).

(** The identifiers of [n] submissions in a row to the book [b]. *)
Fixpoint issue (n : nat) (b : LimitOrderBook) : list N :=
  match n with
  | O => []
  | S n' => fst (_new_order_id b) :: issue n' (snd (_new_order_id b))
  end.

(** [n] books built one after another, [nb_books] being the class
    attribute before the first. *)
Fixpoint make_books (n : nat) (nb_books : N) : list LimitOrderBook :=
  match n with
  | O => []
  | S n' => fst (LimitOrderBook_init "venue" nb_books)
            :: make_books n' (snd (LimitOrderBook_init "venue" nb_books))
  end.

(** A world with the book [b] and no order yet. *)
Definition world_with (b : LimitOrderBook) : World := mkWorld [] b [].

(** One ask, resting. *)
Definition one_ask : list op := [ Submit (Some 100) 1 SELL None ].

(** An order built without owner. *)
Definition unowned : Order := mkOrder 100 1 SELL None None CREATED None.

(** [m] never stops for lack of fuel. *)
Definition total_op {A} (m : M A) : Prop := forall w, m w <> OutOfFuel.

(** ** Further invariants of the operations and of a run *)

(** The fields of an order that only its construction and [assign_id] set. *)
Definition same_static (o o' : Order) : Prop :=
  price o' = price o /\ side o' = side o /\ owner o' = owner o /\
  venue o' = venue o /\ order_id o' = order_id o.

(** From [w] to [w']: the same orders, with the fields matching and
    cancelling never write, and the same name, number, count and last order
    of the book. *)
Definition kept (w w' : World) : Prop :=
  length (objects w') = length (objects w) /\
  (forall y o, objects w !! y = Some o ->
     exists o', objects w' !! y = Some o' /\ same_static o o') /\
  name (lob w') = name (lob w) /\ book_id (lob w') = book_id (lob w) /\
  _order_count (lob w') = _order_count (lob w) /\
  last_order (lob w') = last_order (lob w).

(** The world with [r] recorded as the last order. *)
Definition last_set (r : ref) (w : World) : World :=
  mkWorld (objects w)
          (mkBook (name (lob w)) (book_id (lob w)) (bids (lob w)) (asks (lob w))
                  (Some r) (_order_count (lob w)))
          (inbox w).

(** The count of the book is the number of orders it was handed, the order
    built [i]-th (from 0) bears the identifier of count [i + 1], and the last
    order is the last one built. *)
Definition numbered (w : World) : Prop :=
  _order_count (lob w) = N.of_nat (length (objects w)) /\
  (forall i o, objects w !! i = Some o ->
     order_id o = Some (fstring_int (book_id (lob w)) (N.of_nat (S i)))) /\
  last_order (lob w) = match length (objects w) with
                       | O => None
                       | S n => Some n
                       end.

(** [order.price.__ge__] for a BUY, [order.price.__le__] for a SELL. *)
Definition limit (o : Order) (x : Q) : bool :=
  match side o with
  | BUY => Qle_bool x (price o)
  | SELL => Qle_bool (price o) x
  end.

(** The state of a turn of the loop: the book is well formed, the incoming
    order [r] is out of it with something left, and the loop has taken the
    level [(tp, m :: rest)] that [peekitem()] gives. *)
Record at_turn (r : ref) (s : book_side) (tp : Q) (m : ref) (rest : deque)
    (or : Order) (w : World) : Prop := mkTurn {
  turn_Inv : Inv w;
  turn_out : ~ in_book w r;
  turn_order : objects w !! r = Some or;
  turn_unfilled : unfilled or;
  turn_peek : peekitem (dict s (lob w)) = Some (tp, m :: rest)
}.

(** The world [rest_order] leaves: what is left of the order [r] is put at
    the tail of the level of its price, made if there is none. *)
Definition rested (r : ref) (o : Order) (w : World) : World :=
  if Qeq_bool (size o) 0 then w
  else mkWorld (objects w)
         (with_dict (own_side o)
            (sd_put (_convert_price o)
               (default [] (sd_get (_convert_price o) (dict (own_side o) (lob w)))
                ++ [r])
               (dict (own_side o) (lob w)))
            (lob w))
         (inbox w).

(** An order that has left the book: filled, with nothing left, or
    cancelled, with what it had left. *)
Definition done (o : Order) : Prop :=
  (status o = FILLED /\ size o = 0) \/ (status o = CANCELLED /\ 0 < size o).

(** Every order of a level is held under the key of its side and price. *)
Definition keyed (w : World) : Prop :=
  forall s k q x, sd_get k (dict s (lob w)) = Some q -> x ∈ q ->
    exists o, objects w !! x = Some o /\ _convert_price o == k.

(** Every order was built with a positive price. *)
Definition priced (w : World) : Prop :=
  forall x o, objects w !! x = Some o -> 0 < price o.

(** Every order but [r] is in the book or has left it for good. *)
Definition settled (r : ref) (w : World) : Prop :=
  forall x o, x <> r -> objects w !! x = Some o -> in_book w x \/ done o.

(** The incoming order during matching. *)
Definition incoming (o : Order) : Prop :=
  unfilled o \/ (status o = FILLED /\ size o = 0).

(** The levels of [w'] are levels of [w], with some orders gone. *)
Definition sublevels (w w' : World) : Prop :=
  forall s k q, sd_get k (dict s (lob w')) = Some q ->
    exists q0, sd_get k (dict s (lob w)) = Some q0 /\ q ⊆ q0.

(** The invariant of a run on the orders: see [keyed], [priced] and
    [settled] (no order is left aside). *)
Definition sound (w : World) : Prop :=
  keyed w /\ priced w /\
  forall x o, objects w !! x = Some o -> in_book w x \/ done o.

(** The loop keeps the orders under their keys, leaves no order aside, and
    leaves the incoming order filled or with something left. *)
Definition matching (r : ref) (w : World) : Prop :=
  keyed w /\ settled r w /\ forall o, objects w !! r = Some o -> incoming o.





(** ** [Client] *)

(** [Client.create_order]: the decimals are given (the conversion
    [Decimal(str(x))] of the floats is left out); [vn] names the venue. *)
Definition create_order (c : Owner) (price size : Q) (side : OrderSide)
    (vn : option nat) : M ref :=
  order <- Order_new (Some price) size side vn (Some c) ;;
  add_order order ;;;
  ret order.

(** [Client.cancel_order], for an order whose venue is the book of the
    world. *)
Definition cancel_order (order : ref) : M ref :=
  remove_order order ;;;
  ret order.

(** What [set.remove] and hashing can raise. *)
Inductive client_exn := KeyError | TypeError.

(** [Client.active_orders], a Python set of orders.  [Order] has a
    [__hash__], its identifier, and no [__eq__]: an entry is an order, kept
    with the hash it had when it was added, and a key finds it when it is the
    same object and has that hash. *)
Definition pyset := list (N * ref).

Definition same_entry (e e' : N * ref) : bool :=
  N.eqb (fst e) (fst e') && Nat.eqb (snd e) (snd e').

(** [s.add(x)] *)
Definition set_add (e : N * ref) (s : pyset) : pyset :=
  if existsb (same_entry e) s then s else s ++ [e].

(** [s.remove(x)]; [None] is [KeyError]. *)
Fixpoint set_remove (e : N * ref) (s : pyset) : option pyset :=
  match s with
  | [] => None
  | e' :: s' => if same_entry e e' then Some s'
                else match set_remove e s' with
                     | Some s'' => Some (e' :: s'')
                     | None => None
                     end
  end.

(** [hash(order)]: [Order.__hash__] returns the identifier, and [None] is
    not an integer ([TypeError]). *)
Definition hash (objs : list Order) (x : ref) : option N :=
  match objs !! x with
  | Some o => order_id o
  | None => None
  end.

Inductive client_result :=
| Active (active_orders : pyset)
| Failed (e : client_exn).

(** [Client.receive_update] on the set [active_orders]. *)
Definition receive_update (objs : list Order) (update : OrderUpdate)
    (active_orders : pyset) : client_result :=
  match update with
  | mkOrderUpdate order s _ =>
      match s with
      | FILLED | CANCELLED =>
          match hash objs order with
          | None => Failed TypeError
          | Some h =>
              match set_remove (h, order) active_orders with
              | Some a => Active a
              | None => Failed KeyError
              end
          end
      | POSTED =>
          match hash objs order with
          | None => Failed TypeError
          | Some h => Active (set_add (h, order) active_orders)
          end
      | _ => Active active_orders
      end
  end.

(** The same client object. *)
Definition same_owner (a b : Owner) : bool :=
  Nat.eqb (owner_key a) (owner_key b) && Bool.eqb (owner_truth a) (owner_truth b).

(** The client [c] handling the updates delivered to it, in the order they
    came.  An order has its identifier before its first update and keeps it,
    so its hash is read from the store [objs] the updates left. *)
Fixpoint received (objs : list Order) (c : Owner) (l : list (Owner * OrderUpdate))
    (active_orders : pyset) : client_result :=
  match l with
  | [] => Active active_orders
  | (ow, u) :: l' =>
      if same_owner ow c then
        match receive_update objs u active_orders with
        | Active a => received objs c l' a
        | Failed e => Failed e
        end
      else received objs c l' active_orders
  end.

(** The order [x] belongs to [c] and has the identifier [h]. *)
Definition owned (objs : list Order) (c : Owner) (x : ref) (h : N) : Prop :=
  exists o, objs !! x = Some o /\ owner o = Some c /\ order_id o = Some h.

(** The set [a] holds the orders of [c] that satisfy [A], each once, under
    its identifier. *)
Definition holds (objs : list Order) (c : Owner) (A : ref -> Prop) (a : pyset)
  : Prop :=
  NoDup a /\ forall h x, (h, x) ∈ a <-> A x /\ owned objs c x h.

(** The updates of [w] are about orders of its store, and they leave the
    client [c] with the set of its orders that satisfy [A]. *)
Definition cview (c : Owner) (A : ref -> Prop) (w : World) : Prop :=
  Forall (fun e => (update_order (snd e) < length (objects w))%nat) (inbox w) /\
  exists a, received (objects w) c (inbox w) [] = Active a /\
            holds (objects w) c A a.

(** The orders the client follows while [r] is being matched: those in the
    book, and [r] as long as it is not filled. *)
Definition active_in (r : ref) (w : World) (y : ref) : Prop :=
  in_book w y \/ (y = r /\ exists o, objects w !! r = Some o /\ live (status o)).

(** What an update of status [st] for the order [x] does to the orders the
    client follows, and what it needs. *)
Definition upd (st : OrderStatus) (x : ref) (A : ref -> Prop) (y : ref) : Prop :=
  match st with
  | POSTED => A y \/ y = x
  | FILLED | CANCELLED => A y /\ y <> x
  | _ => A y
  end.

(** What the client's set must hold for the update not to fail. *)
Definition pre (st : OrderStatus) (x : ref) (A : ref -> Prop) : Prop :=
  match st with
  | POSTED => ~ A x
  | FILLED | CANCELLED => A x
  | _ => True
  end.

(** Every order of the store has its identifier. *)
Definition all_ids (w : World) : Prop :=
  forall x o, objects w !! x = Some o -> is_Some (order_id o).

(** The client during the matching of [r]: it has the orders of the book
    and [r], until [r] is filled. *)
Definition following (c : Owner) (r : ref) (w : World) : Prop :=
  all_ids w /\ cview c (active_in r w) w /\
  forall o, objects w !! r = Some o -> incoming o.

(** The client between two calls: it has its orders that are in the book. *)
Definition served (c : Owner) (w : World) : Prop :=
  all_ids w /\ cview c (in_book w) w.

(** The changes of status the book makes: a new order is posted; a posted
    or partly filled order is partly filled, filled or cancelled. *)
Definition transition (old new : OrderStatus) : Prop :=
  (old = CREATED /\ new = POSTED) \/
  (live old /\ (new = PARTIALLY_FILLED \/ new = FILLED \/ new = CANCELLED)).

(** The update went to the truthy owner of its order, and tells one of the
    changes of status above. *)
Definition legal (w : World) (e : Owner * OrderUpdate) : Prop :=
  to_its_owner w e /\
  match snd e with mkOrderUpdate _ new old => transition old new end.

(** All the updates delivered so far. *)
Definition all_legal (w : World) : Prop := Forall (legal w) (inbox w).

(** Every queue is in the order of arrival: from head to tail the
    references, which number the orders as they came, grow. *)
Definition queued_in_order (w : World) : Prop :=
  forall s k q, sd_get k (dict s (lob w)) = Some q -> Sorted.StronglySorted lt q.

(** What makes the test of the loop the crossing test. *)
Definition keyed_and_priced (w : World) : Prop := keyed w /\ priced w.

(** What matching has taken from the side [s] between [w0] and [w]: of every
    queue of [w0] a first part is gone, its orders FILLED with nothing left;
    the rest is the queue of [w], and but for its head it is untouched. *)
Definition heads_taken (s : book_side) (w0 w : World) : Prop :=
  forall k q, sd_get k (dict s (lob w0)) = Some q ->
    exists filled left,
      q = filled ++ left /\
      sd_get k (dict s (lob w)) = match left with [] => None | _ :: _ => Some left end /\
      (forall x, x ∈ filled ->
         exists o', objects w !! x = Some o' /\ status o' = FILLED /\ size o' = 0) /\
      (forall x, x ∈ tail left -> objects w !! x = objects w0 !! x).

(** Three asks at the same price. *)
Definition three_asks : list op :=
  [ Submit (Some 100) 1 SELL None; Submit (Some 100) 1 SELL None;
    Submit (Some 100) 1 SELL None ].

(** What a submission has taken from the queue [lvl] held under [k] on the
    side [s]: the queue was in the order of arrival; a first part of it,
    [filled], is gone, every order of it FILLED with nothing left; the rest,
    [left], is the queue now (the level is deleted when nothing is left),
    its orders are still live, and but for its head they are untouched. *)
Definition taken_from_head (s : book_side) (k : Q) (lvl : deque) (w w' : World)
  : Prop :=
  Sorted.StronglySorted lt lvl /\
  exists filled left,
    lvl = filled ++ left /\
    sd_get k (dict s (lob w')) = match left with [] => None | _ :: _ => Some left end /\
    (forall x, x ∈ filled ->
       exists o', objects w' !! x = Some o' /\ status o' = FILLED /\ size o' = 0) /\
    (forall x, x ∈ left ->
       exists o', objects w' !! x = Some o' /\ live (status o')) /\
    (forall x, x ∈ tail left -> objects w' !! x = objects w !! x).

(** ** The decimal context *)

(** The arithmetic of [Decimal] goes through a context: the result of [-],
    of unary [-] and of [abs] is rounded to 28 significant digits, to the
    nearest, ties to even (the default context, [prec=28] and
    [ROUND_HALF_EVEN]); comparisons and [Decimal(str)] are exact.  The
    bounds of the exponent ([Emin], [Emax]) are left out.
    [scale10 x e] is [x * 10 ^ e]. *)
Definition scale10 (x : Q) (e : Z) : Q :=
  if (0 <=? e)%Z then x * inject_Z (10 ^ e) else x / inject_Z (10 ^ (- e)).

(** The integer nearest to [c], the even one of two at the same distance. *)
Definition round_half_even (c : Q) : Z :=
  let f := Qfloor c in
  match Qcompare (c - inject_Z f) (1 # 2) with
  | Lt => f
  | Gt => (f + 1)%Z
  | Eq => if Z.even f then f else (f + 1)%Z
  end.

(** Exponents around that of the last of the 28 digits of [x], from the
    binary logarithms of its numerator and denominator. *)
Definition exponent_candidates (x : Q) : list Z :=
  let a := Z.log2 (Z.abs (Qnum x)) in
  let b := Z.log2 (Zpos (Qden x)) in
  let e0 := ((a - b) * 30103 / 100000 - 27)%Z in
  [e0 - 2; e0 - 1; e0; e0 + 1; e0 + 2]%Z.

(** [x / 10 ^ e] has 28 digits before the point. *)
Definition coefficient_ok (x : Q) (e : Z) : bool :=
  Qle_bool (inject_Z (10 ^ 27)) (Qabs (scale10 x (- e)))
  && negb (Qle_bool (inject_Z (10 ^ 28)) (Qabs (scale10 x (- e)))).

(** [x] to 28 significant digits.  [0] is left as it is, and so is a
    magnitude whose exponent the candidates miss, which takes an exponent
    far beyond [Emax] of the context. *)
Definition nearest (x : Q) : Q :=
  match List.find (coefficient_ok x) (exponent_candidates x) with
  | Some e => scale10 (inject_Z (round_half_even (scale10 x (- e)))) e
  | None => x
  end.

(** What the context makes of the exact result [x]: [x] itself when it has
    at most 28 digits. *)
Definition round_ctx (x : Q) : Q :=
  if Qeq_bool (nearest x) x then x else nearest x.

(** Decimals of at most [k] fractional digits and 28 digits in all. *)
Definition grid (k : nat) (x : Q) : Prop :=
  exists n : Z, (Z.abs n < 10 ^ 28)%Z /\ x == inject_Z n / inject_Z (10 ^ Z.of_nat k).

(** ** [LimitOrderBook] methods, with the arithmetic of the context *)

(** The methods of [LimitOrderBook] once more, with the rounding [rd] of the
    context at each [-], unary [-] and [abs] of the source.  With [rd] the
    identity they are the definitions above ([run_ctx_id]).
    [order.size -= matching_order.size]: *)
Definition size_sub_ctx (rd : Q -> Q) (r m : ref) : M unit :=
  a <- read r ;; b <- read m ;; write r (with_size a (rd (size a - size b))).

(** [order.price if order.side is OrderSide.SELL else -order.price] *)
Definition _convert_price_ctx (rd : Q -> Q) (o : Order) : Q :=
  match side o with SELL => price o | BUY => rd (- price o) end.

(** [order.price <= -self.bids.peekitem()[0]]: the negation is rounded. *)
Definition _is_crossing_ctx (rd : Q -> Q) (r : ref) : M bool :=
  o <- read r ;;
  b <- get_book ;;
  match side o with
  | BUY =>
      match peekitem (asks b) with
      | Some (k, _) => ret (Qle_bool k (price o))
      | None => ret false
      end
  | SELL =>
      match peekitem (bids b) with
      | Some (k, _) => ret (Qle_bool (price o) (rd (- k)))
      | None => ret false
      end
  end.

(** [diff = matching_order.size - order.size] is rounded, and so are the two
    [-=]. *)
Definition match_body_ctx (rd : Q -> Q) (r : ref) (s : book_side) (top_price : Q)
    (top_orders : deque) : M bool :=
  match top_orders with
  | [] => raise IndexError
  | matching_order :: _ =>
      m <- read matching_order ;;
      o <- read r ;;
      match Qcompare (rd (size m - size o)) 0 with
      | Lt =>
          top_orders' <- popleft s top_price top_orders ;;
          size_sub_ctx rd r matching_order ;;;
          size_zero matching_order ;;;
          del_if_empty s top_price top_orders' ;;;
          update_status r PARTIALLY_FILLED ;;;
          update_status matching_order FILLED ;;;
          ret true
      | Gt =>
          size_sub_ctx rd matching_order r ;;;
          size_zero r ;;;
          update_status matching_order PARTIALLY_FILLED ;;;
          update_status r FILLED ;;;
          ret false
      | Eq =>
          top_orders' <- popleft s top_price top_orders ;;
          size_zero matching_order ;;;
          size_zero r ;;;
          del_if_empty s top_price top_orders' ;;;
          update_status matching_order FILLED ;;;
          update_status r FILLED ;;;
          ret false
      end
  end.

(** [while condition(abs(top_price))]: the absolute value is rounded. *)
Fixpoint match_loop_ctx (rd : Q -> Q) (fuel : nat) (r : ref) (s : book_side) (condition : Q -> bool)
    (top_price : Q) (top_orders : deque) : M unit :=
  match fuel with
  | O => fun _ => OutOfFuel
  | S fuel' =>
      if condition (rd (Qabs top_price)) then
        go_on <- match_body_ctx rd r s top_price top_orders ;;
        if go_on : bool then
          d <- get_dict s ;;
          match peekitem d with
          | None => ret tt
          | Some (top_price', top_orders') =>
              match_loop_ctx rd fuel' r s condition top_price' top_orders'
          end
        else ret tt
      else ret tt
  end.

Definition _match_ctx (rd : Q -> Q) (r : ref) : M unit :=
  o <- read r ;;
  let s := match side o with BUY => ASKS | SELL => BIDS end in
  let condition :=
    match side o with
    | BUY => fun x => Qle_bool x (price o)
    | SELL => fun x => Qle_bool (price o) x
    end in
  d <- get_dict s ;;
  match peekitem d with
  | None => ret tt
  | Some (top_price, top_orders) =>
      match_loop_ctx rd (S (length (sd_refs d))) r s condition top_price top_orders
  end.

Definition rest_order_ctx (rd : Q -> Q) (r : ref) : M unit :=
  o <- read r ;;
  if negb (Qeq_bool (size o) 0) then
    let p := _convert_price_ctx rd o in
    d <- get_dict (own_side o) ;;
    let q := if sd_contains p d then default [] (sd_get p d) else [] in
    set_dict (own_side o) (sd_put p (q ++ [r]) d)
  else ret tt.

Definition add_order_ctx (rd : Q -> Q) (r : ref) : M bool :=
  b <- get_book ;;
  put_book (snd (_new_order_id b)) ;;;
  assign_id r (fst (_new_order_id b)) ;;;
  update_status r POSTED ;;;
  crossing <- _is_crossing_ctx rd r ;;
  (if crossing : bool then _match_ctx rd r else ret tt) ;;;
  rest_order_ctx rd r ;;;
  set_last_order r ;;;
  ret true.

Definition remove_order_ctx (rd : Q -> Q) (r : ref) : M bool :=
  o <- read r ;;
  let p := _convert_price_ctx rd o in
  d <- get_dict (own_side o) ;;
  if sd_contains p d then
    match deque_remove r (default [] (sd_get p d)) with
    | Some q =>
        set_dict (own_side o) (sd_put p q d) ;;;
        del_if_empty (own_side o) p q ;;;
        update_status r CANCELLED ;;;
        ret true
    | None => raise LOBUnknownOrderError
    end
  else raise LOBUnknownOrderError.

Definition step_ctx (rd : Q -> Q) (x : op) (st : World * Ledger) : World * Ledger :=
  let (w, l) := st in
  match x with
  | Submit p sz sd ow =>
      match Order_new p sz sd None ow w with
      | Ok r w1 =>
          let w2 := after (add_order_ctx rd r w1) w1 in
          let taken := size_of (objects w1) r - size_of (objects w2) r in
          (w2, mkLedger (submitted l + sz) (cancelled l)
                        (filled_in l + taken)
                        (filled_book l + (total w1 - total w2 - taken)))
      | Raise _ w1 => (w1, l)
      | OutOfFuel => (w, l)
      end
  | Cancel r =>
      match remove_order_ctx rd r w with
      | Ok _ w' =>
          (w', mkLedger (submitted l) (cancelled l + size_of (objects w) r)
                        (filled_in l) (filled_book l))
      | Raise _ w' => (w', l)
      | OutOfFuel => (w, l)
      end
  end.

Definition run_from_ctx (rd : Q -> Q) (st : World * Ledger) (ops : list op) : World * Ledger :=
  fold_left (fun st x => step_ctx rd x st) ops st.

Definition run_ctx (rd : Q -> Q) (ops : list op) : World * Ledger :=
  run_from_ctx rd (empty_world, mkLedger 0 0 0 0) ops.


(** A rounding that leaves the decimals of the grid as they are. *)
Definition exact_on (k : nat) (rd : Q -> Q) : Prop :=
  forall x, grid k x -> rd x = x.

(** The price and the size of the call are on the grid. *)
Definition grid_op (k : nat) (x : op) : Prop :=
  match x with
  | Submit p sz _ _ => (forall q, p = Some q -> grid k q) /\ grid k sz
  | Cancel _ => True
  end.

(** The keys of a dictionary are on the grid. *)
Definition keys_on (k : nat) (d : SortedDict) : Prop :=
  Forall (fun e => grid k (fst e)) d.

(** Every price, size and key of the world is on the grid, and no size is
    negative. *)
Definition on_grid (k : nat) (w : World) : Prop :=
  Forall (fun o => grid k (price o) /\ grid k (size o) /\ 0 <= size o) (objects w) /\
  forall s, keys_on k (dict s (lob w)).



(** An ask of 2 at 100. *)
Definition ask_of_two : list op := [ Submit (Some 100) 2 SELL None ].

(** * Lemmas and theorems *)

(** ** Facts about the sorted dictionary *)

Lemma Qeq_bool_false (x y : Q) : Qeq_bool x y = false <-> ~ x == y.
Proof.
  rewrite <- Qeq_bool_iff. destruct (Qeq_bool x y); split; congruence.
Qed.

Lemma sd_contains_get p d : sd_contains p d = true <-> is_Some (sd_get p d).
Proof.
  induction d as [|[k v] d IH]; simpl.
  - split; [discriminate | intros [? ?]; discriminate].
  - destruct (Qeq_bool p k); simpl; [split; eauto | exact IH].
Qed.

Lemma sd_contains_false p d : sd_contains p d = false <-> sd_get p d = None.
Proof.
  induction d as [|[k v] d IH]; simpl; [tauto|].
  destruct (Qeq_bool p k); simpl; [split; discriminate | exact IH].
Qed.

Lemma sd_get_sub p d v : sd_get p d = Some v -> v ⊆ sd_refs d.
Proof.
  induction d as [|[k x] d IH]; simpl; [discriminate|].
  unfold sd_refs; simpl. fold (sd_refs d).
  destruct (Qeq_bool p k); intros H x0 Hx; apply elem_of_app.
  - left. congruence.
  - right. apply (IH H), Hx.
Qed.

Lemma sd_del_absent p d : Forall (fun e => p < fst e) d -> sd_del p d = d.
Proof.
  induction 1 as [|[k x] d Hk _ IH]; simpl; [reflexivity|].
  simpl in Hk. replace (Qeq_bool p k) with false; [now rewrite IH|].
  symmetry; apply Qeq_bool_false. lra.
Qed.

Lemma sd_del_none p d : sd_get p d = None -> sd_del p d = d.
Proof.
  induction d as [|[k x] d IH]; simpl; [reflexivity|].
  destruct (Qeq_bool p k); [discriminate|]. intros H; now rewrite IH.
Qed.

Lemma sd_refs_get p d v :
  sd_get p d = Some v -> sd_refs d ≡ₚ v ++ sd_refs (sd_del p d).
Proof.
  induction d as [|[k x] d IH]; simpl; [discriminate|].
  unfold sd_refs; simpl; fold (sd_refs d).
  destruct (Qeq_bool p k); intros H.
  - injection H as ->. reflexivity.
  - simpl. fold (sd_refs (sd_del p d)). rewrite (IH H).
    rewrite !app_assoc. apply Permutation_app_tail, Permutation_app_comm.
Qed.

Lemma sd_refs_put p v d :
  sd_sorted d -> sd_refs (sd_put p v d) ≡ₚ v ++ sd_refs (sd_del p d).
Proof.
  induction d as [|[k x] d IH]; simpl; [reflexivity|].
  intros [Hk Hd].
  destruct (Qcompare_spec p k) as [Heq|Hlt|Hgt].
  - apply Qeq_bool_iff in Heq. rewrite Heq. reflexivity.
  - replace (Qeq_bool p k) with false by (symmetry; apply Qeq_bool_false; lra).
    rewrite sd_del_absent; [reflexivity|].
    eapply Forall_impl; [exact Hk|]. simpl; intros; lra.
  - replace (Qeq_bool p k) with false by (symmetry; apply Qeq_bool_false; lra).
    unfold sd_refs; simpl. fold (sd_refs (sd_put p v d)) (sd_refs (sd_del p d)).
    rewrite (IH Hd). rewrite !app_assoc.
    apply Permutation_app_tail, Permutation_app_comm.
Qed.

Lemma sd_del_put p v d : sd_sorted d -> sd_del p (sd_put p v d) = sd_del p d.
Proof.
  induction d as [|[k x] d IH]; simpl.
  - intros _. now rewrite Qeq_bool_refl.
  - intros [Hk Hd].
    destruct (Qcompare_spec p k) as [Heq|Hlt|Hgt]; simpl.
    + apply Qeq_bool_iff in Heq. now rewrite Heq.
    + rewrite Qeq_bool_refl.
      replace (Qeq_bool p k) with false by (symmetry; apply Qeq_bool_false; lra).
      rewrite sd_del_absent; [reflexivity|].
      eapply Forall_impl; [exact Hk|]. simpl; intros; lra.
    + replace (Qeq_bool p k) with false by (symmetry; apply Qeq_bool_false; lra).
      now rewrite IH.
Qed.

Lemma sd_put_Forall (P : Q * deque -> Prop) p v d :
  (forall k, k == p -> P (k, v)) -> Forall P d -> Forall P (sd_put p v d).
Proof.
  intros Hp. induction 1 as [|[k x] d Hk Hd IH]; simpl.
  - constructor; [apply Hp; reflexivity | constructor].
  - destruct (Qcompare_spec p k) as [Heq|Hlt|Hgt].
    + constructor; [apply Hp; lra | exact Hd].
    + constructor; [apply Hp; reflexivity | now constructor].
    + now constructor.
Qed.

Lemma sd_del_Forall (P : Q * deque -> Prop) p d :
  Forall P d -> Forall P (sd_del p d).
Proof.
  induction 1 as [|[k x] d Hk Hd IH]; simpl; [constructor|].
  destruct (Qeq_bool p k); [exact Hd | now constructor].
Qed.

Lemma sd_put_sorted p v d : sd_sorted d -> sd_sorted (sd_put p v d).
Proof.
  induction d as [|[k x] d IH]; simpl.
  - intros _. split; [constructor | exact I].
  - intros [Hk Hd].
    destruct (Qcompare_spec p k) as [Heq|Hlt|Hgt]; simpl.
    + split; [exact Hk | exact Hd].
    + repeat split; [|exact Hk|exact Hd].
      constructor; [exact Hlt|].
      eapply Forall_impl; [exact Hk|]. simpl; intros; lra.
    + split; [|exact (IH Hd)].
      apply sd_put_Forall; [simpl; intros; lra | exact Hk].
Qed.

Lemma sd_del_sorted p d : sd_sorted d -> sd_sorted (sd_del p d).
Proof.
  induction d as [|[k x] d IH]; simpl; [tauto|].
  intros [Hk Hd]. destruct (Qeq_bool p k); [exact Hd|].
  simpl. split; [apply sd_del_Forall, Hk | exact (IH Hd)].
Qed.

Lemma sd_get_skip p d :
  Forall (fun e => fst e < p) d -> sd_get p d = None.
Proof.
  induction 1 as [|[k x] d Hk _ IH]; simpl; [reflexivity|].
  simpl in Hk.
  replace (Qeq_bool p k) with false by (symmetry; apply Qeq_bool_false; lra).
  exact IH.
Qed.

Lemma peekitem_cons e d :
  peekitem (e :: d) = match d with [] => Some e | _ :: _ => peekitem d end.
Proof. destruct d; reflexivity. Qed.

(** On a sorted dictionary [peekitem()] is the entry with the largest key. *)
Lemma peekitem_max d k v :
  sd_sorted d -> peekitem d = Some (k, v) -> Forall (fun e => fst e <= k) d.
Proof.
  induction d as [|[k0 x0] d IH]; [constructor|].
  intros [Hk Hd]. rewrite peekitem_cons. destruct d as [|e d'].
  - intros [= -> ->]. constructor; [simpl; lra | constructor].
  - intros H. specialize (IH Hd H). constructor; [|exact IH].
    simpl. inversion Hk as [|? ? He _]; subst.
    inversion IH as [|? ? He' _]; subst. lra.
Qed.

Lemma peekitem_get d k v :
  sd_sorted d -> peekitem d = Some (k, v) -> sd_get k d = Some v.
Proof.
  induction d as [|[k0 x0] d IH]; [discriminate|].
  intros [Hk Hd]. rewrite peekitem_cons. destruct d as [|e d'].
  - intros [= -> ->]. simpl. now rewrite Qeq_bool_refl.
  - intros H. simpl sd_get.
    assert (k0 < k) as Hlt.
    { pose proof (peekitem_max _ _ _ Hd H) as Hm.
      inversion Hk as [|? ? He _]; subst. inversion Hm as [|? ? He' _]; subst. lra. }
    replace (Qeq_bool k k0) with false by (symmetry; apply Qeq_bool_false; lra).
    exact (IH Hd H).
Qed.

Lemma peekitem_in d e : peekitem d = Some e -> e ∈ d.
Proof.
  unfold peekitem. intros H. apply last_Some in H as [l ->].
  apply elem_of_app. right. constructor.
Qed.

(** On a sorted dictionary [peekitem(0)] is the entry with the smallest key. *)
Lemma peekitem0_min d k v :
  sd_sorted d -> peekitem0 d = Some (k, v) -> Forall (fun e => k <= fst e) d.
Proof.
  destruct d as [|[k0 x0] d]; [constructor|].
  intros [Hk _] [= -> ->]. constructor; [simpl; lra|].
  eapply Forall_impl; [exact Hk|]. simpl; intros; lra.
Qed.

Lemma sd_get_put_eq p v d : sd_sorted d -> sd_get p (sd_put p v d) = Some v.
Proof.
  induction d as [|[k x] d IH]; simpl.
  - intros _. now rewrite Qeq_bool_refl.
  - intros [Hk Hd]. destruct (Qcompare_spec p k) as [Heq|Hlt|Hgt]; simpl.
    + apply Qeq_bool_iff in Heq. now rewrite Heq.
    + now rewrite Qeq_bool_refl.
    + replace (Qeq_bool p k) with false by (symmetry; apply Qeq_bool_false; lra).
      exact (IH Hd).
Qed.

Lemma sd_get_put_ne k p v d : ~ k == p -> sd_get k (sd_put p v d) = sd_get k d.
Proof.
  intros Hne. induction d as [|[k0 x] d IH]; simpl.
  - now replace (Qeq_bool k p) with false by (symmetry; now apply Qeq_bool_false).
  - destruct (Qcompare_spec p k0) as [Heq|Hlt|Hgt]; simpl.
    + replace (Qeq_bool k k0) with false; [reflexivity|].
      symmetry; apply Qeq_bool_false. intros H. apply Hne. lra.
    + now replace (Qeq_bool k p) with false by (symmetry; now apply Qeq_bool_false).
    + now rewrite IH.
Qed.

Lemma sd_get_above p d : Forall (fun e => p < fst e) d -> sd_get p d = None.
Proof.
  induction 1 as [|[k x] d Hk _ IH]; simpl; [reflexivity|].
  simpl in Hk.
  replace (Qeq_bool p k) with false by (symmetry; apply Qeq_bool_false; lra).
  exact IH.
Qed.

Lemma sd_get_del_eq p d : sd_sorted d -> sd_get p (sd_del p d) = None.
Proof.
  induction d as [|[k x] d IH]; simpl; [reflexivity|].
  intros [Hk Hd]. destruct (Qeq_bool p k) eqn:Hpk.
  - apply Qeq_bool_iff in Hpk. apply sd_get_above.
    eapply Forall_impl; [exact Hk|]. simpl; intros; lra.
  - simpl. rewrite Hpk. exact (IH Hd).
Qed.

Lemma sd_get_del_ne k p d : ~ k == p -> sd_get k (sd_del p d) = sd_get k d.
Proof.
  intros Hne. induction d as [|[k0 x] d IH]; simpl; [reflexivity|].
  destruct (Qeq_bool p k0) eqn:Hpk; simpl.
  - apply Qeq_bool_iff in Hpk.
    replace (Qeq_bool k k0) with false; [reflexivity|].
    symmetry; apply Qeq_bool_false. intros H. apply Hne. lra.
  - now rewrite IH.
Qed.

Lemma level_or_new p d :
  (if sd_contains p d then default [] (sd_get p d) else []) = default [] (sd_get p d).
Proof.
  destruct (sd_contains p d) eqn:H; [reflexivity|].
  apply sd_contains_false in H. now rewrite H.
Qed.

(** ** Running the operations: equations of the steps *)

Lemma read_eq r w o : objects w !! r = Some o -> read r w = Ok o w.
Proof. unfold read. now intros ->. Qed.

Lemma update_status_eq r st w o :
  objects w !! r = Some o ->
  update_status r st w =
  Ok tt (mkWorld (<[r := with_status o st]> (objects w)) (lob w)
           (inbox w ++ notes o r st)).
Proof.
  intros H. unfold update_status, bind, write, notes. rewrite (read_eq _ _ _ H).
  destruct (owner o) as [ow|]; [destruct (owner_truth ow)|]; simpl;
    rewrite ?app_nil_r; reflexivity.
Qed.

Lemma size_sub_eq r m w a b :
  objects w !! r = Some a -> objects w !! m = Some b ->
  size_sub r m w =
  Ok tt (mkWorld (<[r := with_size a (size a - size b)]> (objects w)) (lob w) (inbox w)).
Proof.
  intros Ha Hb. unfold size_sub, bind, write.
  now rewrite (read_eq _ _ _ Ha), (read_eq _ _ _ Hb).
Qed.

Lemma size_zero_eq r w a :
  objects w !! r = Some a ->
  size_zero r w = Ok tt (mkWorld (<[r := with_size a 0]> (objects w)) (lob w) (inbox w)).
Proof.
  intros Ha. unfold size_zero, bind, write. now rewrite (read_eq _ _ _ Ha).
Qed.

Lemma dict_with_dict s d b : dict s (with_dict s d b) = d.
Proof. now destruct s. Qed.

Lemma with_dict_with_dict s d d' b : with_dict s d (with_dict s d' b) = with_dict s d b.
Proof. now destruct s. Qed.

Lemma with_dict_id s b : with_dict s (dict s b) b = b.
Proof. now destruct s, b. Qed.

Lemma popleft_eq s tp top_orders w :
  popleft s tp top_orders w =
  Ok (tail top_orders)
     (mkWorld (objects w)
        (with_dict s (sd_put tp (tail top_orders) (dict s (lob w))) (lob w))
        (inbox w)).
Proof. reflexivity. Qed.

Lemma del_if_empty_eq s tp q w :
  del_if_empty s tp q w =
  Ok tt (mkWorld (objects w)
           (with_dict s match q with
                        | [] => sd_del tp (dict s (lob w))
                        | _ :: _ => dict s (lob w)
                        end (lob w))
           (inbox w)).
Proof.
  destruct q; simpl; [reflexivity|]. rewrite with_dict_id. now destruct w.
Qed.

Lemma bind_Ok {A B} (m : M A) (k : A -> M B) w a w' :
  m w = Ok a w' -> bind m k w = k a w'.
Proof. unfold bind. now intros ->. Qed.

Ltac lookup_tac :=
  cbn [objects lob inbox];
  repeat first
    [ rewrite list_lookup_insert_eq
        by (rewrite ?length_insert; eauto using lookup_lt_Some)
    | rewrite list_lookup_insert_ne by congruence ];
  try eassumption; try reflexivity.

Ltac run_with lem :=
  erewrite bind_Ok; [| apply lem; lookup_tac ]; cbn [objects lob inbox].

Lemma with_status_with_size o q st st' :
  with_status (with_size (with_status o st') q) st = with_status (with_size o q) st.
Proof. reflexivity. Qed.

Lemma notes_with_size o q r st : notes (with_size o q) r st = notes o r st.
Proof. reflexivity. Qed.

Lemma pop_dict_eq s tp q b :
  with_dict s
    match q with
    | [] => sd_del tp (dict s (with_dict s (sd_put tp q (dict s b)) b))
    | _ :: _ => dict s (with_dict s (sd_put tp q (dict s b)) b)
    end (with_dict s (sd_put tp q (dict s b)) b) =
  with_dict s (replace_level tp q (dict s b)) b.
Proof.
  rewrite dict_with_dict, with_dict_with_dict. now destruct q.
Qed.

Ltac finish_body :=
  unfold ret; f_equal; f_equal;
  try apply pop_dict_eq;
  try (rewrite ?notes_with_size, <- ?app_assoc; reflexivity);
  cbn [with_status with_size price size side owner venue status order_id];
  repeat first
    [ rewrite list_insert_insert_eq
    | rewrite (list_insert_insert_ne _ _ _ _ _) by congruence;
      rewrite list_insert_insert_eq ];
  reflexivity.

Lemma match_body_Lt r s tp m rest w om or :
  objects w !! m = Some om -> objects w !! r = Some or -> size om < size or ->
  match_body r s tp (m :: rest) w =
  Ok true (mkWorld
    (<[m := with_status (with_size om 0) FILLED]>
       (<[r := with_status (with_size or (size or - size om)) PARTIALLY_FILLED]>
          (objects w)))
    (with_dict s (replace_level tp rest (dict s (lob w))) (lob w))
    (inbox w ++ notes or r PARTIALLY_FILLED ++ notes om m FILLED)).
Proof.
  intros Hm Hr Hlt.
  assert (r <> m) as Hne by (intros ->; rewrite Hm in Hr; injection Hr as ->; lra).
  unfold match_body.
  run_with read_eq. run_with read_eq.
  replace (size om - size or ?= 0) with Lt
    by (symmetry; change (size om - size or < 0); lra).
  run_with popleft_eq.
  run_with size_sub_eq.
  run_with size_zero_eq.
  run_with del_if_empty_eq.
  run_with update_status_eq.
  run_with update_status_eq.
  finish_body.
Qed.

Lemma match_body_Gt r s tp m rest w om or :
  objects w !! m = Some om -> objects w !! r = Some or -> size or < size om ->
  match_body r s tp (m :: rest) w =
  Ok false (mkWorld
    (<[r := with_status (with_size or 0) FILLED]>
       (<[m := with_status (with_size om (size om - size or)) PARTIALLY_FILLED]>
          (objects w)))
    (lob w)
    (inbox w ++ notes om m PARTIALLY_FILLED ++ notes or r FILLED)).
Proof.
  intros Hm Hr Hlt.
  assert (r <> m) as Hne by (intros ->; rewrite Hm in Hr; injection Hr as ->; lra).
  unfold match_body.
  run_with read_eq. run_with read_eq.
  replace (size om - size or ?= 0) with Gt by (symmetry; apply Qgt_alt; lra).
  run_with size_sub_eq.
  run_with size_zero_eq.
  run_with update_status_eq.
  run_with update_status_eq.
  finish_body.
Qed.

Lemma match_body_Eq r s tp m rest w om or :
  objects w !! m = Some om -> objects w !! r = Some or -> size om == size or ->
  r <> m ->
  match_body r s tp (m :: rest) w =
  Ok false (mkWorld
    (<[r := with_status (with_size or 0) FILLED]>
       (<[m := with_status (with_size om 0) FILLED]> (objects w)))
    (with_dict s (replace_level tp rest (dict s (lob w))) (lob w))
    (inbox w ++ notes om m FILLED ++ notes or r FILLED)).
Proof.
  intros Hm Hr Heq Hne.
  unfold match_body.
  run_with read_eq. run_with read_eq.
  replace (size om - size or ?= 0) with Eq by (symmetry; apply Qeq_alt; lra).
  run_with popleft_eq.
  run_with size_zero_eq.
  run_with size_zero_eq.
  run_with del_if_empty_eq.
  run_with update_status_eq.
  run_with update_status_eq.
  finish_body.
Qed.

(** ** Sizes: sums over the store and over the book *)

Lemma sumQ_app l1 l2 : sumQ (l1 ++ l2) == sumQ l1 + sumQ l2.
Proof. induction l1 as [|x l1 IH]; simpl; [lra | rewrite IH; lra]. Qed.

Lemma sumQ_perm l1 l2 : l1 ≡ₚ l2 -> sumQ l1 == sumQ l2.
Proof. induction 1; simpl; lra. Qed.

Lemma level_sum_perm objs l1 l2 :
  l1 ≡ₚ l2 -> level_sum objs l1 == level_sum objs l2.
Proof. intros H. apply sumQ_perm, Permutation_map, H. Qed.

Lemma level_sum_cons objs x l :
  level_sum objs (x :: l) = size_of objs x + level_sum objs l.
Proof. reflexivity. Qed.

Lemma level_sum_same objs objs' l :
  (forall x, x ∈ l -> objs' !! x = objs !! x) ->
  level_sum objs' l = level_sum objs l.
Proof.
  induction l as [|y l IH]; intros H; [reflexivity|].
  rewrite !level_sum_cons. rewrite IH by (intros x Hx; apply H; now constructor).
  unfold size_of. now rewrite (H y) by constructor.
Qed.

Lemma total_insert (l : list Order) i o o' :
  l !! i = Some o ->
  sumQ (map size (<[i := o']> l)) == sumQ (map size l) - size o + size o'.
Proof.
  revert i. induction l as [|a l IH]; intros [|i] H; simpl in *; try discriminate.
  - injection H as ->. lra.
  - rewrite (IH i H). lra.
Qed.

Lemma total_snoc (l : list Order) o :
  sumQ (map size (l ++ [o])) == sumQ (map size l) + size o.
Proof. rewrite map_app, sumQ_app. simpl. lra. Qed.

(** ** The invariant of the book *)

Lemma resting_side s w :
  resting w == level_sum (objects w) (sd_refs (dict s (lob w)))
               + level_sum (objects w) (sd_refs (dict (other s) (lob w))).
Proof. unfold resting. destruct s; simpl; lra. Qed.

Lemma dict_with_dict_other s d b : dict (other s) (with_dict s d b) = dict (other s) b.
Proof. now destruct s. Qed.

Lemma order_side_other s : order_side (other s) <> order_side s.
Proof. now destruct s. Qed.

Lemma rests_same w w' sd x :
  objects w' !! x = objects w !! x -> rests w sd x -> rests w' sd x.
Proof. intros H (o & ? & ?). exists o. now rewrite H. Qed.

(** ** Replacing the deque of a level *)

Lemma replace_level_sorted p q d : sd_sorted d -> sd_sorted (replace_level p q d).
Proof.
  intros H. destruct q; simpl.
  - apply sd_del_sorted, sd_put_sorted, H.
  - apply sd_put_sorted, H.
Qed.

Lemma replace_level_nonempty p q d :
  sd_sorted d -> levels_nonempty d -> levels_nonempty (replace_level p q d).
Proof.
  intros Hs H. destruct q; simpl.
  - rewrite sd_del_put by exact Hs. apply sd_del_Forall, H.
  - apply sd_put_Forall; [intros; simpl; discriminate | exact H].
Qed.

Lemma replace_level_refs p q d :
  sd_sorted d -> sd_refs (replace_level p q d) ≡ₚ q ++ sd_refs (sd_del p d).
Proof.
  intros Hs. destruct q; simpl replace_level.
  - now rewrite sd_del_put.
  - now apply sd_refs_put.
Qed.

(** Taking [x] out of the level under [p]. *)
Lemma replace_level_remove p q q' x d :
  sd_sorted d -> sd_get p d = Some q -> q ≡ₚ x :: q' ->
  sd_refs d ≡ₚ x :: sd_refs (replace_level p q' d).
Proof.
  intros Hs Hg Hq. rewrite (sd_refs_get _ _ _ Hg), replace_level_refs by exact Hs.
  now rewrite Hq.
Qed.

(** ** One fill: what it does to the invariant and to the sums *)

Lemma side_cases (s s0 : book_side) : s0 = s \/ s0 = other s.
Proof. destruct s, s0; auto. Qed.

Lemma two_inserts (objs : list Order) a b oa ob oa' ob' :
  a <> b -> objs !! a = Some oa -> objs !! b = Some ob ->
  let objs' := <[a := oa']> (<[b := ob']> objs) in
  objs' !! a = Some oa' /\ objs' !! b = Some ob' /\
  (forall x, x <> a -> x <> b -> objs' !! x = objs !! x) /\
  sumQ (map size objs') ==
    sumQ (map size objs) - size oa + size oa' - size ob + size ob' /\
  length objs' = length objs.
Proof.
  intros Hab Ha Hb objs'. unfold objs'. repeat split.
  - apply list_lookup_insert_eq. rewrite length_insert. eauto using lookup_lt_Some.
  - rewrite list_lookup_insert_ne by congruence.
    apply list_lookup_insert_eq. eauto using lookup_lt_Some.
  - intros x Hxa Hxb. now rewrite !list_lookup_insert_ne by congruence.
  - rewrite (total_insert _ a oa).
    + rewrite (total_insert _ b ob) by exact Hb. lra.
    + now rewrite list_lookup_insert_ne by congruence.
  - now rewrite !length_insert.
Qed.

Section Fill.
Variables (w w' : World) (s : book_side) (r m : ref) (or om or' om' : Order).
Hypothesis HInv : Inv w.
Hypothesis Hout : ~ in_book w r.
Hypothesis Hr : objects w !! r = Some or.
Hypothesis Hm : objects w !! m = Some om.
Hypothesis Hin : m ∈ sd_refs (dict s (lob w)).
Hypothesis Hr' : objects w' !! r = Some or'.
Hypothesis Hm' : objects w' !! m = Some om'.
Hypothesis Hsame : forall x, x <> r -> x <> m -> objects w' !! x = objects w !! x.
Hypothesis Hother : dict (other s) (lob w') = dict (other s) (lob w).

Lemma fill_other_side x :
  x ∈ sd_refs (dict (other s) (lob w)) -> x <> r /\ x <> m.
Proof.
  intros Hx. split.
  - intros ->. apply Hout. now exists (other s).
  - intros ->.
    destruct (inv_rests _ HInv _ _ Hx) as (o1 & E1 & S1 & _).
    destruct (inv_rests _ HInv _ _ Hin) as (o2 & E2 & S2 & _).
    rewrite E1 in E2. injection E2 as ->.
    apply (order_side_other s). congruence.
Qed.

Lemma fill_this_side x :
  x ∈ sd_refs (dict s (lob w)) -> x <> r.
Proof. intros Hx ->. apply Hout. now exists s. Qed.

(** The matched order leaves the book. *)
Section Pop.
Variables (tp : Q) (rest : deque).
Hypothesis Hlevel : sd_get tp (dict s (lob w)) = Some (m :: rest).
Hypothesis Hthis :
  dict s (lob w') = replace_level tp rest (dict s (lob w)).

Lemma fill_pop_refs :
  sd_refs (dict s (lob w)) ≡ₚ m :: sd_refs (dict s (lob w')).
Proof.
  rewrite Hthis.
  apply (replace_level_remove tp (m :: rest)); auto using inv_sorted.
Qed.

Lemma fill_pop_notin : m ∉ sd_refs (dict s (lob w')).
Proof.
  pose proof (inv_nodup _ HInv s) as Hnd.
  rewrite fill_pop_refs in Hnd. now apply NoDup_cons in Hnd.
Qed.

Lemma fill_pop_Inv : Inv w'.
Proof.
  pose proof (inv_nodup _ HInv s) as Hnd.
  rewrite fill_pop_refs in Hnd. apply NoDup_cons in Hnd as [Hnot Hnd].
  constructor; intros s0; destruct (side_cases s s0) as [-> | ->];
    rewrite ?Hother.
  - rewrite Hthis. apply replace_level_sorted, inv_sorted, HInv.
  - apply inv_sorted, HInv.
  - rewrite Hthis. apply replace_level_nonempty; apply HInv.
  - apply inv_nonempty, HInv.
  - exact Hnd.
  - apply inv_nodup, HInv.
  - intros x Hx.
    assert (x ∈ sd_refs (dict s (lob w))) as Hx0
      by (rewrite fill_pop_refs; now constructor).
    apply (rests_same w); [|now apply inv_rests].
    apply Hsame; [now apply fill_this_side | congruence].
  - intros x Hx. destruct (fill_other_side x Hx).
    apply (rests_same w); [now apply Hsame | now apply inv_rests].
Qed.

Lemma fill_pop_out : ~ in_book w' r.
Proof.
  intros [s0 Hx]. apply Hout.
  destruct (side_cases s s0) as [-> | ->].
  - exists s. rewrite fill_pop_refs. now constructor.
  - exists (other s). now rewrite <- Hother.
Qed.

Lemma fill_pop_resting : resting w' == resting w - size om.
Proof.
  rewrite (resting_side s w), (resting_side s w').
  rewrite (level_sum_perm _ _ _ fill_pop_refs), level_sum_cons.
  rewrite Hother.
  rewrite (level_sum_same (objects w) (objects w') (sd_refs (dict s (lob w')))).
  - rewrite (level_sum_same (objects w) (objects w')
               (sd_refs (dict (other s) (lob w)))).
    + unfold size_of. rewrite Hm. simpl. lra.
    + intros x Hx. destruct (fill_other_side x Hx). now apply Hsame.
  - intros x Hx. apply Hsame.
    + apply fill_this_side. rewrite fill_pop_refs. now constructor.
    + intros ->. now apply fill_pop_notin.
Qed.

Lemma fill_pop_fuel :
  (length (sd_refs (dict s (lob w'))) < length (sd_refs (dict s (lob w))))%nat.
Proof. rewrite (Permutation_length fill_pop_refs). simpl. lia. Qed.
End Pop.

(** The matched order stays in the book, with what is left of it. *)
Section Stay.
Hypothesis Hlob : lob w' = lob w.
Hypothesis Hrests : rests w' (order_side s) m.

Lemma fill_stay_Inv : Inv w'.
Proof.
  constructor; intros s0; rewrite Hlob; try apply HInv.
  intros x Hx. destruct (decide (x = m)) as [-> | Hxm].
  - destruct (side_cases s s0) as [-> | ->]; [exact Hrests|].
    now destruct (fill_other_side m Hx).
  - apply (rests_same w); [|now apply inv_rests].
    apply Hsame; [|exact Hxm]. intros ->. apply Hout. now exists s0.
Qed.

Lemma fill_stay_out : ~ in_book w' r.
Proof. intros [s0 Hx]. apply Hout. exists s0. now rewrite <- Hlob. Qed.

Lemma fill_stay_resting : resting w' == resting w - size om + size om'.
Proof.
  rewrite (resting_side s w), (resting_side s w'), Hlob.
  destruct (proj1 (elem_of_Permutation _ _) Hin) as [R HR].
  pose proof (inv_nodup _ HInv s) as Hnd. rewrite HR in Hnd.
  apply NoDup_cons in Hnd as [Hnot _].
  rewrite !(level_sum_perm _ _ _ HR), !level_sum_cons.
  rewrite (level_sum_same (objects w) (objects w') R).
  - rewrite (level_sum_same (objects w) (objects w')
               (sd_refs (dict (other s) (lob w)))).
    + unfold size_of. rewrite Hm, Hm'. simpl. lra.
    + intros x Hx. destruct (fill_other_side x Hx). now apply Hsame.
  - intros x Hx. apply Hsame.
    + apply fill_this_side. rewrite HR. now constructor.
    + intros ->. contradiction.
Qed.
End Stay.
End Fill.

(** ** Matching *)

Lemma fill_effect_refl r w : fill_effect r w w.
Proof. exists 0. repeat split; lra. Qed.

Lemma fill_effect_trans r w1 w2 w3 :
  fill_effect r w1 w2 -> fill_effect r w2 w3 -> fill_effect r w1 w3.
Proof.
  intros (q1 & A1 & B1 & C1) (q2 & A2 & B2 & C2). exists (q1 + q2).
  repeat split; lra.
Qed.

Ltac splits := repeat match goal with |- _ /\ _ => split end.

Lemma sd_refs_elem (d : SortedDict) k q x : (k, q) ∈ d -> x ∈ q -> x ∈ sd_refs d.
Proof.
  intros Hd Hx. unfold sd_refs. apply list_elem_of_In, in_concat.
  exists q. split; [|now apply list_elem_of_In].
  apply in_map_iff. exists (k, q). split; [reflexivity | now apply list_elem_of_In].
Qed.

Lemma match_body_ok r s tp m rest w or :
  Inv w -> ~ in_book w r -> objects w !! r = Some or -> unfilled or ->
  peekitem (dict s (lob w)) = Some (tp, m :: rest) ->
  exists go w',
    match_body r s tp (m :: rest) w = Ok go w' /\
    Inv w' /\ ~ in_book w' r /\ length (objects w') = length (objects w) /\
    fill_effect r w w' /\
    dict (other s) (lob w') = dict (other s) (lob w) /\
    if go
    then same_order r w w' unfilled /\
         (length (sd_refs (dict s (lob w'))) < length (sd_refs (dict s (lob w))))%nat
    else same_order r w w' (fun o' => size o' = 0).
Proof.
  intros HInv Hout Hr [Hpos Hlive] Hpeek.
  assert (m ∈ sd_refs (dict s (lob w))) as Hin.
  { eapply sd_refs_elem; [eapply peekitem_in, Hpeek | constructor]. }
  pose proof (peekitem_get _ _ _ (inv_sorted _ HInv s) Hpeek) as Hget.
  destruct (inv_rests _ HInv _ _ Hin) as (om & Hm & Hside & Hmpos & Hmlive).
  assert (r <> m) as Hne by (intros ->; apply Hout; now exists s).
  destruct (Qcompare_spec (size om) (size or)) as [Heq | Hlt | Hgt].
  - (* both are filled *)
    eexists false, _. split; [apply (match_body_Eq _ _ _ _ _ _ om or); auto|].
    set (or' := with_status (with_size or 0) FILLED).
    set (om' := with_status (with_size om 0) FILLED).
    destruct (two_inserts (objects w) r m or om or' om' Hne Hr Hm)
      as (Lr & Lm & Lx & Ltot & Llen).
    set (w' := mkWorld _ _ _).
    assert (dict (other s) (lob w') = dict (other s) (lob w)) as Hoth
      by apply dict_with_dict_other.
    assert (dict s (lob w') = replace_level tp rest (dict s (lob w))) as Hthis
      by apply dict_with_dict.
    refine (conj _ (conj _ (conj _ (conj _ (conj _ _))))).
    + eapply (fill_pop_Inv w w' s r m); eauto.
    + eapply (fill_pop_out w w' s r m); eauto.
    + exact Llen.
    + exists (size or). repeat split.
      * unfold total, w'. cbn [objects]. rewrite Ltot. simpl. lra.
      * rewrite (fill_pop_resting w w' s r m om); eauto. lra.
      * unfold size_of, w'. cbn [objects]. rewrite Lr, Hr. simpl. lra.
    + exact Hoth.
    + exists or, or'. repeat split; auto.
  - (* the resting order is filled, the incoming one goes on *)
    eexists true, _. split; [apply (match_body_Lt _ _ _ _ _ _ om or); auto|].
    set (or' := with_status (with_size or (size or - size om)) PARTIALLY_FILLED).
    set (om' := with_status (with_size om 0) FILLED).
    assert (m <> r) as Hne' by congruence.
    destruct (two_inserts (objects w) m r om or om' or' Hne' Hm Hr)
      as (Lm & Lr & Lx & Ltot & Llen).
    set (w' := mkWorld _ _ _).
    assert (dict (other s) (lob w') = dict (other s) (lob w)) as Hoth
      by apply dict_with_dict_other.
    assert (dict s (lob w') = replace_level tp rest (dict s (lob w))) as Hthis
      by apply dict_with_dict.
    assert (forall x, x <> r -> x <> m -> objects w' !! x = objects w !! x) as Lx'
      by (intros; now apply Lx).
    refine (conj _ (conj _ (conj _ (conj _ (conj _ _))))).
    + eapply (fill_pop_Inv w w' s r m); eauto.
    + eapply (fill_pop_out w w' s r m); eauto.
    + exact Llen.
    + exists (size om). repeat split.
      * unfold total, w'. cbn [objects]. rewrite Ltot. simpl. lra.
      * rewrite (fill_pop_resting w w' s r m om); eauto. lra.
      * unfold size_of, w'. cbn [objects]. rewrite Lr, Hr. simpl. lra.
    + exact Hoth.
    + split; [|eapply (fill_pop_fuel w w' s m); eauto].
      exists or, or'. repeat split; auto; [simpl; lra | now right].
  - (* the incoming order is filled, the resting one stays *)
    eexists false, _. split; [apply (match_body_Gt _ _ _ _ _ _ om or); auto|].
    set (or' := with_status (with_size or 0) FILLED).
    set (om' := with_status (with_size om (size om - size or)) PARTIALLY_FILLED).
    destruct (two_inserts (objects w) r m or om or' om' Hne Hr Hm)
      as (Lr & Lm & Lx & Ltot & Llen).
    set (w' := mkWorld _ _ _).
    assert (rests w' (order_side s) m) as Hrests.
    { exists om'. repeat split; auto; [simpl; lra | now right]. }
    refine (conj _ (conj _ (conj _ (conj _ (conj _ _))))).
    + eapply (fill_stay_Inv w w' s r m); eauto.
    + eapply (fill_stay_out w w' r); eauto.
    + exact Llen.
    + exists (size or). repeat split.
      * unfold total, w'. cbn [objects]. rewrite Ltot. simpl. lra.
      * rewrite (fill_stay_resting w w' s r m om om'); eauto. simpl. lra.
      * unfold size_of, w'. cbn [objects]. rewrite Lr, Hr. simpl. lra.
    + reflexivity.
    + exists or, or'. repeat split; auto.
Qed.

Lemma same_order_trans r w1 w2 w3 (P Q : Order -> Prop) :
  same_order r w1 w2 P -> same_order r w2 w3 Q -> same_order r w1 w3 Q.
Proof.
  intros (o1 & o2 & A1 & A2 & Hp & Hs & _) (o2' & o3 & B1 & B2 & Hp' & Hs' & HQ).
  rewrite A2 in B1. injection B1 as <-.
  exists o1, o3. splits; auto; congruence.
Qed.

Lemma same_order_refl r w o (P : Order -> Prop) :
  objects w !! r = Some o -> P o -> same_order r w w P.
Proof. intros H HP. exists o, o. splits; auto. Qed.

Lemma matched_refl r s w o :
  Inv w -> ~ in_book w r -> objects w !! r = Some o -> unfilled o -> matched r s w w.
Proof.
  intros. unfold matched. splits; auto using fill_effect_refl.
  apply (same_order_refl _ _ o); auto.
Qed.

(** The loop of [_match] ends within its fuel, and keeps the invariant. *)
Lemma match_loop_ok fuel : forall r s cond tp top w or,
  Inv w -> ~ in_book w r -> objects w !! r = Some or -> unfilled or ->
  peekitem (dict s (lob w)) = Some (tp, top) ->
  (length (sd_refs (dict s (lob w))) < fuel)%nat ->
  exists w', match_loop fuel r s cond tp top w = Ok tt w' /\ matched r s w w'.
Proof.
  induction fuel as [|fuel IH]; intros r s cond tp top w or HInv Hout Hr Hun Hpeek Hfuel;
    [lia|].
  simpl match_loop. destruct (cond (Qabs tp)).
  2:{ exists w. split; [reflexivity | now apply (matched_refl _ _ _ or)]. }
  destruct top as [|m rest].
  { pose proof (inv_nonempty _ HInv s) as Hne.
    apply peekitem_in in Hpeek.
    unfold levels_nonempty in Hne. rewrite Forall_forall in Hne.
    now specialize (Hne _ Hpeek). }
  destruct (match_body_ok r s tp m rest w or HInv Hout Hr Hun Hpeek)
    as (go & w1 & Hbody & HInv1 & Hout1 & Hlen1 & Heff1 & Hfr1 & Hgo).
  rewrite (bind_Ok _ _ _ _ _ Hbody).
  destruct go.
  - destruct Hgo as [Hsame Hless].
    unfold bind, get_dict, get_book, ret. simpl.
    destruct (peekitem (dict s (lob w1))) as [[tp' top']|] eqn:Hpeek1.
    + destruct Hsame as (o0 & or1 & E0 & Hr1 & Hp & Hs & Hun1).
      destruct (IH r s cond tp' top' w1 or1 HInv1 Hout1 Hr1 Hun1 Hpeek1)
        as (w2 & Hloop & HInv2 & Hout2 & Hlen2 & Heff2 & Hfr2 & Hsame2); [lia|].
      exists w2. split; [exact Hloop|]. unfold matched. splits; auto.
      * congruence.
      * eapply fill_effect_trans; eauto.
      * congruence.
      * eapply same_order_trans; [|exact Hsame2].
        exists o0, or1. splits; eauto.
    + exists w1. split; [reflexivity|]. unfold matched. splits; auto.
      destruct Hsame as (o0 & or1 & ? & ? & ? & ? & ?).
      exists o0, or1. splits; auto.
  - exists w1. split; [reflexivity|]. unfold matched. splits; auto.
    destruct Hgo as (o0 & or1 & ? & ? & ? & ? & ?).
    exists o0, or1. splits; auto.
Qed.

Lemma _match_ok r w o :
  Inv w -> ~ in_book w r -> objects w !! r = Some o -> unfilled o ->
  exists w', _match r w = Ok tt w' /\ matched r (other (own_side o)) w w'.
Proof.
  intros HInv Hout Hr Hun. unfold _match.
  rewrite (bind_Ok _ _ _ _ _ (read_eq _ _ _ Hr)).
  unfold bind at 1, get_dict, bind, get_book, ret. cbn -[match_loop].
  replace (match side o with BUY => ASKS | SELL => BIDS end)
    with (other (own_side o)) by (unfold own_side; now destruct (side o)).
  set (s := other (own_side o)).
  destruct (peekitem (dict s (lob w))) as [[tp top]|] eqn:Hpeek.
  - eapply match_loop_ok; eauto.
  - exists w. split; [reflexivity | now apply (matched_refl _ _ _ o)].
Qed.

(** ** Submission *)

Lemma _is_crossing_eq r w o :
  objects w !! r = Some o -> _is_crossing r w = Ok (crossing o (lob w)) w.
Proof.
  intros H. unfold _is_crossing, crossing.
  rewrite (bind_Ok _ _ _ _ _ (read_eq _ _ _ H)).
  unfold bind, get_book, ret.
  destruct (side o); [destruct (peekitem (asks (lob w))) as [[? ?]|]
                     | destruct (peekitem (bids (lob w))) as [[? ?]|]]; reflexivity.
Qed.

Lemma assign_id_eq r i w o :
  objects w !! r = Some o ->
  assign_id r i w =
  Ok tt (mkWorld (<[r := with_order_id o i]> (objects w)) (lob w) (inbox w)).
Proof.
  intros H. unfold assign_id. now rewrite (bind_Ok _ _ _ _ _ (read_eq _ _ _ H)).
Qed.

Lemma add_order_eq r w o :
  objects w !! r = Some o ->
  add_order r w =
  ((if crossing (with_status (with_order_id o (fst (_new_order_id (lob w)))) POSTED)
         (snd (_new_order_id (lob w)))
    then _match r else ret tt) ;;;
   rest_order r ;;; set_last_order r ;;; ret true) (posted r o w).
Proof.
  intros H. unfold add_order.
  unfold bind at 1, get_book at 1. unfold bind at 1, put_book at 1.
  run_with assign_id_eq.
  run_with update_status_eq.
  erewrite bind_Ok; [| apply _is_crossing_eq; lookup_tac ].
  unfold posted. rewrite list_insert_insert_eq. reflexivity.
Qed.

(** Changing an order that is not in the book. *)
Lemma Inv_outside w w' r :
  Inv w -> ~ in_book w r ->
  (forall x, x <> r -> objects w' !! x = objects w !! x) ->
  (forall s, dict s (lob w') = dict s (lob w)) ->
  Inv w' /\ ~ in_book w' r /\ resting w' = resting w.
Proof.
  intros HInv Hout Hsame Hd. splits.
  - constructor; intros s; rewrite Hd; try apply HInv.
    intros x Hx. apply (rests_same w); [|now apply inv_rests].
    apply Hsame. intros ->. apply Hout. now exists s.
  - intros [s Hx]. apply Hout. exists s. now rewrite <- Hd.
  - unfold resting. change (bids (lob w')) with (dict BIDS (lob w')).
    change (asks (lob w')) with (dict ASKS (lob w')). rewrite !Hd. simpl dict.
    f_equal; apply level_sum_same; intros x Hx; apply Hsame; intros ->; apply Hout.
    + now exists BIDS.
    + now exists ASKS.
Qed.

Lemma sd_refs_append p d r :
  sd_sorted d ->
  sd_refs (sd_put p ((if sd_contains p d then default [] (sd_get p d) else []) ++ [r]) d)
  ≡ₚ r :: sd_refs d.
Proof.
  intros Hs. rewrite sd_refs_put by exact Hs.
  destruct (sd_get p d) as [q|] eqn:Hg.
  - replace (sd_contains p d) with true
      by (symmetry; apply sd_contains_get; eauto).
    simpl. rewrite (sd_refs_get _ _ _ Hg).
    rewrite <- app_assoc. simpl. symmetry. apply Permutation_middle.
  - replace (sd_contains p d) with false
      by (symmetry; now apply sd_contains_false).
    simpl. now rewrite sd_del_none.
Qed.

Lemma own_side_order o : order_side (own_side o) = side o.
Proof. unfold own_side. now destruct (side o). Qed.

Lemma rest_order_ok r w o :
  Inv w -> ~ in_book w r -> objects w !! r = Some o ->
  unfilled o \/ size o = 0 ->
  exists w', rest_order r w = Ok tt w' /\ Inv w' /\
             objects w' = objects w /\ inbox w' = inbox w /\
             resting w' == resting w + size o /\
             queued_last r o w w'.
Proof.
  intros HInv Hout Hr Hcase. unfold rest_order.
  rewrite (bind_Ok _ _ _ _ _ (read_eq _ _ _ Hr)).
  destruct Hcase as [[Hpos Hlive] | Hz].
  - replace (Qeq_bool (size o) 0) with false
      by (symmetry; apply Qeq_bool_false; lra).
    simpl negb. cbv iota.
    set (s := own_side o). set (p := _convert_price o).
    eexists. split; [reflexivity|]. cbn [objects lob inbox].
    set (d := dict s (lob w)).
    set (d' := sd_put p _ d).
    assert (sd_refs d' ≡ₚ r :: sd_refs d) as Hperm
      by (apply sd_refs_append, inv_sorted, HInv).
    assert (r ∉ sd_refs d) as Hnot by (intros ?; apply Hout; now exists s).
    splits; try reflexivity.
    + constructor; intros s0; cbn [lob];
        destruct (side_cases s s0) as [-> | ->];
        rewrite ?dict_with_dict, ?dict_with_dict_other; try apply HInv.
      * apply sd_put_sorted, inv_sorted, HInv.
      * apply sd_put_Forall; [|apply inv_nonempty, HInv].
        intros k _. simpl. now destruct (if sd_contains p d then _ else _).
      * rewrite Hperm. apply NoDup_cons. split; [exact Hnot|].
        apply inv_nodup, HInv.
      * intros x Hx. rewrite Hperm in Hx.
        apply elem_of_cons in Hx as [-> | Hx].
        -- exists o. splits; auto. symmetry. apply own_side_order.
        -- now apply (inv_rests _ HInv).
    + rewrite (resting_side s w), (resting_side s). cbn [objects lob].
      rewrite dict_with_dict, dict_with_dict_other. fold d'.
      rewrite (level_sum_perm _ _ _ Hperm), level_sum_cons.
      unfold size_of at 1. rewrite Hr. simpl. fold d. lra.
    + unfold queued_last, size_of. cbn [objects lob]. rewrite Hr. simpl from_option.
      replace (Qeq_bool (size o) 0) with false
        by (symmetry; apply Qeq_bool_false; lra).
      rewrite dict_with_dict. fold s p d. unfold d'. rewrite level_or_new. split.
      * apply sd_get_put_eq, inv_sorted, HInv.
      * intros k Hk. now apply sd_get_put_ne.
  - rewrite Hz. simpl. exists w. splits; auto; [unfold ret; lra|].
    unfold queued_last, size_of. rewrite Hr. simpl from_option. now rewrite Hz.
Qed.

Lemma Inv_same_book w w' :
  Inv w -> objects w' = objects w ->
  (forall s, dict s (lob w') = dict s (lob w)) ->
  Inv w' /\ resting w' = resting w /\ total w' = total w.
Proof.
  intros HInv Ho Hd. splits.
  - constructor; intros s; rewrite Hd; try apply HInv.
    intros x Hx. apply (rests_same w); [now rewrite Ho | now apply inv_rests].
  - unfold resting. change (bids (lob w')) with (dict BIDS (lob w')).
    change (asks (lob w')) with (dict ASKS (lob w')). now rewrite !Hd, Ho.
  - unfold total. now rewrite Ho.
Qed.

Lemma dict_new_order_id s b : dict s (snd (_new_order_id b)) = dict s b.
Proof. now destruct s. Qed.

Lemma add_order_ok r w o :
  Inv w -> ~ in_book w r -> objects w !! r = Some o -> 0 < size o ->
  exists w', add_order r w = Ok true w' /\ Inv w' /\
             length (objects w') = length (objects w) /\
             submitted_effect r o w w' /\
             queued_last r o w w'.
Proof.
  intros HInv Hout Hr Hpos. rewrite (add_order_eq _ _ _ Hr).
  set (o1 := with_status (with_order_id o (fst (_new_order_id (lob w)))) POSTED).
  set (w1 := posted r o w).
  assert (objects w1 !! r = Some o1) as Hr1
    by (apply list_lookup_insert_eq; eauto using lookup_lt_Some).
  destruct (Inv_outside w w1 r HInv Hout) as (HInv1 & Hout1 & Hrest1).
  { intros x Hx. apply list_lookup_insert_ne. congruence. }
  { intros s. apply dict_new_order_id. }
  assert (total w1 == total w) as Htot1.
  { unfold total, w1, posted. cbn [objects]. rewrite (total_insert _ _ o) by exact Hr.
    simpl. lra. }
  assert (length (objects w1) = length (objects w)) as Hlen1 by apply length_insert.
  assert (unfilled o1) as Hun1 by (split; [exact Hpos | now left]).
  assert (exists w2, (if crossing o1 (snd (_new_order_id (lob w)))
                      then _match r else ret tt) w1 = Ok tt w2 /\
                     matched r (other (own_side o)) w1 w2)
    as (w2 & Hrun2 & HInv2 & Hout2 & Hlen2 & (q & Htot2 & Hrest2 & Hsz2) & Hfr2 & Hsame2).
  { destruct (crossing o1 _).
    - now apply (_match_ok r w1 o1).
    - exists w1. split; [reflexivity | now apply (matched_refl _ _ _ o1)]. }
  rewrite (bind_Ok _ _ _ _ _ Hrun2).
  destruct Hsame2 as (o1' & o2 & E1 & Hr2 & Hprice2 & Hside2 & Hcase).
  rewrite Hr1 in E1. injection E1 as <-.
  destruct (rest_order_ok r w2 o2 HInv2 Hout2 Hr2 Hcase)
    as (w3 & Hrun3 & HInv3 & Hobj3 & _ & Hrest3 & Hq3).
  rewrite (bind_Ok _ _ _ _ _ Hrun3).
  unfold bind, set_last_order, bind, get_book, put_book, ret.
  eexists. split; [reflexivity|].
  set (w4 := mkWorld _ _ _).
  destruct (Inv_same_book w3 w4 HInv3) as (HInv4 & Hrest4 & Htot4);
    [reflexivity | intros []; reflexivity |].
  assert (size_of (objects w2) r = size o2) as Hs2
    by (unfold size_of; now rewrite Hr2).
  assert (size_of (objects w1) r = size o) as Hs1
    by (unfold size_of; now rewrite Hr1).
  rewrite Hs2, Hs1 in Hsz2.
  splits; auto.
  - change (objects w4) with (objects w3). congruence.
  - exists q. splits.
    + rewrite Htot4. replace (total w3) with (total w2)
        by (unfold total; now rewrite Hobj3). lra.
    + rewrite Hrest4, Hrest3, Hrest2, Hrest1. lra.
    + change (objects w4) with (objects w3). rewrite Hobj3, Hs2. lra.
  - assert (own_side o2 = own_side o) as Hown
      by (unfold own_side; now rewrite Hside2).
    assert (_convert_price o2 = _convert_price o) as Hconv
      by (unfold _convert_price; now rewrite Hside2, Hprice2).
    assert (dict (own_side o) (lob w2) = dict (own_side o) (lob w)) as Hd2.
    { replace (own_side o) with (other (other (own_side o)))
        by now destruct (own_side o).
      rewrite Hfr2. apply dict_new_order_id. }
    unfold queued_last in *. rewrite Hown, Hconv, Hd2 in Hq3.
    change (objects w4) with (objects w3).
    replace (dict (own_side o) (lob w4)) with (dict (own_side o) (lob w3))
      by now destruct (own_side o).
    exact Hq3.
Qed.

(** ** Cancellation *)

Lemma deque_remove_Some x q q' : deque_remove x q = Some q' -> q ≡ₚ x :: q'.
Proof.
  revert q'. induction q as [|y q IH]; simpl; intros q'; [discriminate|].
  destruct (Nat.eqb_spec y x) as [-> | Hne].
  - now intros [= ->].
  - destruct (deque_remove x q) as [q''|]; [|discriminate].
    intros [= <-]. rewrite (IH q'' eq_refl). apply perm_swap.
Qed.

Lemma deque_remove_None x q : deque_remove x q = None <-> x ∉ q.
Proof.
  induction q as [|y q IH]; simpl.
  - split; [intros _; apply not_elem_of_nil | reflexivity].
  - destruct (Nat.eqb_spec y x) as [-> | Hne].
    + split; [discriminate | intros H; exfalso; apply H; constructor].
    + destruct (deque_remove x q) as [q''|].
      * split; [discriminate|]. intros H. exfalso.
        assert (x ∉ q) as Hq by (intros ?; apply H; now constructor).
        apply IH in Hq. discriminate.
      * split; [|reflexivity]. intros _ Hx.
        apply elem_of_cons in Hx as [-> | Hx]; [congruence|].
        now apply (proj1 IH eq_refl).
Qed.

Lemma deque_remove_is_Some x q : is_Some (deque_remove x q) <-> x ∈ q.
Proof.
  destruct (deque_remove x q) as [q'|] eqn:H.
  - split; [intros _ | eauto]. rewrite (deque_remove_Some _ _ _ H). constructor.
  - apply deque_remove_None in H. split; [intros [? ?]; discriminate | contradiction].
Qed.

Lemma remove_order_found r w o q q' :
  objects w !! r = Some o ->
  sd_get (_convert_price o) (dict (own_side o) (lob w)) = Some q ->
  deque_remove r q = Some q' ->
  remove_order r w = Ok true (after_cancel r o q' w).
Proof.
  intros Hr Hg Hq. unfold remove_order.
  rewrite (bind_Ok _ _ _ _ _ (read_eq _ _ _ Hr)).
  unfold bind at 1, get_dict at 1, bind at 1, get_book at 1, ret at 1.
  replace (sd_contains _ _) with true by (symmetry; apply sd_contains_get; eauto).
  rewrite Hg. cbn [from_option id]. rewrite Hq.
  unfold bind at 1, set_dict at 1, bind at 1, get_book at 1, put_book at 1.
  cbn [objects lob inbox].
  run_with del_if_empty_eq.
  run_with update_status_eq.
  unfold ret, after_cancel. f_equal. f_equal.
  rewrite dict_with_dict, with_dict_with_dict. now destruct q'.
Qed.

Lemma remove_order_no_level r w o :
  objects w !! r = Some o ->
  sd_get (_convert_price o) (dict (own_side o) (lob w)) = None ->
  remove_order r w = Raise LOBUnknownOrderError w.
Proof.
  intros Hr Hg. unfold remove_order.
  rewrite (bind_Ok _ _ _ _ _ (read_eq _ _ _ Hr)).
  unfold bind at 1, get_dict at 1, bind at 1, get_book at 1, ret at 1.
  replace (sd_contains _ _) with false by (symmetry; now apply sd_contains_false).
  reflexivity.
Qed.

Lemma remove_order_not_queued r w o q :
  objects w !! r = Some o ->
  sd_get (_convert_price o) (dict (own_side o) (lob w)) = Some q ->
  r ∉ q ->
  remove_order r w = Raise LOBUnknownOrderError w.
Proof.
  intros Hr Hg Hq. unfold remove_order.
  rewrite (bind_Ok _ _ _ _ _ (read_eq _ _ _ Hr)).
  unfold bind at 1, get_dict at 1, bind at 1, get_book at 1, ret at 1.
  replace (sd_contains _ _) with true by (symmetry; apply sd_contains_get; eauto).
  rewrite Hg. cbn [from_option id].
  apply deque_remove_None in Hq. now rewrite Hq.
Qed.

Lemma remove_order_unknown r w o :
  objects w !! r = Some o -> ~ resting_at w r ->
  remove_order r w = Raise LOBUnknownOrderError w.
Proof.
  intros Hr Hnot.
  destruct (sd_get (_convert_price o) (dict (own_side o) (lob w))) as [q|] eqn:Hg.
  - apply (remove_order_not_queued r w o q); auto.
    intros Hin. apply Hnot. now exists o, q.
  - now apply (remove_order_no_level r w o).
Qed.

Lemma remove_order_dangling r w :
  objects w !! r = None -> remove_order r w = Raise NoSuchObject w.
Proof. intros H. unfold remove_order, bind, read. now rewrite H. Qed.

Lemma remove_order_ok r w o q q' :
  Inv w -> objects w !! r = Some o ->
  sd_get (_convert_price o) (dict (own_side o) (lob w)) = Some q ->
  deque_remove r q = Some q' ->
  Inv (after_cancel r o q' w) /\ ~ in_book (after_cancel r o q' w) r /\
  resting (after_cancel r o q' w) == resting w - size o /\
  total (after_cancel r o q' w) == total w.
Proof.
  intros HInv Hr Hg Hq.
  set (s := own_side o) in *. set (p := _convert_price o) in *.
  set (w' := after_cancel r o q' w).
  assert (dict s (lob w') = replace_level p q' (dict s (lob w))) as Hthis
    by apply dict_with_dict.
  assert (dict (other s) (lob w') = dict (other s) (lob w)) as Hoth
    by apply dict_with_dict_other.
  assert (sd_refs (dict s (lob w)) ≡ₚ r :: sd_refs (dict s (lob w'))) as Hperm.
  { rewrite Hthis. apply (replace_level_remove p q); auto using inv_sorted.
    now apply deque_remove_Some. }
  pose proof (inv_nodup _ HInv s) as Hnd. rewrite Hperm in Hnd.
  apply NoDup_cons in Hnd as [Hnot Hnd].
  assert (forall x, x <> r -> objects w' !! x = objects w !! x) as Hsame
    by (intros x Hx; apply list_lookup_insert_ne; congruence).
  assert (forall x, x ∈ sd_refs (dict (other s) (lob w)) -> x <> r) as Hoside.
  { intros x Hx ->.
    destruct (inv_rests _ HInv _ _ Hx) as (o1 & E1 & S1 & _).
    rewrite Hr in E1. injection E1 as <-.
    apply (order_side_other s). rewrite <- S1. unfold s. symmetry. apply own_side_order. }
  assert (forall x, x ∈ sd_refs (dict s (lob w')) -> x <> r) as Hside
    by (intros x Hx ->; contradiction).
  splits.
  - constructor; intros s0; destruct (side_cases s s0) as [-> | ->];
      rewrite ?Hoth; try apply HInv.
    + rewrite Hthis. apply replace_level_sorted, inv_sorted, HInv.
    + rewrite Hthis. apply replace_level_nonempty; apply HInv.
    + exact Hnd.
    + intros x Hx. apply (rests_same w); [now apply Hsame, Hside|].
      apply inv_rests; [exact HInv|]. rewrite Hperm. now constructor.
    + intros x Hx. apply (rests_same w); [now apply Hsame, Hoside|].
      now apply inv_rests.
  - intros [s0 Hx]. destruct (side_cases s s0) as [-> | ->].
    + contradiction.
    + rewrite Hoth in Hx. now apply (Hoside r).
  - rewrite (resting_side s w), (resting_side s w'), Hoth.
    rewrite (level_sum_perm _ _ _ Hperm), level_sum_cons.
    rewrite (level_sum_same (objects w) (objects w') (sd_refs (dict s (lob w'))))
      by (intros; now apply Hsame, Hside).
    rewrite (level_sum_same (objects w) (objects w') (sd_refs (dict (other s) (lob w))))
      by (intros; now apply Hsame, Hoside).
    unfold size_of. rewrite Hr. simpl. lra.
  - unfold total, w', after_cancel. cbn [objects].
    rewrite (total_insert _ _ o) by exact Hr. simpl. lra.
Qed.

(** ** Sequences of submissions and cancellations *)

Lemma Inv_empty : Inv empty_world.
Proof.
  constructor; intros []; simpl; try constructor; intros x Hx;
    apply elem_of_nil in Hx; contradiction.
Qed.

Lemma balanced_empty : balanced (empty_world, mkLedger 0 0 0 0).
Proof. split; [apply Inv_empty | split; reflexivity]. Qed.

Lemma in_book_lt w x : Inv w -> in_book w x -> (x < length (objects w))%nat.
Proof.
  intros HInv [s Hx]. destruct (inv_rests _ HInv _ _ Hx) as (o & Ho & _).
  eauto using lookup_lt_Some.
Qed.

Lemma Order_new_inv p sz sd vn ow w :
  match Order_new p sz sd vn ow w with
  | Ok r w1 =>
      exists q, p = Some q /\ 0 < q /\ r = length (objects w) /\
        w1 = mkWorld (objects w ++ [mkOrder q sz sd ow vn CREATED None])
                     (lob w) (inbox w)
  | Raise e w1 => e = ValueError /\ w1 = w /\ ~ (exists q, p = Some q /\ 0 < q)
  | OutOfFuel => False
  end.
Proof.
  unfold Order_new, price_ok, raise. destruct p as [q|].
  - destruct (Qeq_bool q 0) eqn:Hz; simpl.
    + splits; auto. intros (q' & [= <-] & Hq). apply Qeq_bool_iff in Hz. lra.
    + destruct (Qcompare_spec q 0) as [H|H|H].
      * splits; auto. intros (q' & [= <-] & Hq). lra.
      * splits; auto. intros (q' & [= <-] & Hq). lra.
      * exists q. splits; auto.
  - splits; auto. intros (q' & [=] & _).
Qed.

Lemma step_balanced x st : valid_op x -> balanced st -> balanced (step x st).
Proof.
  destruct st as [w l]. intros Hv (HInv & Hsum & Heq). simpl in HInv, Hsum, Heq.
  destruct x as [p sz sd ow | r]; simpl step.
  - pose proof (Order_new_inv p sz sd None ow w) as Hnew.
    destruct (Order_new p sz sd None ow w) as [r w1 | e w1 |]; [| |contradiction].
    + destruct Hnew as (q & -> & Hq & -> & ->).
      set (o := mkOrder q sz sd ow None CREATED None).
      set (w1 := mkWorld _ _ _). set (r := length (objects w)).
      assert (~ in_book w r) as Hout
        by (intros Hin; apply (in_book_lt _ _ HInv) in Hin; unfold r in Hin; lia).
      assert (objects w1 !! r = Some o) as Hr by apply list_lookup_middle, eq_refl.
      destruct (Inv_outside w w1 r HInv Hout) as (HInv1 & Hout1 & Hrest1).
      { intros x Hx. unfold w1. cbn [objects].
        destruct (decide (x < length (objects w))%nat) as [Hlt|Hge].
        - now apply lookup_app_l.
        - rewrite !lookup_ge_None_2; [reflexivity | unfold r in Hx; lia |].
          rewrite length_app. simpl. unfold r in Hx. lia. }
      { reflexivity. }
      assert (total w1 == total w + sz) as Htot1 by apply total_snoc.
      destruct (add_order_ok r w1 o HInv1 Hout1 Hr Hv)
        as (w2 & Hrun & HInv2 & Hlen2 & (k & Htot2 & Hrest2 & Hsz2) & _).
      rewrite Hrun. simpl after.
      assert (size_of (objects w1) r = sz) as Hs1
        by (unfold size_of; now rewrite Hr).
      split; [exact HInv2|]. simpl fst. simpl snd. cbn [submitted cancelled filled_in filled_book].
      change (objects w ++ [o]) with (objects w1).
      rewrite Hs1. rewrite Hrest1 in Hrest2. change (size o) with sz in *. split; lra.
    + destruct Hnew as (_ & -> & _). split; [exact HInv | split; assumption].
  - destruct (objects w !! r) as [o|] eqn:Hr.
    2:{ rewrite remove_order_dangling by exact Hr.
        split; [exact HInv | split; assumption]. }
    destruct (sd_get (_convert_price o) (dict (own_side o) (lob w))) as [q|] eqn:Hg.
    2:{ rewrite (remove_order_no_level r w o) by assumption.
        split; [exact HInv | split; assumption]. }
    destruct (deque_remove r q) as [q'|] eqn:Hq.
    2:{ rewrite (remove_order_not_queued r w o q); auto.
        - split; [exact HInv | split; assumption].
        - now apply deque_remove_None. }
    rewrite (remove_order_found r w o q q') by assumption.
    destruct (remove_order_ok r w o q q' HInv Hr Hg Hq) as (HInv' & _ & Hrest & _).
    split; [exact HInv'|]. simpl fst. simpl snd. cbn [submitted cancelled filled_in filled_book].
    unfold size_of. rewrite Hr. simpl from_option. split; lra.
Qed.

Lemma run_from_balanced ops : forall st,
  Forall valid_op ops -> balanced st -> balanced (run_from st ops).
Proof.
  induction ops as [|x ops IH]; intros st Hv Hb; [exact Hb|].
  inversion Hv as [|? ? Hx Hops]; subst. simpl.
  apply IH; [exact Hops | now apply step_balanced].
Qed.

Lemma run_balanced ops : Forall valid_op ops -> balanced (run ops).
Proof. intros Hv. apply run_from_balanced; [exact Hv | apply balanced_empty]. Qed.

(** ** One turn of the matching loop, on any world *)

Lemma match_body_reads r s tp m rest w go w' :
  match_body r s tp (m :: rest) w = Ok go w' ->
  exists om or, objects w !! m = Some om /\ objects w !! r = Some or.
Proof.
  unfold match_body, bind at 1 2, read.
  destruct (objects w !! m) as [om|]; [|discriminate].
  destruct (objects w !! r) as [or|]; [|discriminate].
  eauto.
Qed.

Lemma match_body_turn r s tp m rest w go w' :
  r <> m -> match_body r s tp (m :: rest) w = Ok go w' ->
  turn r m s tp rest w go w'.
Proof.
  intros Hne H. destruct (match_body_reads _ _ _ _ _ _ _ _ H) as (om & or & Hm & Hr).
  destruct (Qcompare_spec (size om) (size or)) as [Heq | Hlt | Hgt].
  - rewrite (match_body_Eq _ _ _ _ _ _ om or) in H by auto.
    injection H as <- <-. now apply turn_Eq.
  - rewrite (match_body_Lt _ _ _ _ _ _ om or) in H by auto.
    injection H as <- <-. now apply turn_Lt.
  - rewrite (match_body_Gt _ _ _ _ _ _ om or) in H by auto.
    injection H as <- <-. now apply turn_Gt.
Qed.


(** A turn touches the incoming order and the head of the level, nothing
    else; the level keeps its queue or loses its head. *)
Lemma turn_head_only r m s tp rest w go w' :
  turn r m s tp rest w go w' ->
  (forall x, x <> r -> x <> m -> objects w' !! x = objects w !! x) /\
  dict (other s) (lob w') = dict (other s) (lob w) /\
  (dict s (lob w') = dict s (lob w) \/
   dict s (lob w') = replace_level tp rest (dict s (lob w))).
Proof.
  intros H.
  destruct H as [om or Hm Hr Hc | om or Hm Hr Hc | om or Hm Hr Hc];
    cbn [objects lob]; splits;
    try (intros x Hxr Hxm; now rewrite !list_lookup_insert_ne by congruence);
    try apply dict_with_dict_other; try reflexivity;
    try (right; apply dict_with_dict); try (now left).
Qed.

Lemma deque_remove_split x q q' :
  deque_remove x q = Some q' ->
  exists l1 l2, q = l1 ++ (x :: l2) /\ q' = l1 ++ l2 /\ x ∉ l1.
Proof.
  revert q'. induction q as [|y q IH]; simpl; intros q'; [discriminate|].
  destruct (Nat.eqb_spec y x) as [-> | Hne].
  - intros [= ->]. exists [], q'. splits; auto. apply not_elem_of_nil.
  - destruct (deque_remove x q) as [q''|]; [|discriminate].
    intros [= <-]. destruct (IH q'' eq_refl) as (l1 & l2 & -> & -> & Hn).
    exists (y :: l1), l2. splits; auto.
    intros H. apply elem_of_cons in H as [-> | H]; [congruence | contradiction].
Qed.

Lemma replace_level_get p q d :
  sd_sorted d ->
  sd_get p (replace_level p q d) = match q with [] => None | _ :: _ => Some q end.
Proof.
  intros Hs. destruct q; simpl.
  - rewrite sd_del_put by exact Hs. now apply sd_get_del_eq.
  - now apply sd_get_put_eq.
Qed.

Lemma replace_level_get_ne k p q d :
  ~ k == p -> sd_get k (replace_level p q d) = sd_get k d.
Proof.
  intros Hne. destruct q; simpl.
  - now rewrite sd_get_del_ne, sd_get_put_ne.
  - now apply sd_get_put_ne.
Qed.

Lemma resting_at_in_book w r : resting_at w r -> in_book w r.
Proof.
  intros (o & q & Hr & Hg & Hin). exists (own_side o).
  now apply (sd_get_sub _ _ _ Hg).
Qed.

Lemma live_not_done st : live st -> st <> FILLED /\ st <> CANCELLED.
Proof. intros [-> | ->]; split; discriminate. Qed.

(** ** The book's well-formedness, as the specification words it *)

Lemma Inv_well_formed w : Inv w -> book_well_formed w.
Proof.
  intros HInv. split.
  - intros s k q Hin. pose proof (inv_nonempty _ HInv s) as H.
    unfold levels_nonempty in H. rewrite Forall_forall in H. exact (H _ Hin).
  - intros s x Hx. destruct (inv_rests _ HInv _ _ Hx) as (o & ? & ? & ? & _).
    exists o. auto.
Qed.

Ltac valid_ops :=
  repeat (apply Forall_cons; split; [first [reflexivity | exact I]|]);
  apply Forall_nil_2.

(** C7: along every sequence of submissions and cancellations with valid
    inputs, after any number [n] of its calls, no price level of [bids] or
    [asks] is empty, every order held by a level has a positive size, and
    every order is held by the collection of its own side. *)
Theorem C7_book_well_formed (ops : list op) (n : nat) :
  Forall valid_op ops -> book_well_formed (fst (run (take n ops))).
Proof.
  intros Hv. apply (Forall_take _ n) in Hv.
  apply Inv_well_formed. exact (proj1 (run_balanced _ Hv)).
Qed.

Lemma C7_book_well_formed_witness :
  Forall valid_op demo_ops /\ book_well_formed (fst (run demo_ops)).
Proof.
  assert (Forall valid_op demo_ops) as Hv by (unfold demo_ops; valid_ops).
  split; [exact Hv|].
  exact (C7_book_well_formed demo_ops 4 Hv).
Defined.

(** Whether an order is queued under its key can be decided. *)
Lemma classic_resting w r : resting_at w r \/ ~ resting_at w r.
Proof.
  destruct (objects w !! r) as [o|] eqn:Hr.
  2:{ right. intros (o & q & Hr' & _). congruence. }
  destruct (sd_get (_convert_price o) (dict (own_side o) (lob w))) as [q|] eqn:Hg.
  2:{ right. intros (o' & q & Hr' & Hg' & _). congruence. }
  destruct (deque_remove r q) as [q'|] eqn:Hq.
  - left. exists o, q. splits; auto. apply deque_remove_is_Some. eauto.
  - right. intros (o' & q0 & Hr' & Hg' & Hin).
    rewrite Hr in Hr'. injection Hr' as <-. rewrite Hg in Hg'. injection Hg' as <-.
    apply deque_remove_None in Hq. contradiction.
Qed.

(** ** Cancellation: the contract *)

(** C4: [remove_order] succeeds exactly when the order is queued in the
    level of its side and price.  Then it returns [True], takes that one
    occurrence out of the queue (the others keep their order), deletes the
    level when the queue is left empty, and fires CANCELLED.  Otherwise it
    raises [LOBUnknownOrderError] and the world is the one it started from.
    In every book reached by valid submissions and cancellations, an order
    that is FILLED or CANCELLED is unknown, and so is an order that has just
    been cancelled. *)
Theorem C4_remove_order (w : World) (r : ref) (o : Order) :
  objects w !! r = Some o ->
  let s := own_side o in
  let p := _convert_price o in
  ((exists w', remove_order r w = Ok true w') <-> resting_at w r) /\
  (forall q, sd_get p (dict s (lob w)) = Some q -> r ∈ q ->
     exists l1 l2, q = l1 ++ (r :: l2) /\ (r ∉ l1) /\
       remove_order r w = Ok true (after_cancel r o (l1 ++ l2) w) /\
       (sd_sorted (dict s (lob w)) ->
        sd_get p (dict s (lob (after_cancel r o (l1 ++ l2) w)))
        = match l1 ++ l2 with [] => None | _ :: _ => Some (l1 ++ l2) end) /\
       (forall k, ~ k == p ->
          sd_get k (dict s (lob (after_cancel r o (l1 ++ l2) w)))
          = sd_get k (dict s (lob w))) /\
       dict (other s) (lob (after_cancel r o (l1 ++ l2) w)) = dict (other s) (lob w) /\
       objects (after_cancel r o (l1 ++ l2) w)
       = <[r := with_status o CANCELLED]> (objects w) /\
       inbox (after_cancel r o (l1 ++ l2) w) = inbox w ++ notes o r CANCELLED) /\
  (~ resting_at w r -> remove_order r w = Raise LOBUnknownOrderError w) /\
  (forall ops, Forall valid_op ops -> w = fst (run ops) ->
     (status o = FILLED \/ status o = CANCELLED ->
      remove_order r w = Raise LOBUnknownOrderError w) /\
     (forall w', remove_order r w = Ok true w' ->
      remove_order r w' = Raise LOBUnknownOrderError w')).
Proof.
  intros Hr s p.
  assert (forall q, sd_get p (dict s (lob w)) = Some q -> r ∈ q ->
            exists l1 l2, q = l1 ++ (r :: l2) /\ (r ∉ l1) /\
              deque_remove r q = Some (l1 ++ l2) /\
              remove_order r w = Ok true (after_cancel r o (l1 ++ l2) w)) as Hfound.
  { intros q Hg Hin. apply deque_remove_is_Some in Hin as [q' Hq].
    destruct (deque_remove_split _ _ _ Hq) as (l1 & l2 & E & -> & Hn).
    exists l1, l2. splits; auto. now apply (remove_order_found r w o q). }
  assert (~ resting_at w r -> remove_order r w = Raise LOBUnknownOrderError w)
    as Hunknown by (apply (remove_order_unknown r w o); exact Hr).
  splits.
  - split.
    + intros [w' Hok]. destruct (classic_resting w r) as [H | H]; [exact H|].
      rewrite (Hunknown H) in Hok. discriminate.
    + intros (o0 & q & Hr0 & Hg & Hin). rewrite Hr in Hr0. injection Hr0 as <-.
      destruct (Hfound q Hg Hin) as (l1 & l2 & _ & _ & _ & Hok). eauto.
  - intros q Hg Hin. destruct (Hfound q Hg Hin) as (l1 & l2 & E & Hn & _ & Hok).
    exists l1, l2. splits; auto.
    + intros Hs. unfold after_cancel. cbn [lob]. rewrite dict_with_dict.
      now apply replace_level_get.
    + intros k Hk. unfold after_cancel. cbn [lob]. rewrite dict_with_dict.
      now apply replace_level_get_ne.
    + apply dict_with_dict_other.
  - exact Hunknown.
  - intros ops Hv ->. pose proof (proj1 (run_balanced ops Hv)) as HInv. split.
    + intros Hst. apply Hunknown. intros Hrest.
      destruct (resting_at_in_book _ _ Hrest) as [s0 Hx].
      destruct (inv_rests _ HInv _ _ Hx) as (o0 & Hr0 & _ & _ & Hlive).
      rewrite Hr in Hr0. injection Hr0 as <-.
      destruct (live_not_done _ Hlive). tauto.
    + intros w' Hok.
      destruct (classic_resting (fst (run ops)) r) as [Hrest | Hno];
        [|rewrite (Hunknown Hno) in Hok; discriminate].
      destruct Hrest as (o0 & q & Hr0 & Hg & Hin).
      rewrite Hr in Hr0. injection Hr0 as <-.
      destruct (Hfound q Hg Hin) as (l1 & l2 & _ & _ & Hq & Hok').
      rewrite Hok' in Hok. injection Hok as <-.
      destruct (remove_order_ok r _ o q _ HInv Hr Hg Hq) as (_ & Hout & _).
      apply (remove_order_unknown _ _ (with_status o CANCELLED)).
      * apply list_lookup_insert_eq. eauto using lookup_lt_Some.
      * intros Hrest. now apply Hout, resting_at_in_book.
Qed.

(** ** Price-time priority *)

(** What [_is_crossing] compares the price with: every key of the opposite
    side, since [peekitem()] is the entry of the largest key. *)
Lemma crossing_buy o b :
  side o = BUY -> sd_sorted (asks b) ->
  (crossing o b = true <->
   asks b <> [] /\ Forall (fun e => fst e <= price o) (asks b)).
Proof.
  intros Hside Hs. unfold crossing. rewrite Hside.
  destruct (peekitem (asks b)) as [[k v]|] eqn:Hp.
  - rewrite Qle_bool_iff. split.
    + intros Hle. split; [intros E; rewrite E in Hp; discriminate|].
      eapply Forall_impl; [exact (peekitem_max _ _ _ Hs Hp)|].
      simpl; intros; lra.
    + intros [_ Hall]. rewrite Forall_forall in Hall.
      exact (Hall _ (peekitem_in _ _ Hp)).
  - split; [discriminate|]. intros [Hne _].
    unfold peekitem in Hp. apply last_None in Hp. contradiction.
Qed.

Lemma crossing_sell o b :
  side o = SELL -> sd_sorted (bids b) ->
  (crossing o b = true <->
   bids b <> [] /\ Forall (fun e => price o <= - fst e) (bids b)).
Proof.
  intros Hside Hs. unfold crossing. rewrite Hside.
  destruct (peekitem (bids b)) as [[k v]|] eqn:Hp.
  - rewrite Qle_bool_iff. split.
    + intros Hle. split; [intros E; rewrite E in Hp; discriminate|].
      eapply Forall_impl; [exact (peekitem_max _ _ _ Hs Hp)|].
      simpl; intros; lra.
    + intros [_ Hall]. rewrite Forall_forall in Hall.
      exact (Hall _ (peekitem_in _ _ Hp)).
  - split; [discriminate|]. intros [Hne _].
    unfold peekitem in Hp. apply last_None in Hp. contradiction.
Qed.

(** C1 (the code departs from it): with asks resting at 100 and 105 the
    best ask is 100, yet a BUY at 101 is not found crossing, since the price
    is compared with the ask of 105: the order rests at 101, unmatched, above
    the best ask.  So does a BUY at 100, the best ask itself. *)
Theorem C1_buy_above_best_ask_rests :
  let w := fst (run two_asks) in
  let w1 := after (Order_new (Some 101) 1 BUY None None w) w in
  let w' := fst (run (two_asks ++ [Submit (Some 101) 1 BUY None])) in
  let w'' := fst (run (two_asks ++ [Submit (Some 100) 1 BUY None])) in
  peekitem0 (asks (lob w)) = Some (100, [0%nat]) /\
  peekitem (asks (lob w)) = Some (105, [1%nat]) /\
  _is_crossing 2%nat w1 = Ok false w1 /\
  asks (lob w') = asks (lob w) /\
  bids (lob w') = [(- (101), [2%nat])] /\
  objects w' !! 2%nat = Some (mkOrder 101 1 BUY None None POSTED (Some 13%N)) /\
  asks (lob w'') = asks (lob w) /\
  bids (lob w'') = [(- (100), [2%nat])] /\
  objects w'' !! 2%nat = Some (mkOrder 100 1 BUY None None POSTED (Some 13%N)).
Proof. vm_compute. splits; reflexivity. Qed.

(** C2 (the code departs from it): with asks resting at 100 and 105, a BUY
    of size 1 at 110 is matched with the order at 105, the highest ask; the
    order at 100, the best ask, is left as it was. *)
Theorem C2_match_takes_highest_ask :
  let w := fst (run two_asks) in
  let w' := fst (run (two_asks ++ [Submit (Some 110) 1 BUY None])) in
  asks (lob w) = [(100, [0%nat]); (105, [1%nat])] /\
  asks (lob w') = [(100, [0%nat])] /\ bids (lob w') = [] /\
  objects w' !! 0%nat = Some (mkOrder 100 1 SELL None None POSTED (Some 11%N)) /\
  objects w' !! 1%nat = Some (mkOrder 105 0 SELL None None FILLED (Some 12%N)) /\
  objects w' !! 2%nat = Some (mkOrder 110 0 BUY None None FILLED (Some 13%N)).
Proof. vm_compute. splits; reflexivity. Qed.

Lemma submit_queued_last ops p q sz sd ow :
  Forall valid_op ops -> 0 < sz -> 0 < q -> p = Some q ->
  queued_last (length (objects (fst (run ops))))
              (mkOrder q sz sd ow None CREATED None)
              (fst (run ops))
              (fst (step (Submit p sz sd ow) (run ops))).
Proof.
  intros Hv Hsz Hq Hp.
  pose proof (proj1 (run_balanced ops Hv)) as HInv.
  destruct (run ops) as [w l]. simpl fst in *. simpl step.
  pose proof (Order_new_inv p sz sd None ow w) as Hnew.
  destruct (Order_new p sz sd None ow w) as [r w1 | e w1 |];
    [| destruct Hnew as (_ & _ & Hno); exfalso; apply Hno; eauto | contradiction].
  destruct Hnew as (q0 & E & _ & -> & ->).
  rewrite Hp in E. injection E as <-.
  set (o := mkOrder q sz sd ow None CREATED None).
  set (w1 := mkWorld _ _ _). set (r := length (objects w)).
  assert (~ in_book w r) as Hout
    by (intros Hin; apply (in_book_lt _ _ HInv) in Hin; unfold r in Hin; lia).
  assert (objects w1 !! r = Some o) as Hr by apply list_lookup_middle, eq_refl.
  destruct (Inv_outside w w1 r HInv Hout) as (HInv1 & Hout1 & _).
  { intros x Hx. unfold w1. cbn [objects].
    destruct (decide (x < length (objects w))%nat) as [Hlt|Hge].
    - now apply lookup_app_l.
    - rewrite !lookup_ge_None_2; [reflexivity | unfold r in Hx; lia |].
      rewrite length_app. simpl. unfold r in Hx. lia. }
  { reflexivity. }
  destruct (add_order_ok r w1 o HInv1 Hout1 Hr Hsz) as (w2 & Hrun & _ & _ & _ & Hq2).
  rewrite Hrun. simpl after. simpl fst.
  unfold queued_last in *. exact Hq2.
Qed.

(** C6: with a SELL of 0.7 resting at 102 and nothing else, a BUY of 0.5 at
    102 leaves the resting order PARTIALLY_FILLED with 0.2, still queued at
    102, and the incoming order FILLED, with size 0 and nowhere in the
    book, which holds the resting order only. *)
Theorem C6_partial_fill :
  let w := fst (run [Submit (Some 102) 0.7 SELL None]) in
  let w' := fst (run [Submit (Some 102) 0.7 SELL None; Submit (Some 102) 0.5 BUY None]) in
  (asks (lob w) = [(102, [0%nat])] /\ bids (lob w) = []) /\
  (exists o, objects w' !! 0%nat = Some o /\ status o = PARTIALLY_FILLED /\
             size o == 0.2) /\
  sd_get 102 (asks (lob w')) = Some [0%nat] /\
  (exists o, objects w' !! 1%nat = Some o /\ status o = FILLED /\ size o == 0) /\
  (sd_refs (bids (lob w')) = [] /\ sd_refs (asks (lob w')) = [0%nat]).
Proof.
  intros w w'. splits.
  - vm_compute; reflexivity.
  - vm_compute; reflexivity.
  - eexists. splits; [vm_compute; reflexivity | reflexivity | reflexivity].
  - vm_compute; reflexivity.
  - eexists. splits; [vm_compute; reflexivity | reflexivity | reflexivity].
  - vm_compute; reflexivity.
  - vm_compute; reflexivity.
Qed.

(** ** Building an order *)

Lemma price_ok_spec p :
  (price_ok p = true <-> exists q, p = Some q /\ 0 < q) /\
  (price_ok p = false <-> bad_price p).
Proof.
  unfold price_ok, bad_price. destruct p as [q|].
  - destruct (Qeq_bool q 0) eqn:Hz; simpl.
    + apply Qeq_bool_iff in Hz. split; split; try discriminate.
      * intros (q' & [= <-] & H). lra.
      * intros _. right. exists q. split; [reflexivity | lra].
      * reflexivity.
    + destruct (Qcompare_spec q 0) as [H|H|H]; split; split;
        try discriminate; try reflexivity; intros.
      * destruct H0 as (q' & [= <-] & ?). lra.
      * right. exists q. split; [reflexivity | lra].
      * destruct H0 as (q' & [= <-] & ?). lra.
      * right. exists q. split; [reflexivity | lra].
      * eauto.
      * destruct H0 as [? | (q' & [= <-] & ?)]; [discriminate | lra].
  - split; split; try discriminate; try reflexivity.
    + intros (q & ? & _). discriminate.
    + intros _. now left.
Qed.

(** C8: building an [Order], or assigning its price, raises exactly when the
    price is missing or not positive; the world is then the one before, no
    order was added and the book is untouched.  With a positive price the
    order is built, with status CREATED and no identifier. *)
Theorem C8_price_checked (p : option Q) (sz : Q) (sd : OrderSide)
    (vn : option nat) (ow : option Owner) (w : World) :
  ((exists e w', Order_new p sz sd vn ow w = Raise e w') <-> bad_price p) /\
  (bad_price p -> Order_new p sz sd vn ow w = Raise ValueError w) /\
  (forall q, p = Some q -> 0 < q ->
     Order_new p sz sd vn ow w =
     Ok (length (objects w))
        (mkWorld (objects w ++ [mkOrder q sz sd ow vn CREATED None])
                 (lob w) (inbox w))) /\
  (forall r o, objects w !! r = Some o ->
     ((exists e w', set_price r p w = Raise e w') <-> bad_price p) /\
     (bad_price p -> set_price r p w = Raise ValueError w) /\
     (forall q, p = Some q -> 0 < q ->
        set_price r p w =
        Ok tt (mkWorld (<[r := with_price o q]> (objects w)) (lob w) (inbox w)))).
Proof.
  destruct (price_ok_spec p) as [Hok Hbad].
  assert (bad_price p -> Order_new p sz sd vn ow w = Raise ValueError w) as Hraise.
  { intros H. apply Hbad in H. unfold Order_new. rewrite H.
    now destruct p. }
  assert (forall q, p = Some q -> 0 < q ->
     Order_new p sz sd vn ow w =
     Ok (length (objects w))
        (mkWorld (objects w ++ [mkOrder q sz sd ow vn CREATED None])
                 (lob w) (inbox w))) as Hbuild.
  { intros q -> Hq. unfold Order_new.
    replace (price_ok (Some q)) with true; [reflexivity|].
    symmetry. apply Hok. eauto. }
  assert (forall r o, objects w !! r = Some o -> bad_price p ->
            set_price r p w = Raise ValueError w) as Hsraise.
  { intros r o Hr H. apply Hbad in H. unfold set_price. rewrite H.
    now destruct p. }
  assert (forall r o q, objects w !! r = Some o -> p = Some q -> 0 < q ->
            set_price r p w =
            Ok tt (mkWorld (<[r := with_price o q]> (objects w)) (lob w) (inbox w)))
    as Hset.
  { intros r o q Hr -> Hq. unfold set_price.
    replace (price_ok (Some q)) with true by (symmetry; apply Hok; eauto).
    now rewrite (bind_Ok _ _ _ _ _ (read_eq _ _ _ Hr)). }
  splits; auto.
  - split; [|intros H; rewrite (Hraise H); eauto].
    intros (e & w' & H). apply Hbad.
    clear Hok. destruct (price_ok p) eqn:E; [|reflexivity].
    apply (proj1 (price_ok_spec p)) in E as (q & Hp & Hq).
    rewrite (Hbuild q Hp Hq) in H. discriminate.
  - intros r o Hr. splits; eauto.
    split; [|intros H; rewrite (Hsraise r o Hr H); eauto].
    intros (e & w' & H). apply Hbad.
    clear Hok. destruct (price_ok p) eqn:E; [|reflexivity].
    apply (proj1 (price_ok_spec p)) in E as (q & Hp & Hq).
    rewrite (Hset r o q Hr Hp Hq) in H. discriminate.
Qed.

(** ** Notifications *)

Lemma notified_refl w : notified w w.
Proof. split; [reflexivity|]. exists []. split; [now rewrite app_nil_r | constructor]. Qed.

Lemma notified_trans w1 w2 w3 : notified w1 w2 -> notified w2 w3 -> notified w1 w3.
Proof.
  intros [Ho1 (e1 & Hi1 & Hf1)] [Ho2 (e2 & Hi2 & Hf2)]. split.
  - intros y. now rewrite Ho2, Ho1.
  - exists (e1 ++ e2). split; [now rewrite Hi2, Hi1, app_assoc|].
    apply Forall_app. split; [exact Hf1|].
    eapply Forall_impl; [exact Hf2|].
    intros [ow u] (o & Hl & Hown & Ht). simpl in *.
    specialize (Ho1 (update_order u)). rewrite Hl in Ho1. simpl in Ho1.
    destruct (objects w1 !! update_order u) as [o1|] eqn:Hl1; [|discriminate].
    exists o1. cbn in Ho1. simpl. splits; [exact Hl1 | congruence | exact Ht].
Qed.

Create HintDb steps.

Section Steps.
Variable R : World -> World -> Prop.
Hypothesis R_refl : forall w, R w w.
Hypothesis R_trans : forall w1 w2 w3, R w1 w2 -> R w2 w3 -> R w1 w3.

Lemma steps_ret {A} (a : A) : steps R (ret a).
Proof. intros w. apply R_refl. Qed.

Lemma steps_raise {A} e : steps R (raise (A:=A) e).
Proof. intros w. apply R_refl. Qed.

Lemma steps_bind {A B} (m : M A) (k : A -> M B) :
  steps R m -> (forall a, steps R (k a)) -> steps R (bind m k).
Proof.
  intros Hm Hk w. unfold bind. specialize (Hm w).
  destruct (m w) as [a w1 | e w1 |]; auto.
  specialize (Hk a w1). destruct (k a w1); eauto.
Qed.

Lemma steps_read r : steps R (read r).
Proof. intros w. unfold read. destruct (objects w !! r); apply R_refl. Qed.

Lemma steps_get_book : steps R get_book.
Proof. intros w. apply R_refl. Qed.
End Steps.

Lemma notified_book w b : notified w (mkWorld (objects w) b (inbox w)).
Proof. split; [reflexivity|]. exists []. split; [now rewrite app_nil_r | constructor]. Qed.

Lemma notified_write w r o o' :
  objects w !! r = Some o -> owner o' = owner o ->
  notified w (mkWorld (<[r := o']> (objects w)) (lob w) (inbox w)).
Proof.
  intros Hr Ho. split.
  - intros y. cbn [objects]. destruct (decide (r = y)) as [<- | Hne].
    + rewrite list_lookup_insert_eq by eauto using lookup_lt_Some.
      rewrite Hr. simpl. now rewrite Ho.
    + now rewrite list_lookup_insert_ne.
  - exists []. split; [now rewrite app_nil_r | constructor].
Qed.

Lemma steps_put_book b : steps notified (put_book b).
Proof. intros w. apply notified_book. Qed.

Lemma steps_size_sub r m : steps notified (size_sub r m).
Proof.
  intros w. unfold size_sub, bind, read, write.
  destruct (objects w !! r) as [a|] eqn:Hr; [|apply notified_refl].
  destruct (objects w !! m) as [b|]; [|apply notified_refl].
  now apply (notified_write w r a).
Qed.

Lemma steps_size_zero r : steps notified (size_zero r).
Proof.
  intros w. unfold size_zero, bind, read, write.
  destruct (objects w !! r) as [a|] eqn:Hr; [|apply notified_refl].
  now apply (notified_write w r a).
Qed.

Lemma steps_assign_id r i : steps notified (assign_id r i).
Proof.
  intros w. unfold assign_id, bind, read, write.
  destruct (objects w !! r) as [a|] eqn:Hr; [|apply notified_refl].
  now apply (notified_write w r a).
Qed.

Lemma steps_update_status r st : steps notified (update_status r st).
Proof.
  intros w. destruct (objects w !! r) as [o|] eqn:Hr.
  - rewrite (update_status_eq _ _ _ _ Hr).
    apply (notified_trans _ (mkWorld (<[r := with_status o st]> (objects w))
                                     (lob w) (inbox w))).
    + now apply (notified_write w r o).
    + split; [reflexivity|]. eexists. split; [reflexivity|]. cbn [objects].
      unfold notes. destruct (owner o) as [ow|] eqn:Ho; [|constructor].
      destruct (owner_truth ow) eqn:Ht; constructor; [|constructor].
      exists (with_status o st). simpl. splits; auto.
      apply list_lookup_insert_eq. eauto using lookup_lt_Some.
  - unfold update_status, bind, read. rewrite Hr. apply notified_refl.
Qed.

#[local] Hint Resolve notified_refl notified_trans : steps.
#[local] Hint Resolve steps_put_book steps_size_sub steps_size_zero
  steps_assign_id steps_update_status : steps.

Ltac steps_go :=
  repeat first
    [ solve [auto with steps]
    | apply (steps_ret notified notified_refl)
    | apply (steps_raise notified notified_refl)
    | apply (steps_read notified notified_refl)
    | apply (steps_get_book notified notified_refl)
    | apply (steps_bind notified notified_trans); [|intros ?]
    | match goal with
      | |- steps _ (match ?x with _ => _ end) => destruct x
      | |- steps _ (if ?x then _ else _) => destruct x
      | |- steps _ (let (_, _) := ?x in _) => destruct x
      end ].

Lemma steps_get_dict s : steps notified (get_dict s).
Proof. unfold get_dict. steps_go. Qed.

Lemma steps_set_dict s d : steps notified (set_dict s d).
Proof. unfold set_dict. steps_go. Qed.

#[local] Hint Resolve steps_get_dict steps_set_dict : steps.

Lemma steps_popleft s tp q : steps notified (popleft s tp q).
Proof. unfold popleft. steps_go. Qed.

Lemma steps_del_if_empty s tp q : steps notified (del_if_empty s tp q).
Proof. unfold del_if_empty. steps_go. Qed.

#[local] Hint Resolve steps_popleft steps_del_if_empty : steps.

Lemma steps_match_body r s tp q : steps notified (match_body r s tp q).
Proof. unfold match_body. steps_go. Qed.

#[local] Hint Resolve steps_match_body : steps.

Lemma steps_match_loop fuel : forall r s cond tp q,
  steps notified (match_loop fuel r s cond tp q).
Proof.
  induction fuel as [|fuel IH]; intros r s cond tp q; simpl.
  - intros w. exact I.
  - steps_go.
Qed.

#[local] Hint Resolve steps_match_loop : steps.

Lemma steps__match r : steps notified (_match r).
Proof. unfold _match. steps_go. Qed.

Lemma steps__is_crossing r : steps notified (_is_crossing r).
Proof. unfold _is_crossing. steps_go. Qed.

Lemma steps_rest_order r : steps notified (rest_order r).
Proof. unfold rest_order. steps_go. Qed.

Lemma steps_set_last_order r : steps notified (set_last_order r).
Proof. unfold set_last_order. steps_go. Qed.

#[local] Hint Resolve steps__match steps__is_crossing steps_rest_order
  steps_set_last_order : steps.

Lemma steps_add_order r : steps notified (add_order r).
Proof. unfold add_order. steps_go. Qed.

Lemma steps_remove_order r : steps notified (remove_order r).
Proof. unfold remove_order. steps_go. Qed.

Lemma notified_after {A} (m : M A) w : steps notified m -> notified w (after (m w) w).
Proof.
  intros H. specialize (H w). destruct (m w); simpl; auto. apply notified_refl.
Qed.

Lemma notified_silent w w' x o :
  notified w w' -> objects w !! x = Some o -> truthy (owner o) = false ->
  exists extra, inbox w' = inbox w ++ extra /\
                Forall (fun e => update_order (snd e) <> x) extra.
Proof.
  intros [_ (extra & Hi & Hf)] Hx Hfalse. exists extra. split; [exact Hi|].
  eapply Forall_impl; [exact Hf|].
  intros e (o' & Hl & Hown & Ht) E.
  rewrite E, Hx in Hl. injection Hl as <-.
  unfold truthy in Hfalse. rewrite Hown, Ht in Hfalse. discriminate.
Qed.

(** C10: [update_status] on an order whose owner is [None] or falsy sets
    the status and delivers nothing; on an order with a truthy owner it
    delivers exactly one update, to that owner; and whatever [add_order] or
    [remove_order] does, by return or by exception, the inbox only grows,
    and by no update about an order whose owner is [None] or falsy. *)
Theorem C10_no_owner_no_notification :
  (forall r st w o,
     objects w !! r = Some o -> truthy (owner o) = false ->
     update_status r st w =
     Ok tt (mkWorld (<[r := with_status o st]> (objects w)) (lob w) (inbox w))) /\
  (forall r st w o ow,
     objects w !! r = Some o -> owner o = Some ow -> owner_truth ow = true ->
     update_status r st w =
     Ok tt (mkWorld (<[r := with_status o st]> (objects w)) (lob w)
              (inbox w ++ [(ow, mkOrderUpdate r st (status o))]))) /\
  (forall x o w r w',
     objects w !! x = Some o -> truthy (owner o) = false ->
     w' = after (add_order r w) w \/ w' = after (remove_order r w) w ->
     exists extra, inbox w' = inbox w ++ extra /\
                   Forall (fun e => update_order (snd e) <> x) extra).
Proof.
  splits.
  - intros r st w o Hr Hf. rewrite (update_status_eq _ _ _ _ Hr).
    unfold notes, truthy in *. destruct (owner o) as [ow|].
    + rewrite Hf. now rewrite app_nil_r.
    + now rewrite app_nil_r.
  - intros r st w o ow Hr Ho Ht. rewrite (update_status_eq _ _ _ _ Hr).
    unfold notes. now rewrite Ho, Ht.
  - intros x o w r w' Hx Hf [-> | ->].
    + apply (notified_silent w _ x o); auto.
      apply notified_after, steps_add_order.
    + apply (notified_silent w _ x o); auto.
      apply notified_after, steps_remove_order.
Qed.

(** ** Order identifiers *)

Module Ids.
Import DecimalPos.Unsigned.
Local Open Scope N_scope.

Lemma usize_nb_digits d : usize d = N.of_nat (Decimal.nb_digits d).
Proof. induction d; simpl; rewrite ?IHd; lia. Qed.

Lemma rev_app d d' :
  Decimal.rev (Decimal.app d d') = Decimal.revapp d' (Decimal.rev d).
Proof.
  apply DecimalFacts.to_list_inj.
  rewrite DecimalFacts.rev_spec, DecimalFacts.app_spec,
    DecimalFacts.revapp_spec, DecimalFacts.rev_spec.
  now rewrite List.rev_app_distr, List.rev_append_rev.
Qed.

Lemma of_lu_rev_to_uint c : of_lu (Decimal.rev (N.to_uint c)) = c.
Proof. rewrite <- of_uint_alt. apply DecimalN.Unsigned.of_to. Qed.

(** [int(f"{a}{c}")] is [a] shifted by the digits of [c], plus [c]. *)
Lemma fstring_int_eq a c : fstring_int a c = c + a * 10 ^ digits c.
Proof.
  unfold fstring_int, N.of_uint, digits.
  rewrite of_uint_alt, rev_app, of_lu_revapp, !of_lu_rev_to_uint.
  reflexivity.
Qed.

Lemma to_uint_to_lu c : N.to_uint c = Decimal.rev (to_lu c).
Proof. now destruct c. Qed.

Lemma nb_digits_succ d :
  (Decimal.nb_digits d <= Decimal.nb_digits (Decimal.Little.succ d))%nat.
Proof. induction d; simpl; lia. Qed.

Lemma digits_succ c : digits c <= digits (N.succ c).
Proof.
  unfold digits. rewrite !usize_nb_digits, !to_uint_to_lu, !DecimalFacts.nb_digits_rev.
  rewrite to_lu_succ. pose proof (nb_digits_succ (to_lu c)). lia.
Qed.

Lemma digits_mono c c' : c <= c' -> digits c <= digits c'.
Proof.
  induction c' as [|c' IH] using N.peano_ind; intros H.
  - replace c with 0 by lia. lia.
  - destruct (N.eq_dec c (N.succ c')) as [-> | Hne]; [lia|].
    etransitivity; [apply IH; lia | apply digits_succ].
Qed.

(** In one book a later count gives a larger identifier. *)
Lemma fstring_int_increasing a c c' :
  c < c' -> fstring_int a c < fstring_int a c'.
Proof.
  intros H. rewrite !fstring_int_eq.
  assert (10 ^ digits c <= 10 ^ digits c')
    by (apply N.pow_le_mono_r; [lia | apply digits_mono; lia]).
  nia.
Qed.
End Ids.

Lemma issue_above n : forall b i,
  i ∈ issue n b ->
  exists c, (_order_count b < c)%N /\ i = fstring_int (book_id b) c.
Proof.
  induction n as [|n IH]; intros b i Hi; simpl in Hi.
  - apply elem_of_nil in Hi. contradiction.
  - apply elem_of_cons in Hi as [-> | Hi].
    + exists (_order_count b + 1)%N. split; [lia | reflexivity].
    + destruct (IH _ _ Hi) as (c & Hc & ->). simpl in Hc.
      exists c. split; [lia | reflexivity].
Qed.

(** Within one book the identifiers are issued in strictly increasing
    order, whatever the book's number. *)
Lemma issue_increasing n : forall b, Sorted.StronglySorted N.lt (issue n b).
Proof.
  induction n as [|n IH]; intros b; simpl; constructor.
  - apply IH.
  - apply Forall_forall. intros i Hi.
    destruct (issue_above _ _ _ Hi) as (c & Hc & ->). simpl in Hc.
    apply Ids.fstring_int_increasing. lia.
Qed.

(** C9 (the code departs from it): of eleven books built in a row, the
    first one gives its eleventh order the identifier 111, and the eleventh
    one gives its first order the identifier 111 too: the book number and
    the count are written one after the other with nothing between them. *)
Theorem C9_identifier_shared_by_two_books :
  exists b1 b11,
    make_books 11 0 !! 0%nat = Some b1 /\
    make_books 11 0 !! 10%nat = Some b11 /\
    book_id b1 = 1%N /\ book_id b11 = 11%N /\
    order_id <$>
      objects (fst (run_from (world_with b1, mkLedger 0 0 0 0)
                      (replicate 11 (Submit (Some 100) 1 SELL None)))) !! 10%nat
    = Some (Some 111%N) /\
    order_id <$>
      objects (fst (run_from (world_with b11, mkLedger 0 0 0 0)
                      [Submit (Some 100) 1 SELL None])) !! 0%nat
    = Some (Some 111%N) /\
    issue 11 b1 = [11; 12; 13; 14; 15; 16; 17; 18; 19; 110; 111]%N /\
    issue 1 b11 = [111%N].
Proof.
  eexists _, _. splits; try (vm_compute; reflexivity).
Qed.

(** ** Instances of the statements that have hypotheses *)

Lemma C4_remove_order_witness :
  objects (fst (run one_ask)) !! 0%nat
  = Some (mkOrder 100 1 SELL None None POSTED (Some 11%N)) /\
  ((exists w', remove_order 0%nat (fst (run one_ask)) = Ok true w')
   <-> resting_at (fst (run one_ask)) 0%nat).
Proof.
  assert (objects (fst (run one_ask)) !! 0%nat
          = Some (mkOrder 100 1 SELL None None POSTED (Some 11%N))) as H
    by (vm_compute; reflexivity).
  split; [exact H|].
  pose proof (C4_remove_order _ _ _ H) as T. cbv zeta in T. exact (proj1 T).
Defined.

Lemma C8_price_checked_witness :
  bad_price None /\
  Order_new None 1 BUY None None empty_world = Raise ValueError empty_world.
Proof.
  assert (bad_price None) as H by (left; reflexivity).
  split; [exact H|].
  exact (proj1 (proj2 (C8_price_checked None 1 BUY None None empty_world)) H).
Defined.

Lemma C10_no_owner_no_notification_witness :
  truthy (owner unowned) = false /\
  update_status 0%nat POSTED (mkWorld [unowned] empty_book [])
  = Ok tt (mkWorld [with_status unowned POSTED] empty_book []).
Proof.
  split; [reflexivity|].
  exact (proj1 C10_no_owner_no_notification 0%nat POSTED
           (mkWorld [unowned] empty_book []) unowned eq_refl eq_refl).
Defined.

(** ** The fuel of the loop is enough *)

Lemma total_bind {A B} (m : M A) (k : A -> M B) :
  total_op m -> (forall a, total_op (k a)) -> total_op (bind m k).
Proof.
  intros Hm Hk w. unfold bind. specialize (Hm w).
  destruct (m w) as [a w1 | e w1 |]; [apply Hk | discriminate | contradiction].
Qed.

Lemma total_ret {A} (a : A) : total_op (ret a).
Proof. intros w. discriminate. Qed.

Lemma total_raise {A} e : total_op (raise (A:=A) e).
Proof. intros w. discriminate. Qed.

Lemma total_read r : total_op (read r).
Proof. intros w. unfold read. destruct (objects w !! r); discriminate. Qed.

Lemma total_write r o : total_op (write r o).
Proof. intros w. discriminate. Qed.

Lemma total_get_book : total_op get_book.
Proof. intros w. discriminate. Qed.

Lemma total_put_book b : total_op (put_book b).
Proof. intros w. discriminate. Qed.

Lemma total_deliver ow u : total_op (deliver ow u).
Proof. intros w. discriminate. Qed.

Ltac total_go :=
  repeat first
    [ assumption
    | apply total_ret | apply total_raise | apply total_read | apply total_write
    | apply total_get_book | apply total_put_book | apply total_deliver
    | apply total_bind; [|intros ?]
    | match goal with
      | |- total_op (match ?x with _ => _ end) => destruct x
      | |- total_op (if ?x then _ else _) => destruct x
      end ].

Lemma total_update_status r st : total_op (update_status r st).
Proof. unfold update_status. total_go. Qed.

Lemma total_match_body r s tp q : total_op (match_body r s tp q).
Proof.
  unfold match_body, popleft, del_if_empty, size_sub, size_zero, get_dict, set_dict.
  pose proof total_update_status. total_go; apply total_update_status.
Qed.

Lemma total_rest_order r : total_op (rest_order r).
Proof. unfold rest_order, get_dict, set_dict. total_go. Qed.

Lemma total_remove_order r : total_op (remove_order r).
Proof.
  unfold remove_order, del_if_empty, get_dict, set_dict.
  total_go; apply total_update_status.
Qed.

(** A chain of statements that ends in [return] gives nothing else. *)
Lemma bind_gives {A B} (m : M A) (k : A -> M B) (P : B -> Prop) :
  (forall a w b w', k a w = Ok b w' -> P b) ->
  forall w b w', bind m k w = Ok b w' -> P b.
Proof.
  intros Hk w b w'. unfold bind. destruct (m w) as [a w1 | e w1 |]; eauto; discriminate.
Qed.

(** A turn that goes on is one where the resting order was the smaller. *)
Lemma match_body_goes_on r s tp m rest w w' :
  match_body r s tp (m :: rest) w = Ok true w' ->
  exists om or, objects w !! m = Some om /\ objects w !! r = Some or /\
                size om < size or.
Proof.
  intros H. destruct (match_body_reads _ _ _ _ _ _ _ _ H) as (om & or & Hm & Hr).
  exists om, or. splits; auto.
  destruct (Qcompare_spec (size om) (size or)) as [Heq | Hlt | Hgt]; [|exact Hlt|].
  - exfalso. unfold match_body in H.
    rewrite (bind_Ok _ _ _ _ _ (read_eq _ _ _ Hm)) in H.
    rewrite (bind_Ok _ _ _ _ _ (read_eq _ _ _ Hr)) in H.
    replace (size om - size or ?= 0) with Eq in H by (symmetry; apply Qeq_alt; lra).
    match type of H with
    | ?m w = Ok true w' =>
        assert (forall w0 b w1, m w0 = Ok b w1 -> b = false) as Hf
    end.
    { repeat (apply bind_gives; intros ?).
      intros w0 b w1 [= <- _]. reflexivity. }
    specialize (Hf _ _ _ H). discriminate.
  - rewrite (match_body_Gt _ _ _ _ _ _ om or) in H by auto. discriminate.
Qed.

Lemma match_loop_total fuel : forall r s cond tp top w,
  sd_sorted (dict s (lob w)) ->
  peekitem (dict s (lob w)) = Some (tp, top) ->
  (length (sd_refs (dict s (lob w))) < fuel)%nat ->
  match_loop fuel r s cond tp top w <> OutOfFuel.
Proof.
  induction fuel as [|fuel IH]; intros r s cond tp top w Hs Hpeek Hfuel; [lia|].
  simpl match_loop. destruct (cond (Qabs tp)); [|discriminate].
  unfold bind at 1.
  destruct (match_body r s tp top w) as [go w1 | e w1 |] eqn:Hbody;
    [| discriminate | now apply total_match_body in Hbody].
  destruct go; [|discriminate].
  destruct top as [|m rest]; [discriminate|].
  destruct (match_body_goes_on _ _ _ _ _ _ _ Hbody) as (om & or & Hm & Hr & Hlt).
  rewrite (match_body_Lt _ _ _ _ _ _ om or Hm Hr Hlt) in Hbody.
  injection Hbody as <-.
  unfold bind, get_dict, bind, get_book, ret. cbn [lob].
  rewrite dict_with_dict.
  destruct (peekitem (replace_level tp rest (dict s (lob w)))) as [[tp' top']|] eqn:Hp;
    [|discriminate].
  apply IH; cbn [lob]; rewrite ?dict_with_dict.
  - now apply replace_level_sorted.
  - exact Hp.
  - pose proof (replace_level_remove tp (m :: rest) rest m _ Hs
                  (peekitem_get _ _ _ Hs Hpeek) (Permutation_refl _)) as Hperm.
    apply Permutation_length in Hperm. simpl in Hperm. lia.
Qed.

Lemma _match_total r w :
  (forall s, sd_sorted (dict s (lob w))) -> _match r w <> OutOfFuel.
Proof.
  intros Hs. unfold _match, bind at 1, read.
  destruct (objects w !! r) as [o|]; [|discriminate].
  unfold bind, get_dict, bind, get_book, ret. cbn -[match_loop].
  set (s := match side o with BUY => ASKS | SELL => BIDS end).
  destruct (peekitem (dict s (lob w))) as [[tp top]|] eqn:Hp; [|discriminate].
  apply match_loop_total; auto.
Qed.

(** On a book whose dictionaries are sorted, as [SortedDict] keeps them,
    [add_order] returns or raises: the loop of [_match] ends. *)
Lemma add_order_total r w :
  (forall s, sd_sorted (dict s (lob w))) -> add_order r w <> OutOfFuel.
Proof.
  intros Hs. destruct (objects w !! r) as [o|] eqn:Hr.
  - rewrite (add_order_eq _ _ _ Hr). unfold bind at 1.
    assert (forall s, sd_sorted (dict s (lob (posted r o w)))) as Hs'
      by (intros s; unfold posted; cbn [lob]; rewrite dict_new_order_id; apply Hs).
    destruct (crossing _ _).
    + pose proof (_match_total r _ Hs') as Hm.
      destruct (_match r (posted r o w)) as [[] w1 | e w1 |];
        [| discriminate | contradiction].
      apply total_bind; [apply total_rest_order|]. intros _.
      unfold set_last_order. total_go.
    + unfold ret at 1.
      apply total_bind; [apply total_rest_order|]. intros _.
      unfold set_last_order. total_go.
  - unfold add_order, bind, get_book, put_book, assign_id, bind, read. cbn [objects].
    rewrite Hr. discriminate.
Qed.

(** ** What is kept by the operations *)

Section Frame.
Variable R : World -> World -> Prop.
Hypothesis R_refl : forall w, R w w.
Hypothesis R_trans : forall w1 w2 w3, R w1 w2 -> R w2 w3 -> R w1 w3.
Hypothesis R_obj : forall w r o o',
  objects w !! r = Some o -> same_static o o' ->
  R w (mkWorld (<[r := o']> (objects w)) (lob w) (inbox w)).
Hypothesis R_dict : forall w s d,
  R w (mkWorld (objects w) (with_dict s d (lob w)) (inbox w)).
Hypothesis R_inbox : forall w e,
  R w (mkWorld (objects w) (lob w) (inbox w ++ e)).

Lemma fr_set_dict s d : steps R (set_dict s d).
Proof. intros w. apply R_dict. Qed.

Lemma fr_get_dict s : steps R (get_dict s).
Proof. intros w. apply R_refl. Qed.

Lemma fr_size_sub r m : steps R (size_sub r m).
Proof.
  intros w. unfold size_sub, bind, read, write.
  destruct (objects w !! r) as [a|] eqn:Hr; [|apply R_refl].
  destruct (objects w !! m) as [b|]; [|apply R_refl].
  apply (R_obj w r a); [exact Hr | repeat split].
Qed.

Lemma fr_size_zero r : steps R (size_zero r).
Proof.
  intros w. unfold size_zero, bind, read, write.
  destruct (objects w !! r) as [a|] eqn:Hr; [|apply R_refl].
  apply (R_obj w r a); [exact Hr | repeat split].
Qed.

Lemma fr_update_status r st : steps R (update_status r st).
Proof.
  intros w. destruct (objects w !! r) as [o|] eqn:Hr.
  - rewrite (update_status_eq _ _ _ _ Hr).
    apply (R_trans _ (mkWorld (<[r := with_status o st]> (objects w))
                              (lob w) (inbox w))).
    + apply (R_obj w r o); [exact Hr | repeat split].
    + apply (R_inbox (mkWorld _ _ _)).
  - unfold update_status, bind, read. rewrite Hr. apply R_refl.
Qed.

Ltac fr_go :=
  repeat first
    [ assumption
    | apply fr_set_dict | apply fr_get_dict | apply fr_size_sub
    | apply fr_size_zero | apply fr_update_status
    | apply (steps_ret R R_refl)
    | apply (steps_raise R R_refl)
    | apply (steps_read R R_refl)
    | apply (steps_get_book R R_refl)
    | apply (steps_bind R R_trans); [|intros ?]
    | match goal with
      | |- steps _ (match ?x with _ => _ end) => destruct x
      | |- steps _ (if ?x then _ else _) => destruct x
      end ].

Lemma fr_popleft s tp q : steps R (popleft s tp q).
Proof. unfold popleft. fr_go. Qed.

Lemma fr_del_if_empty s tp q : steps R (del_if_empty s tp q).
Proof. unfold del_if_empty. fr_go. Qed.

Lemma fr_match_body r s tp q : steps R (match_body r s tp q).
Proof.
  pose proof fr_popleft. pose proof fr_del_if_empty.
  unfold match_body. fr_go; first [apply fr_popleft | apply fr_del_if_empty].
Qed.

Lemma fr_match_loop fuel : forall r s cond tp q,
  steps R (match_loop fuel r s cond tp q).
Proof.
  induction fuel as [|fuel IH]; intros r s cond tp q; simpl.
  - intros w. exact I.
  - fr_go; first [apply fr_match_body | apply IH].
Qed.

Lemma fr__match r : steps R (_match r).
Proof. unfold _match. fr_go. apply fr_match_loop. Qed.

Lemma fr__is_crossing r : steps R (_is_crossing r).
Proof. unfold _is_crossing. fr_go. Qed.

Lemma fr_rest_order r : steps R (rest_order r).
Proof. unfold rest_order. fr_go. Qed.

Lemma fr_remove_order r : steps R (remove_order r).
Proof. unfold remove_order. fr_go; apply fr_del_if_empty. Qed.

(** [add_order] from its crossing test to the insertion of what is left. *)
Lemma fr_match_and_rest r (c : bool) :
  steps R ((if c then _match r else ret tt) ;;; rest_order r).
Proof.
  apply (steps_bind R R_trans); [|intros ?; apply fr_rest_order].
  destruct c; [apply fr__match | apply (steps_ret R R_refl)].
Qed.
End Frame.

Lemma kept_refl w : kept w w.
Proof.
  unfold kept. splits; auto. intros y o Hy. exists o. split; [exact Hy|].
  repeat split.
Qed.

Lemma kept_trans w1 w2 w3 : kept w1 w2 -> kept w2 w3 -> kept w1 w3.
Proof.
  intros (L1 & O1 & A1 & B1 & C1 & D1) (L2 & O2 & A2 & B2 & C2 & D2).
  unfold kept. splits; try congruence.
  intros y o Hy. destruct (O1 y o Hy) as (o1 & Hy1 & S1).
  destruct (O2 y o1 Hy1) as (o2 & Hy2 & S2). exists o2. split; [exact Hy2|].
  unfold same_static in *. intuition congruence.
Qed.

Lemma kept_obj w r o o' :
  objects w !! r = Some o -> same_static o o' ->
  kept w (mkWorld (<[r := o']> (objects w)) (lob w) (inbox w)).
Proof.
  intros Hr Hs. unfold kept. cbn [objects lob]. splits; auto.
  - apply length_insert.
  - intros y oy Hy. destruct (decide (r = y)) as [<- | Hne].
    + exists o'. rewrite list_lookup_insert_eq by eauto using lookup_lt_Some.
      split; [reflexivity|]. congruence.
    + exists oy. rewrite list_lookup_insert_ne by exact Hne.
      split; [exact Hy | repeat split].
Qed.

Lemma kept_dict w s d :
  kept w (mkWorld (objects w) (with_dict s d (lob w)) (inbox w)).
Proof.
  unfold kept. cbn [objects lob]. splits; try (now destruct s).
  intros y o Hy. exists o. split; [exact Hy | repeat split].
Qed.

Lemma kept_inbox w e : kept w (mkWorld (objects w) (lob w) (inbox w ++ e)).
Proof.
  unfold kept. cbn [objects lob]. splits; auto.
  intros y o Hy. exists o. split; [exact Hy | repeat split].
Qed.

(** Matching, resting and cancelling keep the orders' prices, sides, owners
    and identifiers, and the book's name, number, count and last order. *)
Lemma kept_match_and_rest r c :
  steps kept ((if c : bool then _match r else ret tt) ;;; rest_order r).
Proof.
  apply (fr_match_and_rest kept kept_refl kept_trans kept_obj kept_dict kept_inbox).
Qed.

Lemma kept_remove_order r : steps kept (remove_order r).
Proof.
  apply (fr_remove_order kept kept_refl kept_trans kept_obj kept_dict kept_inbox).
Qed.

Lemma kept_lookup w w' y o' :
  kept w w' -> objects w' !! y = Some o' ->
  exists o, objects w !! y = Some o /\ same_static o o'.
Proof.
  intros (L & O & _) Hy.
  destruct (objects w !! y) as [o|] eqn:E.
  - destruct (O y o E) as (o2 & Hy2 & S). rewrite Hy in Hy2. injection Hy2 as <-.
    eauto.
  - apply lookup_ge_None in E. apply lookup_lt_Some in Hy. lia.
Qed.

(** How [add_order] ends when it returns. *)
Lemma add_order_ends r w o b w' :
  objects w !! r = Some o -> add_order r w = Ok b w' ->
  b = true /\
  exists w3,
    ((if crossing (with_status (with_order_id o (fst (_new_order_id (lob w)))) POSTED)
           (snd (_new_order_id (lob w)))
      then _match r else ret tt) ;;; rest_order r) (posted r o w) = Ok tt w3 /\
    w' = last_set r w3.
Proof.
  intros Hr H. rewrite (add_order_eq _ _ _ Hr) in H.
  set (X := if crossing _ _ then _match r else ret tt) in *.
  unfold bind at 1 in H.
  destruct (X (posted r o w)) as [[] w2 | e w2 |] eqn:HX; try discriminate.
  unfold bind at 1 in H.
  destruct (rest_order r w2) as [[] w3 | e w3 |] eqn:Hrest; try discriminate.
  unfold bind, set_last_order, bind, get_book, put_book, ret in H.
  injection H as <- <-. split; [reflexivity|].
  exists w3. split; [|reflexivity].
  unfold bind. now rewrite HX.
Qed.

(** ** Invariants of a run *)

(** What a valid [Submit] does on a balanced state: the constructor raises
    and nothing changes, or a new order is built at the end of the store and
    [add_order] returns [True]. *)
Lemma submit_stages w l p sz sd ow :
  balanced (w, l) -> 0 < sz ->
  (bad_price p /\ fst (step (Submit p sz sd ow) (w, l)) = w) \/
  (exists q w2,
     p = Some q /\ 0 < q /\
     Inv (mkWorld (objects w ++ [mkOrder q sz sd ow None CREATED None])
                  (lob w) (inbox w)) /\
     ~ in_book (mkWorld (objects w ++ [mkOrder q sz sd ow None CREATED None])
                        (lob w) (inbox w)) (length (objects w)) /\
     add_order (length (objects w))
       (mkWorld (objects w ++ [mkOrder q sz sd ow None CREATED None])
                (lob w) (inbox w)) = Ok true w2 /\
     fst (step (Submit p sz sd ow) (w, l)) = w2).
Proof.
  intros (HInv & _) Hsz. simpl in HInv. simpl step.
  pose proof (Order_new_inv p sz sd None ow w) as Hnew.
  destruct (Order_new p sz sd None ow w) as [r w1 | e w1 |]; [| |contradiction].
  - right. destruct Hnew as (q & -> & Hq & -> & ->).
    set (o := mkOrder q sz sd ow None CREATED None).
    set (w1 := mkWorld _ _ _). set (r := length (objects w)).
    assert (~ in_book w r) as Hout
      by (intros Hin; apply (in_book_lt _ _ HInv) in Hin; unfold r in Hin; lia).
    assert (objects w1 !! r = Some o) as Hr by apply list_lookup_middle, eq_refl.
    destruct (Inv_outside w w1 r HInv Hout) as (HInv1 & Hout1 & _).
    { intros x Hx. unfold w1. cbn [objects].
      destruct (decide (x < length (objects w))%nat) as [Hlt|Hge].
      - now apply lookup_app_l.
      - rewrite !lookup_ge_None_2; [reflexivity | unfold r in Hx; lia |].
        rewrite length_app. simpl. unfold r in Hx. lia. }
    { reflexivity. }
    destruct (add_order_ok r w1 o HInv1 Hout1 Hr Hsz) as (w2 & Hrun & _).
    exists q, w2. rewrite Hrun. splits; auto.
  - left. destruct Hnew as (_ & -> & Hno). split; [|reflexivity].
    apply price_ok_spec. destruct (price_ok p) eqn:E; [|reflexivity].
    exfalso. apply Hno. now apply price_ok_spec.
Qed.

(** A property of the world kept by every valid call is a property of every
    run. *)
Lemma run_preserves (P : World -> Prop) :
  P empty_world ->
  (forall x st, valid_op x -> balanced st -> P (fst st) -> P (fst (step x st))) ->
  forall ops, Forall valid_op ops -> P (fst (run ops)).
Proof.
  intros H0 Hstep ops Hv.
  assert (forall st, Forall valid_op ops -> balanced st -> P (fst st) ->
                     balanced (run_from st ops) /\ P (fst (run_from st ops))) as H.
  { clear Hv. induction ops as [|x ops IH]; intros st Hv Hb HP; [now split|].
    inversion Hv as [|? ? Hx Hops]; subst. simpl.
    apply IH; [exact Hops | now apply step_balanced | now apply Hstep]. }
  apply H; [exact Hv | apply balanced_empty | exact H0].
Qed.

Lemma numbered_kept w w' : kept w w' -> numbered w -> numbered w'.
Proof.
  intros Hk (Hc & Hi & Hl). pose proof Hk as (L & O & _ & B & C & D).
  unfold numbered. rewrite L, B, C, D. splits; auto.
  intros i o' Hy. destruct (kept_lookup _ _ _ _ Hk Hy) as (o & Ho & S).
  destruct S as (_ & _ & _ & _ & ->). now apply Hi.
Qed.

Lemma numbered_posted w q sz sd ow :
  numbered w ->
  numbered (last_set (length (objects w))
    (posted (length (objects w)) (mkOrder q sz sd ow None CREATED None)
       (mkWorld (objects w ++ [mkOrder q sz sd ow None CREATED None])
                (lob w) (inbox w)))).
Proof.
  intros (Hc & Hi & _). unfold numbered, last_set, posted.
  cbn [objects lob _new_order_id snd fst _order_count book_id last_order].
  rewrite length_insert, length_app. simpl length.
  replace (length (objects w) + 1)%nat with (S (length (objects w))) by lia.
  splits; [rewrite Hc; lia | | reflexivity].
  intros i oi Hy. destruct (decide (i = length (objects w))) as [-> | Hne].
  - rewrite list_lookup_insert_eq in Hy by (rewrite length_app; simpl; lia).
    injection Hy as <-. simpl. rewrite Hc. do 2 f_equal. lia.
  - rewrite list_lookup_insert_ne in Hy by congruence.
    apply lookup_app_Some in Hy as [Hy | [Hge Hy]]; [now apply Hi|].
    destruct (i - length (objects w))%nat eqn:E; [lia|]. discriminate.
Qed.

(** [last_set] commutes with what is kept. *)
Lemma kept_last_set r w w' : kept w w' -> kept (last_set r w) (last_set r w').
Proof.
  intros (L & O & N & B & C & D). unfold kept, last_set. cbn. splits; auto.
Qed.

Lemma numbered_step x st :
  valid_op x -> balanced st -> numbered (fst st) -> numbered (fst (step x st)).
Proof.
  destruct st as [w l]. intros Hv Hb Hn. simpl fst in Hn.
  destruct x as [p sz sd ow | r].
  - destruct (submit_stages w l p sz sd ow Hb Hv)
      as [(_ & ->) | (q & w2 & -> & Hq & HInv1 & Hout1 & Hadd & ->)]; [exact Hn|].
    set (o := mkOrder q sz sd ow None CREATED None) in *.
    set (w1 := mkWorld _ _ _) in *. set (r := length (objects w)) in *.
    assert (objects w1 !! r = Some o) as Hr by apply list_lookup_middle, eq_refl.
    destruct (add_order_ends r w1 o true w2 Hr Hadd) as (_ & w3 & H3 & ->).
    set (c := crossing _ _) in H3.
    pose proof (kept_match_and_rest r c (posted r o w1)) as Hk.
    rewrite H3 in Hk.
    apply (numbered_kept (last_set r (posted r o w1))).
    + now apply kept_last_set.
    + apply numbered_posted, Hn.
  - simpl step. pose proof (kept_remove_order r w) as Hk.
    destruct (remove_order r w) as [b w' | e w' |]; simpl fst;
      [| | exact Hn]; now apply (numbered_kept w).
Qed.

Lemma numbered_empty : numbered empty_world.
Proof. unfold numbered. simpl. splits; [reflexivity | | reflexivity]. intros i o H. discriminate. Qed.

Lemma run_numbered ops : Forall valid_op ops -> numbered (fst (run ops)).
Proof. apply run_preserves; [apply numbered_empty | apply numbered_step]. Qed.

(** ** The numbering of orders and books *)

(** X1: after any valid calls on a new book, [_order_count] is the number of
    orders [add_order] was given, the order given [i]-th (from 0) bears the
    identifier written from the book's number and [i + 1], and [last_order]
    is the last order given, whatever became of it. *)
Theorem X1_orders_numbered_in_arrival_order (ops : list op) :
  Forall valid_op ops ->
  _order_count (lob (fst (run ops))) = N.of_nat (length (objects (fst (run ops)))) /\
  (forall i o, objects (fst (run ops)) !! i = Some o ->
     order_id o = Some (fstring_int (book_id (lob (fst (run ops)))) (N.of_nat (S i)))) /\
  last_order (lob (fst (run ops))) = match length (objects (fst (run ops))) with
                                     | O => None
                                     | S n => Some n
                                     end.
Proof. apply run_numbered. Qed.

(** X2: within one book, an order submitted later has a strictly larger
    identifier: no two orders of a book share one. *)
Theorem X2_identifiers_increase_within_a_book (ops : list op) (i j : nat)
    (oi oj : Order) :
  Forall valid_op ops -> (i < j)%nat ->
  objects (fst (run ops)) !! i = Some oi ->
  objects (fst (run ops)) !! j = Some oj ->
  exists a b, order_id oi = Some a /\ order_id oj = Some b /\ (a < b)%N.
Proof.
  intros Hv Hij Hi Hj. destruct (run_numbered ops Hv) as (_ & Hid & _).
  eexists _, _. splits; [exact (Hid _ _ Hi) | exact (Hid _ _ Hj) |].
  apply Ids.fstring_int_increasing. lia.
Qed.

(** X3: the identifier [_new_order_id] returns is the new count with the
    book's number written in front of it: the number shifted by as many
    decimal digits as the new count has, plus the count; the count grows by
    one and nothing else of the book changes. *)
Theorem X3_new_order_id_value (b : LimitOrderBook) :
  fst (_new_order_id b)
  = ((_order_count b + 1) + book_id b * 10 ^ digits (_order_count b + 1))%N /\
  _order_count (snd (_new_order_id b)) = (_order_count b + 1)%N /\
  book_id (snd (_new_order_id b)) = book_id b /\
  bids (snd (_new_order_id b)) = bids b /\
  asks (snd (_new_order_id b)) = asks b /\
  last_order (snd (_new_order_id b)) = last_order b.
Proof. splits; try reflexivity. apply Ids.fstring_int_eq. Qed.

Lemma make_books_ids n : forall k,
  book_id <$> make_books n k = (fun i => (k + 1 + N.of_nat i)%N) <$> seq 0 n.
Proof.
  induction n as [|n IH]; intros k; [reflexivity|].
  cbn [make_books LimitOrderBook_init fst snd fmap list_fmap seq book_id].
  f_equal; [lia|].
  change (book_id <$> make_books n (k + 1)%N
          = (fun i => (k + 1 + N.of_nat i)%N) <$> seq 1 n).
  rewrite IH, <- fmap_S_seq, <- list_fmap_compose.
  apply list_fmap_ext. intros _ i _. simpl. lia.
Qed.

(** X4: books built one after another get consecutive numbers, starting one
    above the class counter, so no two of them share a number; each starts
    with no order and a count of zero. *)
Theorem X4_books_numbered_consecutively (n : nat) (k : N) :
  book_id <$> make_books n k = (fun i => (k + 1 + N.of_nat i)%N) <$> seq 0 n /\
  NoDup (book_id <$> make_books n k) /\
  Forall (fun b => bids b = [] /\ asks b = [] /\ last_order b = None /\
                   _order_count b = 0%N) (make_books n k).
Proof.
  splits.
  - apply make_books_ids.
  - rewrite make_books_ids. apply NoDup_fmap_2; [|apply NoDup_seq].
    intros i j H. lia.
  - revert k. induction n as [|n IH]; intros k; constructor; [now splits | apply IH].
Qed.

(** ** What every turn of the matching loop keeps *)

Lemma kept_match_body r s tp q w go w' :
  match_body r s tp q w = Ok go w' -> kept w w'.
Proof.
  intros H.
  pose proof (fr_match_body kept kept_refl kept_trans kept_obj kept_dict kept_inbox
                r s tp q w) as K.
  now rewrite H in K.
Qed.

Section Loop.
Variables (r : ref) (s : book_side) (cond : Q -> bool) (P : World -> Prop).
Hypothesis P_turn : forall w tp m rest or go w',
  at_turn r s tp m rest or w -> cond (Qabs tp) = true ->
  turn r m s tp rest w go w' -> kept w w' -> Inv w' ->
  P w -> P w'.

Lemma match_loop_keeps fuel : forall tp top w or w',
  Inv w -> ~ in_book w r -> objects w !! r = Some or -> unfilled or ->
  peekitem (dict s (lob w)) = Some (tp, top) ->
  match_loop fuel r s cond tp top w = Ok tt w' -> P w -> P w'.
Proof.
  induction fuel as [|fuel IH]; intros tp top w or w' HInv Hout Hr Hun Hpeek Hrun HP;
    [discriminate|].
  simpl match_loop in Hrun. destruct (cond (Qabs tp)) eqn:Hc.
  2:{ injection Hrun as <-. exact HP. }
  destruct top as [|m rest].
  { pose proof (inv_nonempty _ HInv s) as Hne.
    apply peekitem_in in Hpeek.
    unfold levels_nonempty in Hne. rewrite Forall_forall in Hne.
    now specialize (Hne _ Hpeek). }
  destruct (match_body_ok r s tp m rest w or HInv Hout Hr Hun Hpeek)
    as (go & w1 & Hbody & HInv1 & Hout1 & Hlen1 & Heff1 & Hfr1 & Hgo).
  rewrite (bind_Ok _ _ _ _ _ Hbody) in Hrun.
  assert (r <> m) as Hne.
  { intros ->. apply Hout. exists s.
    apply (sd_refs_elem _ tp (m :: rest)); [now apply peekitem_in | constructor]. }
  assert (P w1) as HP1.
  { apply (P_turn w tp m rest or go w1); auto.
    - now constructor.
    - now apply match_body_turn.
    - now apply (kept_match_body r s tp (m :: rest) w go). }
  destruct go.
  - destruct Hgo as [(o0 & or1 & E0 & Hr1 & Hp & Hs & Hun1) Hless].
    unfold bind, get_dict, get_book, ret in Hrun. simpl in Hrun.
    destruct (peekitem (dict s (lob w1))) as [[tp' top']|] eqn:Hpeek1.
    + exact (IH tp' top' w1 or1 w' HInv1 Hout1 Hr1 Hun1 Hpeek1 Hrun HP1).
    + injection Hrun as <-. exact HP1.
  - injection Hrun as <-. exact HP1.
Qed.
End Loop.

(** The same for [_match], and for the part of [add_order] that calls it. *)
Lemma _match_keeps (P : World -> Prop) r w o w' :
  (forall w tp m rest or go w',
     at_turn r (other (own_side o)) tp m rest or w -> limit o (Qabs tp) = true ->
     turn r m (other (own_side o)) tp rest w go w' -> kept w w' -> Inv w' ->
     P w -> P w') ->
  Inv w -> ~ in_book w r -> objects w !! r = Some o -> unfilled o ->
  _match r w = Ok tt w' -> P w -> P w'.
Proof.
  intros HP HInv Hout Hr Hun Hrun. unfold _match in Hrun.
  rewrite (bind_Ok _ _ _ _ _ (read_eq _ _ _ Hr)) in Hrun.
  unfold bind at 1, get_dict, bind, get_book, ret in Hrun. cbn -[match_loop] in Hrun.
  replace (match side o with BUY => ASKS | SELL => BIDS end)
    with (other (own_side o)) in Hrun by (unfold own_side; now destruct (side o)).
  set (s := other (own_side o)) in *.
  destruct (peekitem (dict s (lob w))) as [[tp top]|] eqn:Hpeek.
  - intros HPw. revert Hrun HPw.
    apply (match_loop_keeps r s _ P) with (or := o); auto.
    intros w0 tp0 m rest or go w0' Hat Hc. apply (HP w0 tp0 m rest or go w0' Hat).
    unfold limit. now destruct (side o).
  - now injection Hrun as <-.
Qed.

Lemma rest_order_eq r w o :
  objects w !! r = Some o -> rest_order r w = Ok tt (rested r o w).
Proof.
  intros Hr. unfold rest_order, rested.
  rewrite (bind_Ok _ _ _ _ _ (read_eq _ _ _ Hr)).
  destruct (Qeq_bool (size o) 0); simpl negb; cbv iota; [reflexivity|].
  unfold bind, get_dict, bind, get_book, ret, set_dict, bind, get_book, put_book.
  cbn [lob objects inbox negb]. cbv beta iota. now rewrite level_or_new.
Qed.

Lemma kept__match r w w' : _match r w = Ok tt w' -> kept w w'.
Proof.
  intros H.
  pose proof (fr__match kept kept_refl kept_trans kept_obj kept_dict kept_inbox r w) as K.
  now rewrite H in K.
Qed.

(** [add_order] on a well-formed book, for an order [r] that is not in it:
    the order is posted, matched if it crosses, what is left is queued; [P]
    is anything the turns of the loop keep. *)
Lemma add_order_trace (P : World -> Prop) r w o :
  Inv w -> ~ in_book w r -> objects w !! r = Some o -> 0 < size o ->
  (forall w tp m rest or go w',
     at_turn r (other (own_side o)) tp m rest or w -> limit o (Qabs tp) = true ->
     turn r m (other (own_side o)) tp rest w go w' -> kept w w' -> Inv w' ->
     P w -> P w') ->
  P (posted r o w) ->
  exists w2 o2,
    (if crossing (with_status (with_order_id o (fst (_new_order_id (lob w)))) POSTED)
          (snd (_new_order_id (lob w)))
     then _match r else ret tt) (posted r o w) = Ok tt w2 /\
    Inv w2 /\ ~ in_book w2 r /\ objects w2 !! r = Some o2 /\
    (unfilled o2 \/ size o2 = 0) /\
    kept (posted r o w) w2 /\ P w2 /\
    dict (own_side o) (lob w2) = dict (own_side o) (lob w) /\
    add_order r w = Ok true (last_set r (rested r o2 w2)).
Proof.
  intros HInv Hout Hr Hpos HP HP1. rewrite (add_order_eq _ _ _ Hr).
  set (o1 := with_status (with_order_id o (fst (_new_order_id (lob w)))) POSTED).
  set (w1 := posted r o w) in *.
  assert (objects w1 !! r = Some o1) as Hr1
    by (apply list_lookup_insert_eq; eauto using lookup_lt_Some).
  destruct (Inv_outside w w1 r HInv Hout) as (HInv1 & Hout1 & Hrest1).
  { intros x Hx. apply list_lookup_insert_ne. congruence. }
  { intros s. apply dict_new_order_id. }
  assert (unfilled o1) as Hun1 by (split; [exact Hpos | now left]).
  assert (exists w2, (if crossing o1 (snd (_new_order_id (lob w)))
                      then _match r else ret tt) w1 = Ok tt w2 /\
                     matched r (other (own_side o)) w1 w2 /\ kept w1 w2 /\ P w2)
    as (w2 & Hrun2 & (HInv2 & Hout2 & Hlen2 & _ & Hfr2 & Hsame2) & Hk2 & HP2).
  { destruct (crossing o1 _).
    - destruct (_match_ok r w1 o1 HInv1 Hout1 Hr1 Hun1) as (w2 & Hrun & Hm).
      exists w2. splits; auto; try apply Hm.
      + now apply (kept__match r).
      + apply (_match_keeps P r w1 o1 w2); auto.
    - exists w1. splits; auto; try apply (matched_refl _ _ _ o1); auto.
      apply kept_refl. }
  rewrite (bind_Ok _ _ _ _ _ Hrun2).
  destruct Hsame2 as (o1' & o2 & E1 & Hr2 & Hprice2 & Hside2 & Hcase).
  rewrite (bind_Ok _ _ _ _ _ (rest_order_eq _ _ _ Hr2)).
  exists w2, o2. splits; auto.
  replace (own_side o) with (other (other (own_side o)))
    by now destruct (own_side o).
  rewrite Hfr2. apply dict_new_order_id.
Qed.

Lemma add_order_stages (P : World -> Prop) r w o :
  Inv w -> ~ in_book w r -> objects w !! r = Some o -> 0 < size o ->
  (forall w tp m rest or go w',
     at_turn r (other (own_side o)) tp m rest or w -> limit o (Qabs tp) = true ->
     turn r m (other (own_side o)) tp rest w go w' -> kept w w' -> Inv w' ->
     P w -> P w') ->
  P (posted r o w) ->
  exists w2 o2,
    Inv w2 /\ ~ in_book w2 r /\ objects w2 !! r = Some o2 /\
    (unfilled o2 \/ size o2 = 0) /\
    kept (posted r o w) w2 /\ P w2 /\
    dict (own_side o) (lob w2) = dict (own_side o) (lob w) /\
    add_order r w = Ok true (last_set r (rested r o2 w2)).
Proof.
  intros HInv Hout Hr Hpos HP HP1.
  destruct (add_order_trace P r w o HInv Hout Hr Hpos HP HP1) as (w2 & o2 & _ & H).
  now exists w2, o2.
Qed.

(** ** The life of an order *)

Lemma sd_get_proper k k' d : k == k' -> sd_get k d = sd_get k' d.
Proof.
  intros H. induction d as [|[k0 v] d IH]; simpl; [reflexivity|].
  rewrite IH. replace (Qeq_bool k' k0) with (Qeq_bool k k0); [reflexivity|].
  destruct (Qeq_bool k k0) eqn:E; symmetry.
  - apply Qeq_bool_iff in E. apply Qeq_bool_iff. lra.
  - apply Qeq_bool_false in E. apply Qeq_bool_false. lra.
Qed.

Lemma sd_get_key k d q : sd_get k d = Some q -> exists k', (k', q) ∈ d /\ k == k'.
Proof.
  induction d as [|[k0 v] d IH]; simpl; [discriminate|].
  destruct (Qeq_bool k k0) eqn:E.
  - intros [= ->]. exists k0. split; [constructor | now apply Qeq_bool_iff].
  - intros H. destruct (IH H) as (k' & Hin & Hk). exists k'. split; [now constructor | exact Hk].
Qed.

Lemma sd_refs_level d x :
  sd_sorted d -> x ∈ sd_refs d -> exists k q, sd_get k d = Some q /\ x ∈ q.
Proof.
  induction d as [|[k0 v] d IH]; simpl.
  - intros _ H. apply elem_of_nil in H. contradiction.
  - intros [Hk Hd] H. unfold sd_refs in H. simpl in H. fold (sd_refs d) in H.
    apply elem_of_app in H as [H | H].
    + exists k0, v. now rewrite Qeq_bool_refl.
    + destruct (IH Hd H) as (k & q & Hg & Hx). exists k, q. split; [|exact Hx].
      destruct (sd_get_key _ _ _ Hg) as (k' & Hin & Hkk).
      rewrite Forall_forall in Hk. specialize (Hk _ Hin). simpl in Hk.
      replace (Qeq_bool k k0) with false; [exact Hg|].
      symmetry. apply Qeq_bool_false. lra.
Qed.

Lemma replace_level_sub p q0 q d k q' :
  sd_sorted d -> sd_get p d = Some q0 -> q ⊆ q0 ->
  sd_get k (replace_level p q d) = Some q' ->
  exists q1, sd_get k d = Some q1 /\ q' ⊆ q1.
Proof.
  intros Hs Hg Hsub H. destruct (Qeq_dec k p) as [E | E].
  - rewrite (sd_get_proper _ _ _ E), replace_level_get in H by exact Hs.
    exists q0. rewrite (sd_get_proper _ _ _ E). split; [exact Hg|].
    destruct q; [discriminate|]. now injection H as <-.
  - rewrite replace_level_get_ne in H by exact E. exists q'. split; [exact H | reflexivity].
Qed.

Lemma sublevels_refl w : sublevels w w.
Proof. intros s k q H. exists q. split; [exact H | reflexivity]. Qed.

Lemma keyed_sub w w' : kept w w' -> sublevels w w' -> keyed w -> keyed w'.
Proof.
  intros (_ & HO & _) Hsub Hk s k q x Hg Hx.
  destruct (Hsub s k q Hg) as (q0 & Hg0 & Hq).
  destruct (Hk s k q0 x Hg0 (Hq _ Hx)) as (o & Ho & Hp).
  destruct (HO _ _ Ho) as (o' & Ho' & Hp' & Hs' & _).
  exists o'. split; [exact Ho'|]. unfold _convert_price in *. now rewrite Hp', Hs'.
Qed.

Lemma priced_kept w w' : kept w w' -> priced w -> priced w'.
Proof.
  intros Hk Hp x o' Hx. destruct (kept_lookup _ _ _ _ Hk Hx) as (o & Ho & Hpr & _).
  rewrite Hpr. exact (Hp _ _ Ho).
Qed.

(** The two orders of a turn, before and after it. *)
Lemma turn_orders r m s tp rest w go w' :
  r <> m -> turn r m s tp rest w go w' ->
  exists om or om' or',
    objects w !! m = Some om /\ objects w !! r = Some or /\
    objects w' !! m = Some om' /\ objects w' !! r = Some or' /\
    ((go = true /\ size om < size or /\
      status om' = FILLED /\ size om' = 0 /\
      status or' = PARTIALLY_FILLED /\ size or' = size or - size om /\
      dict s (lob w') = replace_level tp rest (dict s (lob w)) /\
      inbox w' = inbox w ++ notes or r PARTIALLY_FILLED ++ notes om m FILLED) \/
     (go = false /\ size or < size om /\
      status om' = PARTIALLY_FILLED /\ size om' = size om - size or /\
      status or' = FILLED /\ size or' = 0 /\
      dict s (lob w') = dict s (lob w) /\
      inbox w' = inbox w ++ notes om m PARTIALLY_FILLED ++ notes or r FILLED) \/
     (go = false /\ size om == size or /\
      status om' = FILLED /\ size om' = 0 /\
      status or' = FILLED /\ size or' = 0 /\
      dict s (lob w') = replace_level tp rest (dict s (lob w)) /\
      inbox w' = inbox w ++ notes om m FILLED ++ notes or r FILLED)).
Proof.
  intros Hne H. assert (m <> r) as Hne' by congruence.
  destruct H as [om or Hm Hr Hc | om or Hm Hr Hc | om or Hm Hr Hc];
    cbn [objects lob inbox].
  - destruct (two_inserts (objects w) m r om or
                (with_status (with_size om 0) FILLED)
                (with_status (with_size or (size or - size om)) PARTIALLY_FILLED)
                Hne' Hm Hr) as (Lm & Lr & _).
    eexists om, or, _, _. splits; eauto. left. splits; auto. apply dict_with_dict.
  - destruct (two_inserts (objects w) r m or om
                (with_status (with_size or 0) FILLED)
                (with_status (with_size om (size om - size or)) PARTIALLY_FILLED)
                Hne Hr Hm) as (Lr & Lm & _).
    eexists om, or, _, _. splits; eauto. right; left. splits; auto.
  - destruct (two_inserts (objects w) r m or om
                (with_status (with_size or 0) FILLED)
                (with_status (with_size om 0) FILLED)
                Hne Hr Hm) as (Lr & Lm & _).
    eexists om, or, _, _. splits; eauto. right; right. splits; auto.
    apply dict_with_dict.
Qed.

Section Turn.
Variables (r m : ref) (s : book_side) (tp : Q) (rest : deque) (or : Order)
  (w w' : World) (go : bool).
Hypothesis Hat : at_turn r s tp m rest or w.
Hypothesis Hturn : turn r m s tp rest w go w'.
Hypothesis HInv' : Inv w'.

Lemma turn_level : sd_get tp (dict s (lob w)) = Some (m :: rest).
Proof. apply peekitem_get; [apply inv_sorted | ]; apply Hat. Qed.

Lemma turn_head_in : m ∈ sd_refs (dict s (lob w)).
Proof. apply (sd_get_sub _ _ _ turn_level). constructor. Qed.

Lemma turn_ne : r <> m.
Proof.
  intros E. apply (turn_out _ _ _ _ _ _ _ Hat). exists s. rewrite E.
  apply turn_head_in.
Qed.

Lemma turn_sublevels : sublevels w w'.
Proof.
  destruct (turn_head_only _ _ _ _ _ _ _ _ Hturn) as (_ & Hother & Hthis).
  intros s0 k q Hg. destruct (side_cases s s0) as [-> | ->].
  - destruct Hthis as [E | E]; rewrite E in Hg.
    + exists q. split; [exact Hg | reflexivity].
    + apply (replace_level_sub tp (m :: rest) rest _ k q); auto.
      * apply inv_sorted, Hat.
      * apply turn_level.
      * intros y Hy. now constructor.
  - rewrite Hother in Hg. exists q. split; [exact Hg | reflexivity].
Qed.

(** Only the head of the level can leave the book. *)
Lemma turn_stays x : x <> m -> in_book w x -> in_book w' x.
Proof.
  destruct (turn_head_only _ _ _ _ _ _ _ _ Hturn) as (_ & Hother & Hthis).
  intros Hx [s0 Hin]. exists s0. destruct (side_cases s s0) as [-> | ->].
  - destruct Hthis as [E | E]; rewrite E; [exact Hin|].
    pose proof (replace_level_remove tp (m :: rest) rest m _
                  (inv_sorted _ (turn_Inv _ _ _ _ _ _ _ Hat) s) turn_level
                  (Permutation_refl _)) as Hperm.
    rewrite Hperm in Hin. apply elem_of_cons in Hin as [Em | Hin]; [congruence | exact Hin].
  - now rewrite Hother.
Qed.

Lemma turn_settled : settled r w -> settled r w'.
Proof.
  intros Hset x o' Hxr Hx.
  destruct (turn_orders _ _ _ _ _ _ _ _ turn_ne Hturn)
    as (om & or0 & om' & or' & Hm & Hr & Hm' & Hr' & Hcase).
  destruct (decide (x = m)) as [E | Hxm].
  - subst x. rewrite Hm' in Hx. injection Hx as <-.
    destruct Hcase as [(_ & _ & Hst & Hsz & _) | [(_ & _ & _ & _ & _ & _ & Hd & _)
                      | (_ & _ & Hst & Hsz & _)]].
    + right. left. now split.
    + left. exists s. rewrite Hd. apply turn_head_in.
    + right. left. now split.
  - destruct (turn_head_only _ _ _ _ _ _ _ _ Hturn) as (Hsame & _).
    rewrite Hsame in Hx by assumption.
    destruct (Hset x o' Hxr Hx) as [Hin | Hd]; [left | now right].
    now apply turn_stays.
Qed.

Lemma turn_incoming : forall o', objects w' !! r = Some o' -> incoming o'.
Proof.
  intros o' Hx.
  destruct (turn_orders _ _ _ _ _ _ _ _ turn_ne Hturn)
    as (om & or0 & om' & or' & Hm & Hr & Hm' & Hr' & Hcase).
  rewrite Hr' in Hx. injection Hx as <-.
  destruct Hcase as [(_ & Hlt & _ & _ & Hst & Hsz & _) | [(_ & _ & _ & _ & Hst & Hsz & _)
                    | (_ & _ & _ & _ & Hst & Hsz & _)]].
  - left. split; [rewrite Hsz; lra | now right].
  - right. now split.
  - right. now split.
Qed.
End Turn.

(** The store may grow and orders may be rewritten, as long as the orders
    there were keep their side and price. *)
Lemma keyed_ext w w' :
  (forall x o, objects w !! x = Some o ->
     exists o', objects w' !! x = Some o' /\ price o' = price o /\ side o' = side o) ->
  sublevels w w' -> keyed w -> keyed w'.
Proof.
  intros HO Hsub Hk s k q x Hg Hx.
  destruct (Hsub s k q Hg) as (q0 & Hg0 & Hq).
  destruct (Hk s k q0 x Hg0 (Hq _ Hx)) as (o & Ho & Hp).
  destruct (HO _ _ Ho) as (o' & Ho' & Hp' & Hs').
  exists o'. split; [exact Ho'|]. unfold _convert_price in *. now rewrite Hp', Hs'.
Qed.

Lemma sublevels_same w w' :
  (forall s, dict s (lob w') = dict s (lob w)) -> sublevels w w'.
Proof. intros H s k q Hg. rewrite H in Hg. exists q. split; [exact Hg | reflexivity]. Qed.

Lemma in_book_same w w' x :
  (forall s, dict s (lob w') = dict s (lob w)) -> in_book w x -> in_book w' x.
Proof. intros H [s Hx]. exists s. now rewrite H. Qed.

Lemma matching_turn r s w tp m rest or go w' :
  at_turn r s tp m rest or w ->
  turn r m s tp rest w go w' -> kept w w' -> Inv w' ->
  matching r w -> matching r w'.
Proof.
  intros Hat Hturn Hk HInv' (Hkey & Hset & _). unfold matching. splits.
  - apply (keyed_sub w); auto. now apply (turn_sublevels r m s tp rest or w w' go).
  - now apply (turn_settled r m s tp rest or w w' go).
  - now apply (turn_incoming r m s tp rest or w w' go).
Qed.

(** What is left of the order is queued: the invariant is back. *)
Lemma sound_rested r o w :
  Inv w -> ~ in_book w r -> objects w !! r = Some o -> priced w ->
  matching r w -> sound (rested r o w).
Proof.
  intros HInv Hout Hr Hp (Hkey & Hset & Hinc). specialize (Hinc _ Hr).
  unfold rested. destruct (Qeq_bool (size o) 0) eqn:Hz.
  - unfold sound. splits; auto. intros x ox Hx. destruct (decide (x = r)) as [-> | Hne].
    + right. rewrite Hr in Hx. injection Hx as <-.
      destruct Hinc as [[Hpos _] | Hf]; [|now left].
      apply Qeq_bool_iff in Hz. lra.
    + now apply Hset.
  - set (s := own_side o). set (p := _convert_price o).
    set (d := dict s (lob w)).
    assert (sd_sorted d) as Hs by apply inv_sorted, HInv.
    assert (forall x, x ∈ sd_refs d -> x ∈ sd_refs (sd_put p (default [] (sd_get p d) ++ [r]) d))
      as Hmore.
    { intros x Hx. pose proof (sd_refs_append p d r Hs) as Hperm.
      rewrite level_or_new in Hperm. rewrite Hperm. now constructor. }
    assert (r ∈ sd_refs (sd_put p (default [] (sd_get p d) ++ [r]) d)) as Hrin.
    { pose proof (sd_refs_append p d r Hs) as Hperm.
      rewrite level_or_new in Hperm. rewrite Hperm. constructor. }
    unfold sound. splits; cbn [objects lob].
    + intros s0 k q x Hg Hx. cbn [lob objects] in *.
      destruct (side_cases s s0) as [-> | ->].
      * rewrite dict_with_dict in Hg. fold d in Hg.
        destruct (Qeq_dec k p) as [E | E].
        -- rewrite (sd_get_proper _ _ _ E), sd_get_put_eq in Hg by exact Hs.
           injection Hg as <-. apply elem_of_app in Hx as [Hx | Hx].
           ++ destruct (sd_get p d) as [q0|] eqn:Hg0; simpl in Hx;
                [|apply elem_of_nil in Hx; contradiction].
              destruct (Hkey s p q0 x Hg0 Hx) as (ox & Hox & Hpx).
              exists ox. split; [exact Hox | lra].
           ++ apply list_elem_of_singleton in Hx as ->. exists o. split; [exact Hr|].
              rewrite E. reflexivity.
        -- rewrite sd_get_put_ne in Hg by exact E. exact (Hkey s k q x Hg Hx).
      * rewrite dict_with_dict_other in Hg. exact (Hkey _ k q x Hg Hx).
    + exact Hp.
    + intros x ox Hx. destruct (decide (x = r)) as [-> | Hne].
      * left. exists s. cbn [lob]. now rewrite dict_with_dict.
      * destruct (Hset x ox Hne Hx) as [[s0 Hin] | Hd]; [left | now right].
        exists s0. cbn [lob]. destruct (side_cases s s0) as [-> | ->].
        -- rewrite dict_with_dict. now apply Hmore.
        -- now rewrite dict_with_dict_other.
Qed.

Lemma sound_last_set r w : sound w -> sound (last_set r w).
Proof.
  intros (Hk & Hp & Hs). unfold sound. splits.
  - intros s k q x Hg Hx. apply (Hk s k q x); [|exact Hx]. now destruct s.
  - exact Hp.
  - intros x o Hx. destruct (Hs x o Hx) as [[s Hin] | Hd]; [left | now right].
    exists s. now destruct s.
Qed.

Lemma sound_empty : sound empty_world.
Proof.
  unfold sound. splits.
  - intros [] k q x Hg; discriminate.
  - intros x o Hx. discriminate.
  - intros x o Hx. discriminate.
Qed.

Lemma sound_after_cancel r o q q' w :
  Inv w -> objects w !! r = Some o ->
  sd_get (_convert_price o) (dict (own_side o) (lob w)) = Some q ->
  deque_remove r q = Some q' ->
  sound w -> sound (after_cancel r o q' w).
Proof.
  intros HInv Hr Hg Hq (Hkey & Hp & Hset).
  pose proof (deque_remove_Some _ _ _ Hq) as Hperm.
  assert (sd_sorted (dict (own_side o) (lob w))) as Hs by apply inv_sorted, HInv.
  assert (kept w (mkWorld (<[r := with_status o CANCELLED]> (objects w)) (lob w) (inbox w)))
    as Hk1 by (apply (kept_obj w r o); [exact Hr | repeat split]).
  assert (kept w (after_cancel r o q' w)) as Hk.
  { unfold after_cancel. eapply kept_trans; [exact Hk1|].
    eapply kept_trans; [apply (kept_dict (mkWorld _ _ _)) | apply (kept_inbox (mkWorld _ _ _))]. }
  unfold sound. splits.
  - apply (keyed_sub w); auto.
    intros s0 k l Hl. unfold after_cancel in Hl. cbn [lob] in Hl.
    destruct (side_cases (own_side o) s0) as [-> | ->].
    + rewrite dict_with_dict in Hl.
      apply (replace_level_sub (_convert_price o) q q' _ k l); auto.
      intros y Hy. rewrite Hperm. now constructor.
    + rewrite dict_with_dict_other in Hl. exists l. split; [exact Hl | reflexivity].
  - now apply (priced_kept w).
  - intros x ox Hx. unfold after_cancel in Hx. cbn [objects] in Hx.
    destruct (decide (x = r)) as [-> | Hne].
    + right. right. rewrite list_lookup_insert_eq in Hx by eauto using lookup_lt_Some.
      injection Hx as <-. split; [reflexivity|]. simpl.
      assert (r ∈ sd_refs (dict (own_side o) (lob w))) as Hin.
      { apply (sd_get_sub _ _ _ Hg). rewrite Hperm. constructor. }
      destruct (inv_rests _ HInv _ _ Hin) as (o0 & E & _ & Hpos & _).
      rewrite Hr in E. now injection E as <-.
    + rewrite list_lookup_insert_ne in Hx by congruence.
      destruct (Hset x ox Hx) as [[s0 Hin] | Hd]; [left | now right].
      exists s0. unfold after_cancel. cbn [lob].
      destruct (side_cases (own_side o) s0) as [-> | ->].
      * rewrite dict_with_dict.
        rewrite (replace_level_remove _ q q' r _ Hs Hg Hperm) in Hin.
        apply elem_of_cons in Hin as [E | Hin]; [congruence | exact Hin].
      * now rewrite dict_with_dict_other.
Qed.

(** A new order, posted: the loop can start. *)
Lemma matching_posted w q sz sd ow vn :
  Inv w -> sound w -> 0 < q -> 0 < sz ->
  matching (length (objects w))
    (posted (length (objects w)) (mkOrder q sz sd ow vn CREATED None)
       (mkWorld (objects w ++ [mkOrder q sz sd ow vn CREATED None])
                (lob w) (inbox w))) /\
  priced
    (posted (length (objects w)) (mkOrder q sz sd ow vn CREATED None)
       (mkWorld (objects w ++ [mkOrder q sz sd ow vn CREATED None])
                (lob w) (inbox w))).
Proof.
  intros HInv (Hkey & Hp & Hset) Hq Hsz.
  set (o := mkOrder q sz sd ow vn CREATED None).
  set (r := length (objects w)).
  set (w1 := mkWorld (objects w ++ [o]) (lob w) (inbox w)).
  assert (forall x, x <> r -> objects (posted r o w1) !! x = objects w !! x) as Hsame.
  { intros x Hx. unfold posted, w1. cbn [objects].
    rewrite list_lookup_insert_ne by congruence.
    destruct (decide (x < length (objects w))%nat) as [Hlt|Hge].
    - now apply lookup_app_l.
    - rewrite !lookup_ge_None_2; [reflexivity | unfold r in Hx; lia |].
      rewrite length_app. simpl. unfold r in Hx. lia. }
  assert (objects (posted r o w1) !! r
          = Some (with_status (with_order_id o (fst (_new_order_id (lob w)))) POSTED))
    as Hr.
  { unfold posted, w1. cbn [objects lob]. apply list_lookup_insert_eq.
    rewrite length_app. simpl. unfold r. lia. }
  assert (forall s, dict s (lob (posted r o w1)) = dict s (lob w)) as Hd
    by (intros s; apply dict_new_order_id).
  unfold matching. splits.
  - apply (keyed_ext w); auto; [|now apply sublevels_same].
    intros x ox Hx. exists ox. splits; auto. rewrite Hsame; [exact Hx|].
    apply lookup_lt_Some in Hx. unfold r. lia.
  - intros x ox Hx Hox. rewrite Hsame in Hox by exact Hx.
    destruct (Hset x ox Hox) as [Hin | Hdone]; [left | now right].
    now apply (in_book_same w).
  - intros o' Ho'. rewrite Hr in Ho'. injection Ho' as <-.
    left. split; [exact Hsz | now left].
  - intros x ox Hox. destruct (decide (x = r)) as [-> | Hne].
    + rewrite Hr in Hox. injection Hox as <-. exact Hq.
    + rewrite Hsame in Hox by exact Hne. exact (Hp _ _ Hox).
Qed.

Lemma sound_step x st :
  valid_op x -> balanced st -> sound (fst st) -> sound (fst (step x st)).
Proof.
  destruct st as [w l]. intros Hv Hb Hs. simpl fst in Hs.
  pose proof (proj1 Hb) as HInv. simpl in HInv.
  destruct x as [p sz sd ow | r].
  - destruct (submit_stages w l p sz sd ow Hb Hv)
      as [(_ & ->) | (q & w2 & -> & Hq & HInv1 & Hout1 & Hadd & ->)]; [exact Hs|].
    destruct (matching_posted w q sz sd ow None HInv Hs Hq Hv) as (Hm & Hp).
    set (o := mkOrder q sz sd ow None CREATED None) in *.
    set (w1 := mkWorld _ _ _) in *. set (r := length (objects w)) in *.
    assert (objects w1 !! r = Some o) as Hr by apply list_lookup_middle, eq_refl.
    destruct (add_order_stages (matching r) r w1 o HInv1 Hout1 Hr Hv)
      as (w3 & o3 & HInv3 & Hout3 & Hr3 & _ & Hk3 & Hm3 & _ & Hadd3); [|exact Hm|].
    { intros w0 tp m rest or go w0' Hat _ Hturn Hk HInv'.
      now apply (matching_turn r (other (own_side o)) w0 tp m rest or go w0'). }
    rewrite Hadd in Hadd3. injection Hadd3 as ->.
    apply sound_last_set, sound_rested; auto.
    now apply (priced_kept (posted r o w1)).
  - simpl step. destruct (objects w !! r) as [o|] eqn:Hr.
    + destruct (classic_resting w r) as [(o' & q & Hr' & Hg & Hin) | Hnot].
      * rewrite Hr in Hr'. injection Hr' as <-.
        destruct (proj2 (deque_remove_is_Some r q) Hin) as (q' & Hq).
        rewrite (remove_order_found r w o q q' Hr Hg Hq). simpl fst.
        now apply (sound_after_cancel r o q q' w).
      * now rewrite (remove_order_unknown r w o Hr Hnot).
    + now rewrite (remove_order_dangling r w Hr).
Qed.

Lemma run_sound ops : Forall valid_op ops -> sound (fst (run ops)).
Proof. apply run_preserves; [apply sound_empty | apply sound_step]. Qed.

(** ** What a submission takes *)

Lemma side_of_other o : order_side (other (own_side o)) = opposite (side o).
Proof. unfold own_side. now destruct (side o). Qed.




(** ** What becomes of the incoming order *)



Lemma in_book_last_set r w x : in_book (last_set r w) x <-> in_book w x.
Proof. split; intros [s H]; exists s; now destruct s. Qed.


Lemma in_book_resting_at w x :
  Inv w -> keyed w -> in_book w x -> resting_at w x.
Proof.
  intros HInv Hkey [s Hin].
  destruct (sd_refs_level _ _ (inv_sorted _ HInv s) Hin) as (k & q & Hg & Hx).
  destruct (Hkey s k q x Hg Hx) as (o & Ho & Hk).
  destruct (inv_rests _ HInv s x Hin) as (o0 & E & Hside & _).
  rewrite Ho in E. injection E as <-.
  assert (own_side o = s) as Hs.
  { unfold own_side. rewrite Hside. now destruct s. }
  exists o, q. splits; auto. rewrite Hs, (sd_get_proper _ _ _ Hk). exact Hg.
Qed.

(** X5: in a book reached by valid calls the status of an order tells where
    it is: POSTED or PARTIALLY_FILLED, with a positive size, and queued
    under the key of its side and price; or FILLED, with size zero, and in
    no queue; or CANCELLED, with the positive size it had left, and in no
    queue.  No order is left CREATED. *)
Theorem X5_status_tells_where_the_order_is (ops : list op) (x : ref) (o : Order) :
  Forall valid_op ops ->
  objects (fst (run ops)) !! x = Some o ->
  (live (status o) /\ 0 < size o /\ resting_at (fst (run ops)) x) \/
  (status o = FILLED /\ size o = 0 /\ ~ in_book (fst (run ops)) x) \/
  (status o = CANCELLED /\ 0 < size o /\ ~ in_book (fst (run ops)) x).
Proof.
  intros Hv Hx.
  pose proof (proj1 (run_balanced ops Hv)) as HInv.
  destruct (run_sound ops Hv) as (Hkey & _ & Hset).
  assert (in_book (fst (run ops)) x -> live (status o) /\ 0 < size o) as Hin.
  { intros [s Hin]. destruct (inv_rests _ HInv s x Hin) as (o0 & E & _ & Hpos & Hl).
    rewrite Hx in E. injection E as <-. now split. }
  destruct (Hset x o Hx) as [Hb | [[Hst Hz] | [Hst Hp]]].
  - left. destruct (Hin Hb). splits; auto. now apply in_book_resting_at.
  - right; left. splits; auto. intros Hb. destruct (Hin Hb) as [[E | E] _]; congruence.
  - right; right. splits; auto. intros Hb. destruct (Hin Hb) as [[E | E] _]; congruence.
Qed.

(** X6: in a book reached by valid calls [remove_order] goes by the status
    of the order: a POSTED or PARTIALLY_FILLED order is cancelled, the call
    returns [True] and the order is CANCELLED with the size it had; for a
    FILLED or CANCELLED order the call raises [LOBUnknownOrderError] and
    changes nothing. *)
Theorem X6_cancel_goes_by_status (ops : list op) (x : ref) (o : Order) :
  Forall valid_op ops ->
  objects (fst (run ops)) !! x = Some o ->
  (live (status o) ->
   exists w', remove_order x (fst (run ops)) = Ok true w' /\
              objects w' !! x = Some (with_status o CANCELLED) /\
              ~ in_book w' x) /\
  (status o = FILLED \/ status o = CANCELLED ->
   remove_order x (fst (run ops)) = Raise LOBUnknownOrderError (fst (run ops))).
Proof.
  intros Hv Hx.
  pose proof (proj1 (run_balanced ops Hv)) as HInv.
  destruct (run_sound ops Hv) as (Hkey & _ & Hset).
  split.
  - intros Hl. destruct (Hset x o Hx) as [Hb | [[Hst _] | [Hst _]]].
    + destruct (in_book_resting_at _ _ HInv Hkey Hb) as (o0 & q & E & Hg & Hin).
      rewrite Hx in E. injection E as <-.
      destruct (proj2 (deque_remove_is_Some x q) Hin) as (q' & Hq).
      exists (after_cancel x o q' (fst (run ops))). splits.
      * now apply (remove_order_found x _ o q q').
      * unfold after_cancel. cbn [objects].
        apply list_lookup_insert_eq. eauto using lookup_lt_Some.
      * now apply (remove_order_ok x _ o q q').
    + destruct Hl as [E | E]; congruence.
    + destruct Hl as [E | E]; congruence.
  - intros Hd. apply (remove_order_unknown x _ o Hx).
    intros Hr. apply resting_at_in_book in Hr. destruct Hr as [s Hin].
    destruct (inv_rests _ HInv s x Hin) as (o0 & E & _ & _ & Hl).
    rewrite Hx in E. injection E as <-.
    destruct Hl as [E | E], Hd as [E' | E']; congruence.
Qed.

(** ** The crossing test and the end of the loop *)

(** X9: [_is_crossing] reads and writes nothing, and compares the price of
    the order with the last key of the opposite side, the largest one: a BUY
    is found crossing when there are asks and its price is at least every
    ask price, a SELL when there are bids and its price is at most every
    bid price. *)
Theorem X9_is_crossing_compares_with_every_price (w : World) (r : ref) (o : Order) :
  (forall s, sd_sorted (dict s (lob w))) ->
  objects w !! r = Some o ->
  exists b, _is_crossing r w = Ok b w /\
    (b = true <->
     match side o with
     | BUY => asks (lob w) <> [] /\
              Forall (fun e => fst e <= price o) (asks (lob w))
     | SELL => bids (lob w) <> [] /\
               Forall (fun e => price o <= - fst e) (bids (lob w))
     end).
Proof.
  intros Hs Hr. exists (crossing o (lob w)). split; [now apply _is_crossing_eq|].
  destruct (side o) eqn:Hside.
  - apply crossing_buy; [exact Hside | apply (Hs ASKS)].
  - apply crossing_sell; [exact Hside | apply (Hs BIDS)].
Qed.

(** X10: on a book whose dictionaries are in key order, as [SortedDict]
    keeps them, [add_order] comes to an end whatever the sizes and statuses
    of the orders: the loop of [_match] takes an order out of the book at
    every turn that goes on. *)
Theorem X10_add_order_ends (r : ref) (w : World) :
  (forall s, sd_sorted (dict s (lob w))) ->
  (exists b w', add_order r w = Ok b w') \/ (exists e w', add_order r w = Raise e w').
Proof.
  intros Hs. pose proof (add_order_total r w Hs) as H.
  destruct (add_order r w) as [b w' | e w' |]; [left | right | contradiction]; eauto.
Qed.

(** ** Instances of the further statements *)

Lemma X1_orders_numbered_in_arrival_order_witness :
  Forall valid_op demo_ops /\
  _order_count (lob (fst (run demo_ops)))
  = N.of_nat (length (objects (fst (run demo_ops)))).
Proof.
  assert (Forall valid_op demo_ops) as Hv by (unfold demo_ops; valid_ops).
  split; [exact Hv|].
  exact (proj1 (X1_orders_numbered_in_arrival_order demo_ops Hv)).
Defined.

Lemma X2_identifiers_increase_within_a_book_witness :
  Forall valid_op two_asks /\
  exists a b,
    order_id (mkOrder 100 1 SELL None None POSTED (Some 11%N)) = Some a /\
    order_id (mkOrder 105 1 SELL None None POSTED (Some 12%N)) = Some b /\
    (a < b)%N.
Proof.
  assert (Forall valid_op two_asks) as Hv by (unfold two_asks; valid_ops).
  split; [exact Hv|].
  apply (X2_identifiers_increase_within_a_book two_asks 0 1 _ _ Hv);
    [lia | vm_compute; reflexivity | vm_compute; reflexivity].
Defined.

Lemma X5_status_tells_where_the_order_is_witness :
  (live (status (mkOrder 100 1 SELL None None POSTED (Some 11%N))) /\
   0 < size (mkOrder 100 1 SELL None None POSTED (Some 11%N)) /\
   resting_at (fst (run one_ask)) 0%nat) \/
  (status (mkOrder 100 1 SELL None None POSTED (Some 11%N)) = FILLED /\
   size (mkOrder 100 1 SELL None None POSTED (Some 11%N)) = 0 /\
   ~ in_book (fst (run one_ask)) 0%nat) \/
  (status (mkOrder 100 1 SELL None None POSTED (Some 11%N)) = CANCELLED /\
   0 < size (mkOrder 100 1 SELL None None POSTED (Some 11%N)) /\
   ~ in_book (fst (run one_ask)) 0%nat).
Proof.
  apply (X5_status_tells_where_the_order_is one_ask 0);
    [unfold one_ask; valid_ops | vm_compute; reflexivity].
Defined.

Lemma X6_cancel_goes_by_status_witness :
  (live (status (mkOrder 100 1 SELL None None POSTED (Some 11%N))) ->
   exists w', remove_order 0%nat (fst (run one_ask)) = Ok true w' /\
              objects w' !! 0%nat
              = Some (with_status (mkOrder 100 1 SELL None None POSTED (Some 11%N))
                        CANCELLED) /\
              ~ in_book w' 0%nat) /\
  (status (mkOrder 100 1 SELL None None POSTED (Some 11%N)) = FILLED \/
   status (mkOrder 100 1 SELL None None POSTED (Some 11%N)) = CANCELLED ->
   remove_order 0%nat (fst (run one_ask))
   = Raise LOBUnknownOrderError (fst (run one_ask))).
Proof.
  apply (X6_cancel_goes_by_status one_ask 0);
    [unfold one_ask; valid_ops | vm_compute; reflexivity].
Defined.

Lemma X9_is_crossing_compares_with_every_price_witness :
  exists b,
    _is_crossing 1%nat
      (fst (run [Submit (Some 100) 1 SELL None; Submit (Some 99) 1 BUY None]))
    = Ok b (fst (run [Submit (Some 100) 1 SELL None; Submit (Some 99) 1 BUY None])) /\
    (b = true <->
     asks (lob (fst (run [Submit (Some 100) 1 SELL None; Submit (Some 99) 1 BUY None])))
     <> [] /\
     Forall (fun e => fst e <= 99)
       (asks (lob (fst (run [Submit (Some 100) 1 SELL None;
                             Submit (Some 99) 1 BUY None]))))).
Proof.
  assert (Forall valid_op [Submit (Some 100) 1 SELL None; Submit (Some 99) 1 BUY None])
    as Hv by valid_ops.
  apply (X9_is_crossing_compares_with_every_price
           (fst (run [Submit (Some 100) 1 SELL None; Submit (Some 99) 1 BUY None]))
           1 (mkOrder 99 1 BUY None None POSTED (Some 12%N)));
    [apply inv_sorted, (proj1 (run_balanced _ Hv)) | vm_compute; reflexivity].
Defined.

Lemma X10_add_order_ends_witness :
  (exists b w',
     add_order 2%nat
       (after (Order_new (Some 110) 3 BUY None None (fst (run two_asks)))
              (fst (run two_asks))) = Ok b w') \/
  (exists e w',
     add_order 2%nat
       (after (Order_new (Some 110) 3 BUY None None (fst (run two_asks)))
              (fst (run two_asks))) = Raise e w').
Proof.
  apply (X10_add_order_ends 2
           (after (Order_new (Some 110) 3 BUY None None (fst (run two_asks)))
                  (fst (run two_asks)))).
  intros []; vm_compute; repeat constructor.
Defined.

(** ** The client and its active orders *)

Lemma same_entry_spec e e' : same_entry e e' = true <-> e = e'.
Proof.
  destruct e as [h x], e' as [h' x']. unfold same_entry. simpl.
  rewrite andb_true_iff, N.eqb_eq, Nat.eqb_eq. split.
  - intros [-> ->]. reflexivity.
  - intros [= -> ->]. now split.
Qed.

Lemma same_owner_spec a b : same_owner a b = true <-> a = b.
Proof.
  destruct a as [k t], b as [k' t']. unfold same_owner. simpl.
  rewrite andb_true_iff, Nat.eqb_eq, Bool.eqb_true_iff. split.
  - intros [-> ->]. reflexivity.
  - intros [= -> ->]. now split.
Qed.

Lemma set_add_spec e s :
  NoDup s -> NoDup (set_add e s) /\ forall e', e' ∈ set_add e s <-> e' ∈ s \/ e' = e.
Proof.
  intros Hnd. unfold set_add. destruct (existsb (same_entry e) s) eqn:E.
  - split; [exact Hnd|]. intros e'. split; [now left|].
    intros [H | ->]; [exact H|].
    apply existsb_exists in E as (e0 & Hin & Heq).
    apply same_entry_spec in Heq as <-. now apply list_elem_of_In.
  - assert (e ∉ s) as Hnot.
    { intros Hin. apply not_true_iff_false in E. apply E.
      apply existsb_exists. exists e. split; [now apply list_elem_of_In|].
      now apply same_entry_spec. }
    split.
    + apply NoDup_app. splits; [exact Hnd | | apply NoDup_singleton].
      intros x Hx Hx'. apply list_elem_of_singleton in Hx' as ->. contradiction.
    + intros e'. rewrite elem_of_app, list_elem_of_singleton. reflexivity.
Qed.

Lemma set_remove_spec e s :
  NoDup s -> e ∈ s ->
  exists s', set_remove e s = Some s' /\ NoDup s' /\
             forall e', e' ∈ s' <-> e' ∈ s /\ e' <> e.
Proof.
  induction s as [|e0 s IH]; intros Hnd Hin.
  - apply elem_of_nil in Hin. contradiction.
  - apply NoDup_cons in Hnd as [Hnot Hnd]. simpl.
    destruct (same_entry e e0) eqn:E.
    + apply same_entry_spec in E as <-. exists s. splits; auto.
      intros e'. rewrite elem_of_cons. split.
      * intros H. split; [now right|]. intros ->. contradiction.
      * intros [[-> | H] Hne]; [contradiction | exact H].
    + assert (e <> e0) as Hne
        by (intros ->; apply not_true_iff_false in E; apply E; now apply same_entry_spec).
      apply elem_of_cons in Hin as [-> | Hin]; [contradiction|].
      destruct (IH Hnd Hin) as (s' & -> & Hnd' & Hs').
      exists (e0 :: s'). splits; auto.
      * apply NoDup_cons. split; [|exact Hnd']. intros H. apply Hs' in H as [H _].
        contradiction.
      * intros e'. rewrite !elem_of_cons, Hs'. split.
        -- intros [-> | [H Hne']]; [split; [now left | congruence] | split; [now right | exact Hne']].
        -- intros [[-> | H] Hne']; [now left | right; now split].
Qed.

Lemma received_app objs c l1 l2 a :
  received objs c (l1 ++ l2) a
  = match received objs c l1 a with
    | Active a' => received objs c l2 a'
    | Failed e => Failed e
    end.
Proof.
  revert a. induction l1 as [|[ow u] l1 IH]; intros a; simpl; [reflexivity|].
  destruct (same_owner ow c); [|apply IH].
  destruct (receive_update objs u a); [apply IH | reflexivity].
Qed.

Lemma received_ext objs objs' c l a :
  Forall (fun e => hash objs' (update_order (snd e)) = hash objs (update_order (snd e))) l ->
  received objs' c l a = received objs c l a.
Proof.
  intros H. revert a. induction H as [|[ow u] l Hu _ IH]; intros a; simpl; [reflexivity|].
  destruct (same_owner ow c); [|apply IH].
  replace (receive_update objs' u a) with (receive_update objs u a).
  - destruct (receive_update objs u a); [apply IH | reflexivity].
  - destruct u as [x st old]. simpl in Hu. unfold receive_update. now rewrite Hu.
Qed.

Lemma holds_iff objs objs' c A A' a :
  (forall x h, owned objs' c x h <-> owned objs c x h) ->
  (forall x h, owned objs c x h -> (A' x <-> A x)) ->
  holds objs c A a -> holds objs' c A' a.
Proof.
  intros Ho HA [Hnd Hm]. split; [exact Hnd|].
  intros h x. rewrite Hm, Ho. split; intros [H1 H2]; (split; [|exact H2]);
    now apply (HA x h H2).
Qed.

(** One update, as [update_status] delivers it for the order [x], [ox]
    being the order before its status is written. *)
Lemma note_received objs c A a x ox st h :
  owner_truth c = true -> holds objs c A a ->
  (exists o', objs !! x = Some o' /\ owner o' = owner ox /\ order_id o' = Some h) ->
  match st with
  | POSTED => ~ A x
  | FILLED | CANCELLED => A x
  | _ => True
  end ->
  exists a',
    received objs c (notes ox x st) a = Active a' /\
    holds objs c
      (fun y => match st with
                | POSTED => A y \/ y = x
                | FILLED | CANCELLED => A y /\ y <> x
                | _ => A y
                end) a'.
Proof.
  intros Hc [Hnd Hm] (o' & Hx & How & Hid) Hst.
  assert (hash objs x = Some h) as Hh by (unfold hash; now rewrite Hx).
  assert (forall h', owned objs c x h' <-> owner ox = Some c /\ h' = h) as Hown.
  { intros h'. split.
    - intros (o0 & E & Hw & Hi). rewrite Hx in E. injection E as <-.
      split; congruence.
    - intros [Hw ->]. exists o'. splits; congruence. }
  unfold notes. destruct (owner ox) as [ow|] eqn:Eow.
  2:{ exists a. split; [reflexivity|]. split; [exact Hnd|].
      intros h' y. rewrite Hm. split.
      - intros [HA Hy]. split; [|exact Hy].
        assert (y <> x) by (intros ->; apply Hown in Hy as [? _]; discriminate).
        destruct st; auto.
      - intros [HA Hy]. split; [|exact Hy].
        assert (y <> x) by (intros ->; apply Hown in Hy as [? _]; discriminate).
        destruct st; tauto. }
  destruct (owner_truth ow) eqn:Et.
  2:{ exists a. split; [reflexivity|]. split; [exact Hnd|].
      assert (forall y h', owned objs c y h' -> y <> x) as Hne.
      { intros y h' Hy ->. apply Hown in Hy as [[= ->] _]. congruence. }
      intros h' y. rewrite Hm. split.
      - intros [HA Hy]. split; [|exact Hy]. specialize (Hne _ _ Hy). destruct st; auto.
      - intros [HA Hy]. split; [|exact Hy]. specialize (Hne _ _ Hy). destruct st; tauto. }
  simpl received. destruct (same_owner ow c) eqn:Esame.
  2:{ exists a. split; [reflexivity|]. split; [exact Hnd|].
      assert (forall y h', owned objs c y h' -> y <> x) as Hne.
      { intros y h' Hy ->. apply Hown in Hy as [[= ->] _].
        apply not_true_iff_false in Esame. apply Esame. now apply same_owner_spec. }
      intros h' y. rewrite Hm. split.
      - intros [HA Hy]. split; [|exact Hy]. specialize (Hne _ _ Hy). destruct st; auto.
      - intros [HA Hy]. split; [|exact Hy]. specialize (Hne _ _ Hy). destruct st; tauto. }
  apply same_owner_spec in Esame as ->.
  assert (owned objs c x h) as Hox by (apply Hown; now split).
  unfold receive_update. rewrite Hh.
  destruct st.
  - exists a. split; [reflexivity | now split].
  - destruct (set_add_spec (h, x) a Hnd) as [Hnd' Hadd].
    exists (set_add (h, x) a). split; [reflexivity|]. split; [exact Hnd'|].
    intros h' y. rewrite Hadd, Hm. split.
    + intros [[HA Hy] | [= -> ->]]; [split; [now left | exact Hy] | split; [now right | exact Hox]].
    + intros [[HA | ->] Hy]; [left; now split|].
      right. apply Hown in Hy as [_ ->]. reflexivity.
  - exists a. split; [reflexivity | now split].
  - assert ((h, x) ∈ a) as Hin by (apply Hm; now split).
    destruct (set_remove_spec (h, x) a Hnd Hin) as (a' & -> & Hnd' & Hrem).
    exists a'. split; [reflexivity|]. split; [exact Hnd'|].
    intros h' y. rewrite Hrem, Hm. split.
    + intros [[HA Hy] Hne]. splits; auto. intros ->. apply Hne.
      apply Hown in Hy as [_ ->]. reflexivity.
    + intros [[HA Hne] Hy]. splits; auto. intros [= _ ->]. congruence.
  - assert ((h, x) ∈ a) as Hin by (apply Hm; now split).
    destruct (set_remove_spec (h, x) a Hnd Hin) as (a' & -> & Hnd' & Hrem).
    exists a'. split; [reflexivity|]. split; [exact Hnd'|].
    intros h' y. rewrite Hrem, Hm. split.
    + intros [[HA Hy] Hne]. splits; auto. intros ->. apply Hne.
      apply Hown in Hy as [_ ->]. reflexivity.
    + intros [[HA Hne] Hy]. splits; auto. intros [= _ ->]. congruence.
Qed.

Lemma owned_kept w w' c x h :
  kept w w' -> (owned (objects w') c x h <-> owned (objects w) c x h).
Proof.
  intros Hk. split.
  - intros (o' & Hx & How & Hid).
    destruct (kept_lookup _ _ _ _ Hk Hx) as (o & Ho & _ & _ & Hw & _ & Hi).
    exists o. splits; congruence.
  - intros (o & Hx & How & Hid). destruct Hk as (_ & HO & _).
    destruct (HO _ _ Hx) as (o' & Ho' & _ & _ & Hw & _ & Hi).
    exists o'. splits; congruence.
Qed.

Lemma hash_kept w w' x : kept w w' -> hash (objects w') x = hash (objects w) x.
Proof.
  intros Hk. unfold hash. destruct (objects w !! x) as [o|] eqn:Hx.
  - destruct Hk as (_ & HO & _). destruct (HO _ _ Hx) as (o' & -> & _ & _ & _ & _ & Hi).
    exact Hi.
  - destruct (objects w' !! x) as [o'|] eqn:Hx'; [|reflexivity].
    destruct (kept_lookup _ _ _ _ Hk Hx') as (o & Ho & _). congruence.
Qed.

Lemma all_ids_kept w w' : kept w w' -> all_ids w -> all_ids w'.
Proof.
  intros Hk Hi x o' Hx.
  destruct (kept_lookup _ _ _ _ Hk Hx) as (o & Ho & _ & _ & _ & _ & E).
  rewrite E. exact (Hi _ _ Ho).
Qed.

Lemma notes_about o x st :
  Forall (fun e => update_order (snd e) = x) (notes o x st).
Proof.
  unfold notes. destruct (owner o) as [ow|]; [|constructor].
  destruct (owner_truth ow); repeat constructor.
Qed.

(** One update delivered between [w] and [w']. *)
Lemma cview_note c A A' w w' x ox st :
  owner_truth c = true -> kept w w' -> all_ids w ->
  objects w !! x = Some ox ->
  inbox w' = inbox w ++ notes ox x st ->
  pre st x A -> (forall y, A' y <-> upd st x A y) ->
  cview c A w -> cview c A' w'.
Proof.
  intros Hc Hk Hids Hx Hin Hpre HA' (Hval & a & Hrec & Hh).
  pose proof Hk as (Hlen & HO & _).
  split.
  - rewrite Hin, Hlen, Forall_app. split; [exact Hval|].
    eapply Forall_impl; [apply notes_about|]. simpl. intros e ->.
    eauto using lookup_lt_Some.
  - destruct (HO _ _ Hx) as (ox' & Hx' & _ & _ & How & _ & Hid).
    destruct (Hids _ _ Hx) as [h Hh0].
    assert (holds (objects w') c A a) as Hh'.
    { apply (holds_iff (objects w) (objects w') c A A a);
        [intros y h'; now apply owned_kept | reflexivity | exact Hh]. }
    destruct (note_received (objects w') c A a x ox st h Hc Hh') as (a' & Hrec' & Hh'');
      [exists ox'; splits; congruence | exact Hpre |].
    exists a'. split.
    + rewrite Hin, received_app. rewrite (received_ext (objects w)), Hrec; [exact Hrec'|].
      apply Forall_forall. intros e _. now apply hash_kept.
    + apply (holds_iff (objects w') (objects w') c (upd st x A) A' a');
        [reflexivity | intros y h' _; apply HA' | exact Hh''].
Qed.

(** Two updates in a row, as a turn of the loop delivers them. *)
Lemma cview_notes c A A' w w' x1 o1 st1 x2 o2 st2 :
  owner_truth c = true -> kept w w' -> all_ids w ->
  objects w !! x1 = Some o1 -> objects w !! x2 = Some o2 ->
  inbox w' = inbox w ++ notes o1 x1 st1 ++ notes o2 x2 st2 ->
  pre st1 x1 A -> pre st2 x2 (upd st1 x1 A) ->
  (forall y, A' y <-> upd st2 x2 (upd st1 x1 A) y) ->
  cview c A w -> cview c A' w'.
Proof.
  intros Hc Hk Hids H1 H2 Hin Hp1 Hp2 HA' Hv.
  set (wm := mkWorld (objects w) (lob w) (inbox w ++ notes o1 x1 st1)).
  assert (kept w wm) as Hk1 by apply kept_inbox.
  assert (kept wm w') as Hk2.
  { destruct Hk as (L & O & N & B & C & D). unfold kept, wm. cbn [objects lob].
    splits; auto. }
  apply (cview_note c (upd st1 x1 A) A' wm w' x2 o2 st2);
    [exact Hc | exact Hk2 | now apply (all_ids_kept w) | exact H2
    | unfold wm; cbn [inbox]; now rewrite <- app_assoc | exact Hp2 | exact HA' |].
  apply (cview_note c A (upd st1 x1 A) w wm x1 o1 st1);
    [exact Hc | exact Hk1 | exact Hids | exact H1 | reflexivity | exact Hp1
    | reflexivity | exact Hv].
Qed.

Lemma holds_same objs objs' c A A' a :
  (forall x h, A' x /\ owned objs' c x h <-> A x /\ owned objs c x h) ->
  holds objs c A a -> holds objs' c A' a.
Proof.
  intros H [Hnd Hm]. split; [exact Hnd|]. intros h x. now rewrite Hm, H.
Qed.

(** A turn takes orders out of the book, and puts none in. *)
Lemma turn_in_book r s w tp m rest or go w' y :
  at_turn r s tp m rest or w -> turn r m s tp rest w go w' ->
  in_book w' y -> in_book w y.
Proof.
  intros Hat Hturn [s0 Hin].
  destruct (turn_head_only _ _ _ _ _ _ _ _ Hturn) as (_ & Hother & Hthis).
  exists s0. destruct (side_cases s s0) as [-> | ->].
  - destruct Hthis as [E | E]; rewrite E in Hin; [exact Hin|].
    pose proof (replace_level_remove tp (m :: rest) rest m _
                  (inv_sorted _ (turn_Inv _ _ _ _ _ _ _ Hat) s)
                  (turn_level r m s tp rest or w Hat)
                  (Permutation_refl _)) as Hperm.
    rewrite Hperm. now right.
  - now rewrite <- Hother.
Qed.

Lemma following_turn c r s w tp m rest or go w' :
  owner_truth c = true ->
  at_turn r s tp m rest or w -> turn r m s tp rest w go w' ->
  kept w w' -> Inv w' ->
  following c r w -> following c r w'.
Proof.
  intros Hc Hat Hturn Hk HInv' (Hids & Hv & Hinc).
  pose proof (turn_ne r m s tp rest or w Hat) as Hne.
  unfold following. splits.
  - now apply (all_ids_kept w).
  - destruct (turn_orders _ _ _ _ _ _ _ _ Hne Hturn)
      as (om & or0 & om' & or' & Hm & Hr & Hm' & Hr' & Hfill).
    assert (in_book w m) as Hmin
      by (exists s; apply (turn_head_in r m s tp rest or w Hat)).
    assert (~ in_book w r) as Hrout by apply Hat.
    assert (live (status or0)) as Hlive.
    { pose proof (turn_order _ _ _ _ _ _ _ Hat) as E. rewrite Hr in E.
      injection E as ->. apply (turn_unfilled _ _ _ _ _ _ _ Hat). }
    assert (forall y, y <> m -> in_book w y -> in_book w' y) as Hstay
      by (intros y; apply (turn_stays r m s tp rest or w w' go Hat Hturn)).
    assert (forall y, in_book w' y -> in_book w y) as Hback
      by (intros y; apply (turn_in_book r s w tp m rest or go w' y Hat Hturn)).
    assert (forall st, status st = FILLED -> objects w' !! m = Some st -> ~ in_book w' m)
      as Hgone.
    { intros st Hst Hx [s0 Hin].
      destruct (inv_rests _ HInv' _ _ Hin) as (o0 & E & _ & _ & Hl).
      rewrite Hx in E. injection E as <-. destruct Hl; congruence. }
    destruct Hfill as [(_ & _ & Hstm & _ & Hstr & _ & _ & Hin)
                      | [(_ & _ & Hstm & _ & Hstr & _ & Hd & Hin)
                      | (_ & _ & Hstm & _ & Hstr & _ & _ & Hin)]].
    + apply (cview_notes c (active_in r w) _ w w' r or0 PARTIALLY_FILLED m om FILLED);
        [exact Hc | exact Hk | exact Hids | exact Hr | exact Hm | exact Hin
        | | | | exact Hv].
      * exact I.
      * simpl. now left.
      * intros y. unfold upd, active_in. rewrite Hr'. split.
        -- intros [Hy | [-> _]].
           ++ split; [left; now apply Hback|]. intros ->.
              now apply (Hgone om').
           ++ split; [right; split; eauto | exact Hne].
        -- intros [[Hy | [-> _]] Hym]; [left; now apply Hstay|].
           right. split; [reflexivity|]. exists or'. split; [reflexivity|].
           right. exact Hstr.
    + apply (cview_notes c (active_in r w) _ w w' m om PARTIALLY_FILLED r or0 FILLED);
        [exact Hc | exact Hk | exact Hids | exact Hm | exact Hr | exact Hin
        | | | | exact Hv].
      * exact I.
      * simpl. right. split; eauto.
      * assert (forall y, in_book w y -> in_book w' y) as Hstay'.
        { intros y [s0 Hy]. exists s0.
          destruct (turn_head_only _ _ _ _ _ _ _ _ Hturn) as (_ & Hother & _).
          destruct (side_cases s s0) as [-> | ->]; [now rewrite Hd | now rewrite Hother]. }
        intros y. unfold upd, active_in. rewrite Hr'. split.
        -- intros [Hy | [-> (o0 & [= <-] & Hl)]].
           ++ split; [left; now apply Hback|]. intros ->. apply Hrout. now apply Hback.
           ++ destruct Hl; congruence.
        -- intros [[Hy | [-> _]] Hyr]; [left; now apply Hstay' | congruence].
    + apply (cview_notes c (active_in r w) _ w w' m om FILLED r or0 FILLED);
        [exact Hc | exact Hk | exact Hids | exact Hm | exact Hr | exact Hin
        | | | | exact Hv].
      * simpl. now left.
      * simpl. split; [right; split; eauto | exact Hne].
      * intros y. unfold upd, active_in. rewrite Hr'. split.
        -- intros [Hy | [-> (o0 & [= <-] & Hl)]].
           ++ splits.
              ** left; now apply Hback.
              ** intros ->. now apply (Hgone om').
              ** intros ->. apply Hrout. now apply Hback.
           ++ destruct Hl; congruence.
        -- intros [[[Hy | [-> _]] Hym] Hyr]; [left; now apply Hstay | congruence].
  - now apply (turn_incoming r m s tp rest or w w' go).
Qed.

(** A new order is built, numbered and posted: the client of its owner
    starts following it. *)
Lemma following_posted c w q sz sd ow vn :
  owner_truth c = true -> Inv w -> 0 < sz -> served c w ->
  following c (length (objects w))
    (posted (length (objects w)) (mkOrder q sz sd ow vn CREATED None)
       (mkWorld (objects w ++ [mkOrder q sz sd ow vn CREATED None])
                (lob w) (inbox w))).
Proof.
  intros Hc HInv Hsz (Hids & Hval & a & Hrec & Hh).
  set (o := mkOrder q sz sd ow vn CREATED None).
  set (r := length (objects w)).
  set (i := fst (_new_order_id (lob w))).
  set (wa := mkWorld (objects w ++ [with_order_id o i])
                     (snd (_new_order_id (lob w))) (inbox w)).
  set (wp := posted r o (mkWorld (objects w ++ [o]) (lob w) (inbox w))).
  assert (objects wp = objects w ++ [with_status (with_order_id o i) POSTED]) as Hobj.
  { unfold wp, posted. cbn [objects lob].
    unfold r. rewrite insert_app_r_alt by lia. now rewrite Nat.sub_diag. }
  assert (objects wa !! r = Some (with_order_id o i)) as Hra
    by apply list_lookup_middle, eq_refl.
  assert (forall x, (x < r)%nat -> objects wa !! x = objects w !! x) as Hold
    by (intros x Hx; now apply lookup_app_l).
  assert (~ in_book w r) as Hout
    by (intros Hin; apply (in_book_lt _ _ HInv) in Hin; unfold r in Hin; lia).
  assert (all_ids wa) as Hidsa.
  { intros x ox Hx. apply lookup_app_Some in Hx as [Hx | [_ Hx]]; [now apply (Hids x)|].
    destruct (x - length (objects w))%nat; [|discriminate].
    injection Hx as <-. simpl. eauto. }
  assert (cview c (in_book w) wa) as Hva.
  { split.
    - unfold wa. cbn [objects inbox]. rewrite length_app.
      eapply Forall_impl; [exact Hval|]. simpl. intros; lia.
    - exists a. split.
      + unfold wa at 2. cbn [inbox]. rewrite (received_ext (objects w)); [exact Hrec|].
        eapply Forall_impl; [exact Hval|]. simpl. intros e He.
        unfold hash. now rewrite Hold.
      + apply (holds_same (objects w) (objects wa) c (in_book w) (in_book w) a);
          [|exact Hh].
        intros x h. split; intros [Hin (ox & Hx & Hw & Hi)];
          (split; [exact Hin|]); exists ox; splits; auto;
          pose proof (in_book_lt _ _ HInv Hin); [now rewrite <- Hold | now rewrite Hold]. }
  assert (kept wa wp) as Hk.
  { unfold kept. rewrite Hobj. unfold wa. cbn [objects lob]. splits; auto.
    - now rewrite !length_app.
    - intros y oy Hy. apply lookup_app_Some in Hy as [Hy | [Hge Hy]].
      + exists oy. split; [now apply lookup_app_l_Some | repeat split].
      + destruct (y - length (objects w))%nat eqn:E; [|discriminate].
        injection Hy as <-. exists (with_status (with_order_id o i) POSTED).
        split; [|repeat split].
        replace y with (length (objects w)) by lia. apply list_lookup_middle, eq_refl. }
  assert (objects wp !! r = Some (with_status (with_order_id o i) POSTED)) as Hrp
    by (rewrite Hobj; apply list_lookup_middle, eq_refl).
  unfold following. fold o r. fold wp. splits.
  - now apply (all_ids_kept wa).
  - apply (cview_note c (in_book w) _ wa wp r (with_order_id o i) POSTED);
      [exact Hc | exact Hk | exact Hidsa | exact Hra | reflexivity | exact Hout | | exact Hva].
    intros y. unfold upd, active_in. rewrite Hrp. split.
    + intros [[s Hy] | [-> _]]; [left | now right].
      exists s. unfold wp, posted in Hy. cbn [lob] in Hy.
      now rewrite dict_new_order_id in Hy.
    + intros [[s Hy] | ->].
      * left. exists s. unfold wp, posted. cbn [lob]. now rewrite dict_new_order_id.
      * right. split; [reflexivity|]. eexists. split; [reflexivity | now left].
  - intros o' Ho'. rewrite Hrp in Ho'. injection Ho' as <-.
    left. split; [exact Hsz | now left].
Qed.

(** What is left of the order is queued: the client has its orders that are
    in the book. *)
Lemma served_rested c r o w :
  Inv w -> ~ in_book w r -> objects w !! r = Some o ->
  following c r w -> served c (last_set r (rested r o w)).
Proof.
  intros HInv Hout Hr (Hids & (Hval & a & Hrec & Hh) & Hinc).
  specialize (Hinc _ Hr).
  assert (objects (last_set r (rested r o w)) = objects w) as Hobj
    by (unfold last_set, rested; now destruct (Qeq_bool (size o) 0)).
  assert (inbox (last_set r (rested r o w)) = inbox w) as Hinb
    by (unfold last_set, rested; now destruct (Qeq_bool (size o) 0)).
  split; [intros x ox; rewrite Hobj; apply Hids|].
  split; [now rewrite Hobj, Hinb|].
  exists a. rewrite Hobj, Hinb. split; [exact Hrec|].
  apply (holds_same (objects w) (objects w) c (active_in r w)
           (in_book (last_set r (rested r o w))) a); [|exact Hh].
  intros x h. rewrite in_book_last_set.
  enough (in_book (rested r o w) x <-> active_in r w x) as -> by reflexivity.
  unfold rested, active_in. rewrite Hr. destruct (Qeq_bool (size o) 0) eqn:Hz.
  - split; [now left|]. intros [Hx | [-> (o' & [= <-] & Hl)]]; [exact Hx|].
    apply Qeq_bool_iff in Hz.
    destruct Hinc as [[Hpos _] | [Hst _]]; [lra | destruct Hl; congruence].
  - assert (live (status o)) as Hl.
    { destruct Hinc as [[_ Hl] | [_ Hs]]; [exact Hl|].
      apply Qeq_bool_false in Hz. rewrite Hs in Hz. now destruct Hz. }
    set (s := own_side o). set (p := _convert_price o). set (d := dict s (lob w)).
    pose proof (sd_refs_append p d r (inv_sorted _ HInv s)) as Hperm.
    rewrite level_or_new in Hperm.
    split.
    + intros [s0 Hx]. cbn [lob] in Hx. destruct (side_cases s s0) as [-> | ->].
      * rewrite dict_with_dict in Hx. fold d in Hx. rewrite Hperm in Hx.
        apply elem_of_cons in Hx as [-> | Hx]; [right; split; eauto | left; now exists s].
      * rewrite dict_with_dict_other in Hx. left. now exists (other s).
    + intros [[s0 Hx] | [-> _]].
      * exists s0. cbn [lob]. destruct (side_cases s s0) as [-> | ->].
        -- rewrite dict_with_dict. fold d. rewrite Hperm. now right.
        -- now rewrite dict_with_dict_other.
      * exists s. cbn [lob]. rewrite dict_with_dict. fold d. rewrite Hperm. now left.
Qed.

Lemma served_after_cancel c r o q q' w :
  owner_truth c = true -> Inv w -> objects w !! r = Some o ->
  sd_get (_convert_price o) (dict (own_side o) (lob w)) = Some q ->
  deque_remove r q = Some q' ->
  served c w -> served c (after_cancel r o q' w).
Proof.
  intros Hc HInv Hr Hg Hq (Hids & Hv).
  pose proof (deque_remove_Some _ _ _ Hq) as Hperm.
  assert (sd_sorted (dict (own_side o) (lob w))) as Hs by apply inv_sorted, HInv.
  assert (kept w (mkWorld (<[r := with_status o CANCELLED]> (objects w)) (lob w) (inbox w)))
    as Hk1 by (apply (kept_obj w r o); [exact Hr | repeat split]).
  assert (kept w (after_cancel r o q' w)) as Hk.
  { unfold after_cancel. eapply kept_trans; [exact Hk1|].
    eapply kept_trans; [apply (kept_dict (mkWorld _ _ _)) | apply (kept_inbox (mkWorld _ _ _))]. }
  assert (r ∈ sd_refs (dict (own_side o) (lob w))) as Hrin.
  { apply (sd_get_sub _ _ _ Hg). rewrite Hperm. constructor. }
  pose proof (replace_level_remove _ q q' r _ Hs Hg Hperm) as Hrefs.
  destruct (remove_order_ok r w o q q' HInv Hr Hg Hq) as (_ & Hgone & _).
  split; [now apply (all_ids_kept w)|].
  apply (cview_note c (in_book w) _ w (after_cancel r o q' w) r o CANCELLED);
    [exact Hc | exact Hk | exact Hids | exact Hr | reflexivity | | | exact Hv].
  - simpl. now exists (own_side o).
  - intros y. unfold upd. split.
    + intros Hy. split; [|intros ->; contradiction].
      destruct Hy as [s0 Hy]. exists s0. unfold after_cancel in Hy. cbn [lob] in Hy.
      destruct (side_cases (own_side o) s0) as [-> | ->].
      * rewrite dict_with_dict in Hy. rewrite Hrefs. now right.
      * now rewrite dict_with_dict_other in Hy.
    + intros [[s0 Hy] Hne]. exists s0. unfold after_cancel. cbn [lob].
      destruct (side_cases (own_side o) s0) as [-> | ->].
      * rewrite dict_with_dict. rewrite Hrefs in Hy.
        apply elem_of_cons in Hy as [E | Hy]; [congruence | exact Hy].
      * now rewrite dict_with_dict_other.
Qed.

Lemma served_empty c : served c empty_world.
Proof.
  split; [intros x o Hx; discriminate|]. split; [constructor|].
  exists []. split; [reflexivity|]. split; [constructor|].
  intros h x. split.
  - intros H. apply elem_of_nil in H. contradiction.
  - intros [_ (o & Hx & _)]. discriminate.
Qed.

Lemma served_step c x st :
  owner_truth c = true ->
  valid_op x -> balanced st -> served c (fst st) -> served c (fst (step x st)).
Proof.
  intros Hc. destruct st as [w l]. intros Hv Hb Hs. simpl fst in Hs.
  pose proof (proj1 Hb) as HInv. simpl in HInv.
  destruct x as [p sz sd ow | r].
  - destruct (submit_stages w l p sz sd ow Hb Hv)
      as [(_ & ->) | (q & w2 & -> & Hq & HInv1 & Hout1 & Hadd & ->)]; [exact Hs|].
    pose proof (following_posted c w q sz sd ow None Hc HInv Hv Hs) as Hf.
    set (o := mkOrder q sz sd ow None CREATED None) in *.
    set (w1 := mkWorld _ _ _) in *. set (r := length (objects w)) in *.
    assert (objects w1 !! r = Some o) as Hr by apply list_lookup_middle, eq_refl.
    destruct (add_order_stages (following c r) r w1 o HInv1 Hout1 Hr Hv)
      as (w3 & o3 & HInv3 & Hout3 & Hr3 & _ & Hk3 & Hf3 & _ & Hadd3); [|exact Hf|].
    { intros w0 tp m rest or go w0' Hat _ Hturn Hk HInv'.
      now apply (following_turn c r (other (own_side o)) w0 tp m rest or go w0'). }
    rewrite Hadd in Hadd3. injection Hadd3 as ->.
    now apply served_rested.
  - simpl step. destruct (objects w !! r) as [o|] eqn:Hr.
    + destruct (classic_resting w r) as [(o' & q & Hr' & Hg & Hin) | Hnot].
      * rewrite Hr in Hr'. injection Hr' as <-.
        destruct (proj2 (deque_remove_is_Some r q) Hin) as (q' & Hq).
        rewrite (remove_order_found r w o q q' Hr Hg Hq). simpl fst.
        now apply (served_after_cancel c r o q q' w).
      * now rewrite (remove_order_unknown r w o Hr Hnot).
    + now rewrite (remove_order_dangling r w Hr).
Qed.

Lemma run_served c ops :
  owner_truth c = true -> Forall valid_op ops -> served c (fst (run ops)).
Proof.
  intros Hc. apply (run_preserves (served c)); [apply served_empty|].
  intros x st. now apply served_step.
Qed.

(** X11: a client that is handed, in order, the updates the book delivers
    to it along any valid calls never fails in [receive_update] (no
    [KeyError] from [set.remove], no [TypeError] from hashing an order
    without identifier), and its [active_orders] end as the set of its orders
    that are POSTED or PARTIALLY_FILLED, each held once. *)
Theorem X11_active_orders_are_the_live_orders (ops : list op) (c : Owner) :
  Forall valid_op ops -> owner_truth c = true ->
  exists a,
    received (objects (fst (run ops))) c (inbox (fst (run ops))) [] = Active a /\
    NoDup a /\
    forall h x, (h, x) ∈ a <->
      exists o, objects (fst (run ops)) !! x = Some o /\ owner o = Some c /\
                order_id o = Some h /\ live (status o).
Proof.
  intros Hv Hc.
  pose proof (proj1 (run_balanced ops Hv)) as HInv.
  destruct (run_sound ops Hv) as (_ & _ & Hset).
  destruct (run_served c ops Hc Hv) as (_ & _ & a & Hrec & Hnd & Hm).
  exists a. splits; auto. intros h x. rewrite Hm. split.
  - intros [[s Hin] (o & Hx & Hw & Hi)]. exists o. splits; auto.
    destruct (inv_rests _ HInv _ _ Hin) as (o0 & E & _ & _ & Hl).
    rewrite Hx in E. now injection E as <-.
  - intros (o & Hx & Hw & Hi & Hl). split; [|exists o; splits; auto].
    destruct (Hset x o Hx) as [Hin | [[Hst _] | [Hst _]]]; [exact Hin | |];
      destruct Hl; congruence.
Qed.

Lemma X11_active_orders_are_the_live_orders_witness :
  exists a,
    received
      (objects (fst (run [Submit (Some 100) 1 SELL (Some (mkOwner 0 true))])))
      (mkOwner 0 true)
      (inbox (fst (run [Submit (Some 100) 1 SELL (Some (mkOwner 0 true))]))) []
    = Active a /\
    NoDup a /\
    forall h x, (h, x) ∈ a <->
      exists o,
        objects (fst (run [Submit (Some 100) 1 SELL (Some (mkOwner 0 true))])) !! x
        = Some o /\
        owner o = Some (mkOwner 0 true) /\ order_id o = Some h /\ live (status o).
Proof.
  apply (X11_active_orders_are_the_live_orders
           [Submit (Some 100) 1 SELL (Some (mkOwner 0 true))] (mkOwner 0 true));
    [valid_ops | reflexivity].
Defined.

(** X12: [Client.create_order] with a positive size on a well-formed book:
    with a positive price it returns the new order, the next of the store,
    and leaves the book well formed; with a price that is not positive it
    raises [ValueError] and nothing has changed. *)
Theorem X12_create_order (c : Owner) (q sz : Q) (sd : OrderSide)
    (vn : option nat) (w : World) :
  Inv w -> 0 < sz ->
  (0 < q ->
   exists w', create_order c q sz sd vn w = Ok (length (objects w)) w' /\
              Inv w' /\ length (objects w') = S (length (objects w))) /\
  (q <= 0 -> create_order c q sz sd vn w = Raise ValueError w).
Proof.
  intros HInv Hsz. unfold create_order.
  pose proof (Order_new_inv (Some q) sz sd vn (Some c) w) as Hnew.
  split; intros Hq.
  - destruct (Order_new (Some q) sz sd vn (Some c) w) as [r w1 | e w1 |] eqn:E;
      [| | contradiction].
    + destruct Hnew as (q0 & [= <-] & _ & -> & ->).
      set (o := mkOrder q sz sd (Some c) vn CREATED None) in *.
      set (w1 := mkWorld _ _ _) in *. set (r := length (objects w)) in *.
      assert (~ in_book w r) as Hout
        by (intros Hin; apply (in_book_lt _ _ HInv) in Hin; unfold r in Hin; lia).
      assert (objects w1 !! r = Some o) as Hr by apply list_lookup_middle, eq_refl.
      destruct (Inv_outside w w1 r HInv Hout) as (HInv1 & Hout1 & _).
      { intros x Hx. unfold w1. cbn [objects].
        destruct (decide (x < length (objects w))%nat) as [Hlt|Hge].
        - now apply lookup_app_l.
        - rewrite !lookup_ge_None_2; [reflexivity | unfold r in Hx; lia |].
          rewrite length_app. simpl. unfold r in Hx. lia. }
      { reflexivity. }
      destruct (add_order_ok r w1 o HInv1 Hout1 Hr Hsz) as (w2 & Hrun & HInv2 & Hlen & _).
      exists w2. unfold bind. rewrite E, Hrun. splits; auto.
      rewrite Hlen. unfold w1. cbn [objects]. rewrite length_app. simpl. lia.
    + destruct Hnew as (_ & _ & Hno). exfalso. apply Hno. now exists q.
  - destruct (Order_new (Some q) sz sd vn (Some c) w) as [r w1 | e w1 |] eqn:E;
      [| | contradiction].
    + destruct Hnew as (q0 & [= <-] & Hq0 & _). lra.
    + destruct Hnew as (-> & -> & _). unfold bind. now rewrite E.
Qed.

Lemma X12_create_order_witness :
  (0 < 100 ->
   exists w', create_order (mkOwner 0 true) 100 1 SELL None empty_world
              = Ok (length (objects empty_world)) w' /\
              Inv w' /\ length (objects w') = S (length (objects empty_world))) /\
  (100 <= 0 -> create_order (mkOwner 0 true) 100 1 SELL None empty_world
               = Raise ValueError empty_world).
Proof.
  apply (X12_create_order (mkOwner 0 true) 100 1 SELL None empty_world);
    [apply Inv_empty | reflexivity].
Defined.

(** ** The updates delivered *)

Lemma legal_mono w w' e :
  (forall x o, objects w !! x = Some o ->
     exists o', objects w' !! x = Some o' /\ owner o' = owner o) ->
  legal w e -> legal w' e.
Proof.
  intros HO [(o & Hx & Hw & Ht) Htr]. split; [|exact Htr].
  destruct (HO _ _ Hx) as (o' & Hx' & Hw'). exists o'. splits; congruence.
Qed.

Lemma legal_kept w w' e : kept w w' -> legal w e -> legal w' e.
Proof.
  intros (_ & HO & _). apply legal_mono. intros x o Hx.
  destruct (HO _ _ Hx) as (o' & Hx' & _ & _ & Hw & _). eauto.
Qed.

Lemma notes_legal w x ox st :
  objects w !! x = Some ox -> transition (status ox) st ->
  Forall (legal w) (notes ox x st).
Proof.
  intros Hx Htr. unfold notes. destruct (owner ox) as [ow|] eqn:Hw; [|constructor].
  destruct (owner_truth ow) eqn:Ht; [|constructor].
  constructor; [|constructor]. split; [|exact Htr].
  exists ox. simpl. splits; auto.
Qed.

Lemma all_legal_turn r s w tp m rest or go w' :
  at_turn r s tp m rest or w -> turn r m s tp rest w go w' -> kept w w' ->
  all_legal w -> all_legal w'.
Proof.
  intros Hat Hturn Hk Hl.
  pose proof (turn_ne r m s tp rest or w Hat) as Hne.
  destruct (turn_orders _ _ _ _ _ _ _ _ Hne Hturn)
    as (om & or0 & om' & or' & Hm & Hr & Hm' & Hr' & Hfill).
  assert (live (status or0)) as Hlr.
  { pose proof (turn_order _ _ _ _ _ _ _ Hat) as E. rewrite Hr in E.
    injection E as ->. apply (turn_unfilled _ _ _ _ _ _ _ Hat). }
  assert (live (status om)) as Hlm.
  { destruct (inv_rests _ (turn_Inv _ _ _ _ _ _ _ Hat) s m
                (turn_head_in r m s tp rest or w Hat)) as (o0 & E & _ & _ & Hl0).
    rewrite Hm in E. now injection E as <-. }
  assert (forall st, st = PARTIALLY_FILLED \/ st = FILLED ->
            Forall (legal w') (notes or0 r st) /\ Forall (legal w') (notes om m st))
    as Hnotes.
  { intros st Hst. split; (eapply Forall_impl; [|intros e; apply (legal_kept w w' e Hk)]).
    - apply notes_legal; [exact Hr|]. right. split; [exact Hlr|]. tauto.
    - apply notes_legal; [exact Hm|]. right. split; [exact Hlm|]. tauto. }
  assert (Forall (legal w') (inbox w)) as Hold
    by (eapply Forall_impl; [exact Hl | intros e; apply (legal_kept w w' e Hk)]).
  unfold all_legal.
  destruct Hfill as [(_ & _ & _ & _ & _ & _ & _ & ->)
                    | [(_ & _ & _ & _ & _ & _ & _ & ->)
                    | (_ & _ & _ & _ & _ & _ & _ & ->)]];
    rewrite !Forall_app; splits; auto; apply Hnotes; auto.
Qed.

Lemma kept_after_cancel r o q' w :
  objects w !! r = Some o -> kept w (after_cancel r o q' w).
Proof.
  intros Hr.
  assert (kept w (mkWorld (<[r := with_status o CANCELLED]> (objects w)) (lob w) (inbox w)))
    as Hk1 by (apply (kept_obj w r o); [exact Hr | repeat split]).
  unfold after_cancel. eapply kept_trans; [exact Hk1|].
  eapply kept_trans; [apply (kept_dict (mkWorld _ _ _)) | apply (kept_inbox (mkWorld _ _ _))].
Qed.

Lemma all_legal_step x st :
  valid_op x -> balanced st -> all_legal (fst st) -> all_legal (fst (step x st)).
Proof.
  destruct st as [w l]. intros Hv Hb Hs. simpl fst in Hs.
  pose proof (proj1 Hb) as HInv. simpl in HInv.
  destruct x as [p sz sd ow | r].
  - destruct (submit_stages w l p sz sd ow Hb Hv)
      as [(_ & ->) | (q & w2 & -> & Hq & HInv1 & Hout1 & Hadd & ->)]; [exact Hs|].
    set (o := mkOrder q sz sd ow None CREATED None) in *.
    set (w1 := mkWorld _ _ _) in *. set (r := length (objects w)) in *.
    assert (objects w1 !! r = Some o) as Hr by apply list_lookup_middle, eq_refl.
    assert (forall x ox, objects w !! x = Some ox ->
              exists o', objects (posted r o w1) !! x = Some o' /\ owner o' = owner ox)
      as Hext.
    { intros x ox Hx. exists ox. split; [|reflexivity].
      unfold posted, w1. cbn [objects].
      rewrite list_lookup_insert_ne
        by (apply lookup_lt_Some in Hx; unfold r; lia).
      now apply lookup_app_l_Some. }
    destruct (add_order_stages all_legal r w1 o HInv1 Hout1 Hr Hv)
      as (w3 & o3 & HInv3 & Hout3 & Hr3 & _ & Hk3 & Hf3 & _ & Hadd3).
    { intros w0 tp m rest or go w0' Hat _ Hturn Hk _.
      now apply (all_legal_turn r (other (own_side o)) w0 tp m rest or go w0'). }
    { unfold all_legal, posted. cbn [inbox]. fold (posted r o w1).
      rewrite Forall_app. split.
      - eapply Forall_impl; [exact Hs | intros e; now apply legal_mono].
      - eapply Forall_impl; [apply (notes_legal w1 r o POSTED Hr); now left|].
        intros e. apply legal_mono. intros x ox Hx.
        destruct (decide (x = r)) as [-> | Hne].
        + rewrite Hr in Hx. injection Hx as <-.
          exists (with_status (with_order_id o (fst (_new_order_id (lob w1)))) POSTED).
          split; [|reflexivity]. unfold posted. cbn [objects].
          apply list_lookup_insert_eq. eauto using lookup_lt_Some.
        + exists ox. split; [|reflexivity]. unfold posted. cbn [objects].
          now rewrite list_lookup_insert_ne by congruence. }
    rewrite Hadd in Hadd3. injection Hadd3 as ->.
    unfold all_legal, last_set, rested in *.
    destruct (Qeq_bool (size o3) 0); exact Hf3.
  - simpl step. destruct (objects w !! r) as [o|] eqn:Hr.
    + destruct (classic_resting w r) as [(o' & q & Hr' & Hg & Hin) | Hnot].
      * rewrite Hr in Hr'. injection Hr' as <-.
        destruct (proj2 (deque_remove_is_Some r q) Hin) as (q' & Hq).
        rewrite (remove_order_found r w o q q' Hr Hg Hq). simpl fst.
        pose proof (kept_after_cancel r o q' w Hr) as Hk.
        assert (live (status o)) as Hl.
        { assert (r ∈ sd_refs (dict (own_side o) (lob w))) as Hrin
            by (apply (sd_get_sub _ _ _ Hg); exact Hin).
          destruct (inv_rests _ HInv _ _ Hrin) as (o0 & E & _ & _ & Hl).
          rewrite Hr in E. now injection E as <-. }
        unfold all_legal. unfold after_cancel at 2. cbn [inbox].
        rewrite Forall_app. split;
          (eapply Forall_impl; [|intros e; apply (legal_kept w _ e Hk)]);
          [exact Hs|].
        apply notes_legal; [exact Hr|]. right. split; [exact Hl|]. tauto.
      * now rewrite (remove_order_unknown r w o Hr Hnot).
    + now rewrite (remove_order_dangling r w Hr).
Qed.

(** X13: every update the book delivers along valid calls went to the
    truthy owner of the order it is about, and tells a change of status the
    life of an order allows: CREATED to POSTED, or POSTED or PARTIALLY_FILLED
    to PARTIALLY_FILLED, FILLED or CANCELLED, [last_status] being the first
    and [status] the second. *)
Theorem X13_updates_tell_legal_changes (ops : list op) :
  Forall valid_op ops ->
  Forall (legal (fst (run ops))) (inbox (fst (run ops))).
Proof.
  apply (run_preserves all_legal); [constructor | apply all_legal_step].
Qed.

Lemma X13_updates_tell_legal_changes_witness :
  Forall (legal (fst (run [Submit (Some 100) 1 SELL (Some (mkOwner 0 true))])))
    (inbox (fst (run [Submit (Some 100) 1 SELL (Some (mkOwner 0 true))]))).
Proof.
  apply (X13_updates_tell_legal_changes
           [Submit (Some 100) 1 SELL (Some (mkOwner 0 true))]).
  valid_ops.
Defined.

(** ** An order that is cancelled before it trades *)

Lemma sd_put_put_get p v lvl d :
  sd_sorted d -> sd_get p d = Some lvl -> sd_put p lvl (sd_put p v d) = d.
Proof.
  induction d as [|[k x] d IH]; simpl; [discriminate|].
  intros [Hk Hd] Hg. destruct (Qcompare_spec p k) as [Heq | Hlt | Hgt].
  - replace (Qeq_bool p k) with true in Hg by (symmetry; now apply Qeq_bool_iff).
    injection Hg as ->. simpl.
    destruct (Qcompare_spec p k) as [_ | H | H]; [reflexivity | lra | lra].
  - replace (Qeq_bool p k) with false in Hg by (symmetry; apply Qeq_bool_false; lra).
    rewrite sd_get_above in Hg; [discriminate|].
    eapply Forall_impl; [exact Hk|]. simpl; intros; lra.
  - replace (Qeq_bool p k) with false in Hg by (symmetry; apply Qeq_bool_false; lra).
    simpl. destruct (Qcompare_spec p k) as [H | H | _]; [lra | lra |].
    now rewrite IH.
Qed.

(** Queueing an order at the tail of its level and taking it out again
    leaves the dictionary as it was. *)
Lemma replace_level_put p r d :
  sd_sorted d -> levels_nonempty d ->
  replace_level p (default [] (sd_get p d))
    (sd_put p (default [] (sd_get p d) ++ [r]) d) = d.
Proof.
  intros Hs Hne. destruct (sd_get p d) as [lvl|] eqn:Hg; simpl.
  - destruct lvl as [|y lvl].
    + exfalso. destruct (sd_get_key _ _ _ Hg) as (k' & Hin & _).
      unfold levels_nonempty in Hne. rewrite Forall_forall in Hne.
      now apply (Hne _ Hin).
    + simpl. now apply (sd_put_put_get p _ (y :: lvl)).
  - rewrite sd_del_put by (now apply sd_put_sorted).
    rewrite sd_del_put by exact Hs. now apply sd_del_none.
Qed.

Lemma deque_remove_last r l : r ∉ l -> deque_remove r (l ++ [r]) = Some l.
Proof.
  induction l as [|y l IH]; simpl; intros Hn.
  - now rewrite Nat.eqb_refl.
  - apply not_elem_of_cons in Hn as [Hne Hn].
    replace (Nat.eqb y r) with false by (symmetry; apply Nat.eqb_neq; congruence).
    now rewrite IH.
Qed.

(** X14: on a well-formed book, an order with a positive price and size
    that does not cross and is cancelled right away leaves [bids] and [asks]
    exactly as they were; the order stays in the store, CANCELLED, with its
    size and its identifier, and its owner, if truthy, has received the
    updates POSTED and CANCELLED, in this order. *)
Theorem X14_create_then_cancel (c : Owner) (q sz : Q) (sd : OrderSide)
    (vn : option nat) (w : World) :
  Inv w -> 0 < q -> 0 < sz ->
  crossing (mkOrder q sz sd (Some c) vn CREATED None) (lob w) = false ->
  exists w1 w2,
    create_order c q sz sd vn w = Ok (length (objects w)) w1 /\
    cancel_order (length (objects w)) w1 = Ok (length (objects w)) w2 /\
    bids (lob w2) = bids (lob w) /\ asks (lob w2) = asks (lob w) /\
    objects w2
    = objects w ++ [mkOrder q sz sd (Some c) vn CANCELLED
                      (Some (fst (_new_order_id (lob w))))] /\
    inbox w2
    = inbox w ++
      (if owner_truth c
       then [(c, mkOrderUpdate (length (objects w)) POSTED CREATED);
             (c, mkOrderUpdate (length (objects w)) CANCELLED POSTED)]
       else []).
Proof.
  intros HInv Hq Hsz Hcross.
  set (o := mkOrder q sz sd (Some c) vn CREATED None) in *.
  set (r := length (objects w)).
  set (w0 := mkWorld (objects w ++ [o]) (lob w) (inbox w)).
  set (o1 := with_status (with_order_id o (fst (_new_order_id (lob w)))) POSTED).
  set (wp := posted r o w0).
  set (s := own_side o). set (p := _convert_price o). set (d := dict s (lob w)).
  set (lvl := default [] (sd_get p d)).
  assert (Order_new (Some q) sz sd vn (Some c) w = Ok r w0) as Hnew.
  { pose proof (Order_new_inv (Some q) sz sd vn (Some c) w) as H.
    destruct (Order_new (Some q) sz sd vn (Some c) w) as [r' w' | e w' |];
      [| | contradiction].
    - now destruct H as (q0 & [= <-] & _ & -> & ->).
    - destruct H as (_ & _ & Hno). exfalso. apply Hno. now exists q. }
  assert (objects w0 !! r = Some o) as Hr0 by apply list_lookup_middle, eq_refl.
  assert (objects wp = objects w ++ [o1]) as Hobj.
  { unfold wp, posted, w0. cbn [objects lob]. unfold r.
    rewrite insert_app_r_alt by lia. now rewrite Nat.sub_diag. }
  assert (objects wp !! r = Some o1) as Hrp
    by (rewrite Hobj; apply list_lookup_middle, eq_refl).
  assert (Qeq_bool (size o1) 0 = false) as Hz
    by (apply Qeq_bool_false; simpl; lra).
  set (w1 := last_set r (rested r o1 wp)).
  assert (add_order r w0 = Ok true w1) as Hadd.
  { rewrite (add_order_eq _ _ _ Hr0).
    set (X := crossing _ _).
    assert (X = false) as ->
      by (rewrite <- Hcross; unfold X, crossing; simpl; now destruct sd).
    unfold bind at 1, ret at 1. fold wp.
    rewrite (bind_Ok _ _ _ _ _ (rest_order_eq _ _ _ Hrp)). reflexivity. }
  assert (sd_sorted d) as Hs by apply inv_sorted, HInv.
  assert (dict s (lob w1) = sd_put p (lvl ++ [r]) d) as Hd1.
  { unfold w1, last_set, rested. rewrite Hz. cbn [lob objects].
    change (own_side o1) with s. change (_convert_price o1) with p.
    unfold wp, posted, w0. cbn [lob].
    rewrite (dict_new_order_id s (lob w)). fold d. fold lvl.
    destruct s; simpl; reflexivity. }
  assert (r ∉ lvl) as Hnot.
  { intros Hin. unfold lvl in Hin.
    destruct (sd_get p d) as [l0|] eqn:Hg; simpl in Hin;
      [|apply elem_of_nil in Hin; contradiction].
    assert (in_book w r) as Hb by (exists s; apply (sd_get_sub _ _ _ Hg), Hin).
    apply (in_book_lt _ _ HInv) in Hb. unfold r in Hb. lia. }
  assert (objects w1 !! r = Some o1) as Hr1
    by (unfold w1, last_set, rested; rewrite Hz; exact Hrp).
  assert (remove_order r w1 = Ok true (after_cancel r o1 lvl w1)) as Hrem.
  { apply (remove_order_found r w1 o1 (lvl ++ [r]) lvl); auto.
    - change (own_side o1) with s. change (_convert_price o1) with p.
      rewrite Hd1. now apply sd_get_put_eq.
    - now apply deque_remove_last. }
  exists w1, (after_cancel r o1 lvl w1).
  assert (forall s0, dict s0 (lob (after_cancel r o1 lvl w1)) = dict s0 (lob w)) as Hdict.
  { intros s0. unfold after_cancel. cbn [lob].
    change (own_side o1) with s. change (_convert_price o1) with p.
    destruct (side_cases s s0) as [-> | ->].
    - rewrite dict_with_dict, Hd1. unfold lvl. fold d.
      apply replace_level_put; [exact Hs | apply inv_nonempty, HInv].
    - rewrite dict_with_dict_other. unfold w1, last_set, rested. rewrite Hz.
      cbn [lob]. change (own_side o1) with s.
      unfold wp, posted, w0. cbn [lob].
      destruct s; simpl; reflexivity. }
  splits.
  - unfold create_order, bind. now rewrite Hnew, Hadd.
  - unfold cancel_order, bind. now rewrite Hrem.
  - exact (Hdict BIDS).
  - exact (Hdict ASKS).
  - unfold after_cancel. cbn [objects]. unfold w1, last_set, rested. rewrite Hz.
    cbn [objects]. rewrite Hobj. unfold r.
    rewrite insert_app_r_alt by lia. now rewrite Nat.sub_diag.
  - unfold after_cancel. cbn [inbox]. unfold w1, last_set, rested. rewrite Hz.
    cbn [inbox]. unfold wp, posted, w0. cbn [inbox]. rewrite <- app_assoc.
    unfold notes. simpl. now destruct (owner_truth c).
Qed.

Lemma X14_create_then_cancel_witness :
  exists w1 w2,
    create_order (mkOwner 0 true) 100 1 SELL None empty_world
    = Ok (length (objects empty_world)) w1 /\
    cancel_order (length (objects empty_world)) w1
    = Ok (length (objects empty_world)) w2 /\
    bids (lob w2) = bids (lob empty_world) /\
    asks (lob w2) = asks (lob empty_world) /\
    objects w2
    = objects empty_world ++
      [mkOrder 100 1 SELL (Some (mkOwner 0 true)) None CANCELLED
         (Some (fst (_new_order_id (lob empty_world))))] /\
    inbox w2
    = inbox empty_world ++
      (if owner_truth (mkOwner 0 true)
       then [(mkOwner 0 true, mkOrderUpdate (length (objects empty_world)) POSTED CREATED);
             (mkOwner 0 true, mkOrderUpdate (length (objects empty_world)) CANCELLED POSTED)]
       else []).
Proof.
  apply (X14_create_then_cancel (mkOwner 0 true) 100 1 SELL None empty_world);
    [apply Inv_empty | reflexivity | reflexivity | reflexivity].
Defined.

(** X15: in a book reached by valid calls the keys of [bids] and of [asks]
    are strictly increasing, so a price has one level, and no order is
    queued twice, be it in one level, in two levels or on both sides. *)
Theorem X15_one_level_per_price_one_place_per_order (ops : list op) :
  Forall valid_op ops ->
  sd_sorted (bids (lob (fst (run ops)))) /\
  sd_sorted (asks (lob (fst (run ops)))) /\
  NoDup (sd_refs (bids (lob (fst (run ops)))) ++ sd_refs (asks (lob (fst (run ops))))).
Proof.
  intros Hv. pose proof (proj1 (run_balanced ops Hv)) as HInv.
  splits.
  - apply (inv_sorted _ HInv BIDS).
  - apply (inv_sorted _ HInv ASKS).
  - apply NoDup_app. splits.
    + apply (inv_nodup _ HInv BIDS).
    + intros x Hb Ha.
      destruct (inv_rests _ HInv BIDS x Hb) as (o & Hx & Hs & _).
      destruct (inv_rests _ HInv ASKS x Ha) as (o' & Hx' & Hs' & _).
      rewrite Hx in Hx'. injection Hx' as <-. simpl in *. congruence.
    + apply (inv_nodup _ HInv ASKS).
Qed.

Lemma X15_one_level_per_price_one_place_per_order_witness :
  bids (lob (fst (run (two_asks ++ [Submit (Some 99) 1 BUY None;
                                    Submit (Some 98) 1 BUY None]))))
  = [(- (99), [2%nat]); (- (98), [3%nat])] /\
  asks (lob (fst (run (two_asks ++ [Submit (Some 99) 1 BUY None;
                                    Submit (Some 98) 1 BUY None]))))
  = [(100, [0%nat]); (105, [1%nat])] /\
  sd_sorted (bids (lob (fst (run (two_asks ++ [Submit (Some 99) 1 BUY None;
                                               Submit (Some 98) 1 BUY None]))))) /\
  sd_sorted (asks (lob (fst (run (two_asks ++ [Submit (Some 99) 1 BUY None;
                                               Submit (Some 98) 1 BUY None]))))) /\
  NoDup (sd_refs (bids (lob (fst (run (two_asks ++ [Submit (Some 99) 1 BUY None;
                                                    Submit (Some 98) 1 BUY None])))))
         ++ sd_refs (asks (lob (fst (run (two_asks ++ [Submit (Some 99) 1 BUY None;
                                                       Submit (Some 98) 1 BUY None])))))).
Proof.
  split; [vm_compute; reflexivity|]. split; [vm_compute; reflexivity|].
  apply (X15_one_level_per_price_one_place_per_order
           (two_asks ++ [Submit (Some 99) 1 BUY None; Submit (Some 98) 1 BUY None])).
  unfold two_asks. simpl app. valid_ops.
Defined.

(** ** Time priority *)

Lemma sorted_snoc (l : list nat) r :
  Sorted.StronglySorted lt l -> Forall (fun x => (x < r)%nat) l ->
  Sorted.StronglySorted lt (l ++ [r]).
Proof.
  induction 1 as [|x l Hl IH Hx]; intros Hr; simpl.
  - repeat constructor.
  - inversion Hr as [|? ? Hxr Hlr]; subst. constructor; [now apply IH|].
    rewrite Forall_app. split; [exact Hx | repeat constructor; exact Hxr].
Qed.

Lemma sorted_drop (l1 l2 : list nat) x :
  Sorted.StronglySorted lt (l1 ++ (x :: l2)) -> Sorted.StronglySorted lt (l1 ++ l2).
Proof.
  induction l1 as [|y l1 IH]; simpl; intros H.
  - now inversion H.
  - inversion H as [|? ? Hs Hy]; subst. constructor; [now apply IH|].
    rewrite Forall_app in *. destruct Hy as [H1 H2]. split; [exact H1|].
    now inversion H2.
Qed.

Lemma replace_level_cases p q' d k q :
  sd_sorted d -> sd_get k (replace_level p q' d) = Some q ->
  (k == p /\ q = q') \/ (~ k == p /\ sd_get k d = Some q).
Proof.
  intros Hs H. destruct (Qeq_dec k p) as [E | E].
  - left. split; [exact E|].
    rewrite (sd_get_proper _ _ _ E), replace_level_get in H by exact Hs.
    destruct q'; [discriminate | now injection H as <-].
  - right. split; [exact E|]. now rewrite replace_level_get_ne in H.
Qed.

Lemma queued_in_order_turn r s w tp m rest or go w' :
  at_turn r s tp m rest or w -> turn r m s tp rest w go w' ->
  queued_in_order w -> queued_in_order w'.
Proof.
  intros Hat Hturn Hq s0 k q Hg.
  destruct (turn_head_only _ _ _ _ _ _ _ _ Hturn) as (_ & Hother & Hthis).
  destruct (side_cases s s0) as [-> | ->].
  - destruct Hthis as [E | E]; rewrite E in Hg; [exact (Hq _ _ _ Hg)|].
    apply replace_level_cases in Hg as [[_ ->] | [_ Hg]];
      [| exact (Hq _ _ _ Hg) | apply inv_sorted, Hat].
    pose proof (Hq _ _ _ (turn_level r m s tp rest or w Hat)) as Hs.
    now inversion Hs.
  - rewrite Hother in Hg. exact (Hq _ _ _ Hg).
Qed.

Lemma queued_in_order_rested r o w :
  Inv w -> ~ in_book w r -> length (objects w) = S r ->
  queued_in_order w -> queued_in_order (last_set r (rested r o w)).
Proof.
  intros HInv Hout Hlen Hq s0 k q Hg.
  assert (dict s0 (lob (last_set r (rested r o w))) = dict s0 (lob (rested r o w))) as E
    by now destruct s0.
  rewrite E in Hg. clear E. unfold rested in Hg.
  destruct (Qeq_bool (size o) 0); [exact (Hq _ _ _ Hg)|]. cbn [lob] in Hg.
  set (s := own_side o) in *. set (p := _convert_price o) in *.
  set (d := dict s (lob w)) in *.
  destruct (side_cases s s0) as [-> | ->].
  - rewrite dict_with_dict in Hg. destruct (Qeq_dec k p) as [Ek | Ek].
    + rewrite (sd_get_proper _ _ _ Ek), sd_get_put_eq in Hg by apply inv_sorted, HInv.
      injection Hg as <-. destruct (sd_get p d) as [lvl|] eqn:Hl; simpl.
      * apply sorted_snoc; [exact (Hq _ _ _ Hl)|].
        apply Forall_forall. intros x Hx.
        assert (in_book w x) as Hb by (exists s; apply (sd_get_sub _ _ _ Hl), Hx).
        pose proof (in_book_lt _ _ HInv Hb).
        assert (x <> r) by (intros ->; contradiction). lia.
      * repeat constructor.
    + rewrite sd_get_put_ne in Hg by exact Ek. exact (Hq _ _ _ Hg).
  - rewrite dict_with_dict_other in Hg. exact (Hq _ _ _ Hg).
Qed.

Lemma queued_in_order_step x st :
  valid_op x -> balanced st -> queued_in_order (fst st) ->
  queued_in_order (fst (step x st)).
Proof.
  destruct st as [w l]. intros Hv Hb Hs. simpl fst in Hs.
  pose proof (proj1 Hb) as HInv. simpl in HInv.
  destruct x as [p sz sd ow | r].
  - destruct (submit_stages w l p sz sd ow Hb Hv)
      as [(_ & ->) | (q & w2 & -> & Hq & HInv1 & Hout1 & Hadd & ->)]; [exact Hs|].
    set (o := mkOrder q sz sd ow None CREATED None) in *.
    set (w1 := mkWorld _ _ _) in *. set (r := length (objects w)) in *.
    assert (objects w1 !! r = Some o) as Hr by apply list_lookup_middle, eq_refl.
    destruct (add_order_stages queued_in_order r w1 o HInv1 Hout1 Hr Hv)
      as (w3 & o3 & HInv3 & Hout3 & Hr3 & _ & Hk3 & Hf3 & _ & Hadd3).
    { intros w0 tp m rest or go w0' Hat _ Hturn _ _.
      now apply (queued_in_order_turn r (other (own_side o)) w0 tp m rest or go w0'). }
    { intros s k l0 Hg. unfold posted, w1 in Hg. cbn [lob] in Hg.
      rewrite dict_new_order_id in Hg. exact (Hs _ _ _ Hg). }
    rewrite Hadd in Hadd3. injection Hadd3 as ->.
    apply queued_in_order_rested; auto.
    destruct Hk3 as (-> & _). unfold posted, w1. cbn [objects].
    rewrite length_insert, length_app. simpl. unfold r. lia.
  - simpl step. destruct (objects w !! r) as [o|] eqn:Hr.
    + destruct (classic_resting w r) as [(o' & q & Hr' & Hg & Hin) | Hnot].
      * rewrite Hr in Hr'. injection Hr' as <-.
        destruct (proj2 (deque_remove_is_Some r q) Hin) as (q' & Hq).
        rewrite (remove_order_found r w o q q' Hr Hg Hq). simpl fst.
        intros s0 k l0 Hl. unfold after_cancel in Hl. cbn [lob] in Hl.
        destruct (side_cases (own_side o) s0) as [-> | ->].
        -- rewrite dict_with_dict in Hl.
           apply replace_level_cases in Hl as [[_ ->] | [_ Hl]];
             [| exact (Hs _ _ _ Hl) | apply inv_sorted, HInv].
           destruct (deque_remove_split _ _ _ Hq) as (l1 & l2 & -> & -> & _).
           apply (sorted_drop l1 l2 r). exact (Hs _ _ _ Hg).
        -- rewrite dict_with_dict_other in Hl. exact (Hs _ _ _ Hl).
      * now rewrite (remove_order_unknown r w o Hr Hnot).
    + now rewrite (remove_order_dangling r w Hr).
Qed.

(** X16: in a book reached by valid calls every queue is in the order of
    arrival: from head to tail the orders were submitted one after the other
    (their references grow, and so do their identifiers), so the head of a
    level, which is the order the loop of [_match] takes, is the oldest of
    its level. *)
Theorem X16_queues_in_order_of_arrival (ops : list op) (s : book_side) (k : Q)
    (q : deque) :
  Forall valid_op ops ->
  sd_get k (dict s (lob (fst (run ops)))) = Some q ->
  Sorted.StronglySorted lt q /\
  forall m rest, q = m :: rest -> Forall (fun x => (m < x)%nat) rest.
Proof.
  intros Hv Hg.
  assert (queued_in_order (fst (run ops))) as H.
  { revert Hv. apply (run_preserves queued_in_order); [|apply queued_in_order_step].
    intros [] k0 q0; discriminate. }
  split; [exact (H _ _ _ Hg)|].
  intros m rest ->. pose proof (H _ _ _ Hg) as Hs. now inversion Hs.
Qed.

Lemma X16_queues_in_order_of_arrival_witness :
  sd_get 100 (dict ASKS (lob (fst (run same_price_asks)))) = Some [0%nat; 1%nat] /\
  Sorted.StronglySorted lt [0%nat; 1%nat] /\
  forall m rest, [0%nat; 1%nat] = m :: rest -> Forall (fun x => (m < x)%nat) rest.
Proof.
  assert (sd_get 100 (dict ASKS (lob (fst (run same_price_asks))))
          = Some [0%nat; 1%nat]) as H by (vm_compute; reflexivity).
  split; [exact H|].
  apply (X16_queues_in_order_of_arrival same_price_asks ASKS 100 [0%nat; 1%nat]);
    [unfold same_price_asks; valid_ops | exact H].
Defined.

(** ** When the loop stops *)

Lemma match_loop_exit r s cond fuel : forall tp top w or w',
  Inv w -> ~ in_book w r -> objects w !! r = Some or -> unfilled or ->
  peekitem (dict s (lob w)) = Some (tp, top) ->
  match_loop fuel r s cond tp top w = Ok tt w' ->
  (exists o', objects w' !! r = Some o' /\ size o' = 0) \/
  peekitem (dict s (lob w')) = None \/
  (exists tp' top', peekitem (dict s (lob w')) = Some (tp', top') /\
                    cond (Qabs tp') = false).
Proof.
  induction fuel as [|fuel IH]; intros tp top w or w' HInv Hout Hr Hun Hpeek Hrun;
    [discriminate|].
  simpl match_loop in Hrun. destruct (cond (Qabs tp)) eqn:Hc.
  2:{ injection Hrun as <-. right; right. eauto. }
  destruct top as [|m rest].
  { pose proof (inv_nonempty _ HInv s) as Hne.
    apply peekitem_in in Hpeek.
    unfold levels_nonempty in Hne. rewrite Forall_forall in Hne.
    now specialize (Hne _ Hpeek). }
  destruct (match_body_ok r s tp m rest w or HInv Hout Hr Hun Hpeek)
    as (go & w1 & Hbody & HInv1 & Hout1 & Hlen1 & Heff1 & Hfr1 & Hgo).
  rewrite (bind_Ok _ _ _ _ _ Hbody) in Hrun.
  destruct go.
  - destruct Hgo as [(o0 & or1 & E0 & Hr1 & Hp & Hs & Hun1) Hless].
    unfold bind, get_dict, get_book, ret in Hrun. simpl in Hrun.
    destruct (peekitem (dict s (lob w1))) as [[tp' top']|] eqn:Hpeek1.
    + exact (IH tp' top' w1 or1 w' HInv1 Hout1 Hr1 Hun1 Hpeek1 Hrun).
    + injection Hrun as <-. right; left. exact Hpeek1.
  - injection Hrun as <-. left.
    destruct Hgo as (o0 & or1 & _ & Hr1 & _ & _ & Hz). eauto.
Qed.

Lemma _match_exit r w o w' :
  Inv w -> ~ in_book w r -> objects w !! r = Some o -> unfilled o ->
  _match r w = Ok tt w' ->
  (exists o', objects w' !! r = Some o' /\ size o' = 0) \/
  peekitem (dict (other (own_side o)) (lob w')) = None \/
  (exists tp top, peekitem (dict (other (own_side o)) (lob w')) = Some (tp, top) /\
                  limit o (Qabs tp) = false).
Proof.
  intros HInv Hout Hr Hun Hrun. unfold _match in Hrun.
  rewrite (bind_Ok _ _ _ _ _ (read_eq _ _ _ Hr)) in Hrun.
  unfold bind at 1, get_dict, bind, get_book, ret in Hrun. cbn -[match_loop] in Hrun.
  replace (match side o with BUY => ASKS | SELL => BIDS end)
    with (other (own_side o)) in Hrun by (unfold own_side; now destruct (side o)).
  set (s := other (own_side o)) in *.
  destruct (peekitem (dict s (lob w))) as [[tp top]|] eqn:Hpeek.
  - destruct (match_loop_exit r s _ _ tp top w o w' HInv Hout Hr Hun Hpeek Hrun)
      as [H | [H | (tp' & top' & Hp & Hc)]]; auto.
    right; right. exists tp', top'. split; [exact Hp|].
    unfold limit. now destruct (side o).
  - injection Hrun as <-. auto.
Qed.

(** The crossing test reads the side and the price of the order and the
    dictionary of the other side. *)
Lemma crossing_ext o o' b b' :
  side o' = side o -> price o' = price o ->
  dict (other (own_side o)) b' = dict (other (own_side o)) b ->
  crossing o' b' = crossing o b.
Proof.
  intros Hs Hp Hd. unfold crossing, own_side in *. rewrite Hs, Hp.
  destruct (side o); simpl in Hd; now rewrite Hd.
Qed.

(** With the keys as [keyed] says and positive prices, the test of the loop
    on the top level is the crossing test. *)
Lemma crossing_limit o w tp top :
  Inv w -> keyed w -> priced w ->
  peekitem (dict (other (own_side o)) (lob w)) = Some (tp, top) ->
  crossing o (lob w) = limit o (Qabs tp).
Proof.
  intros HInv Hkey Hp Hpeek. set (s := other (own_side o)) in *.
  pose proof (peekitem_get _ _ _ (inv_sorted _ HInv s) Hpeek) as Hg.
  destruct top as [|x top].
  { pose proof (inv_nonempty _ HInv s) as Hne.
    apply peekitem_in in Hpeek.
    unfold levels_nonempty in Hne. rewrite Forall_forall in Hne.
    now specialize (Hne _ Hpeek). }
  destruct (Hkey s tp (x :: top) x Hg) as (ox & Hx & Hconv); [constructor|].
  assert (x ∈ sd_refs (dict s (lob w))) as Hin
    by (apply (sd_get_sub _ _ _ Hg); constructor).
  destruct (inv_rests _ HInv s x Hin) as (o0 & E & Hside & _).
  rewrite Hx in E. injection E as <-.
  pose proof (Hp _ _ Hx) as Hpos.
  unfold s in Hside. rewrite side_of_other in Hside.
  unfold _convert_price in Hconv. rewrite Hside in Hconv.
  unfold crossing, limit. unfold s, own_side in Hpeek.
  destruct (side o); simpl in *; rewrite Hpeek.
  - assert (Qabs tp == tp) as Ha by (rewrite <- Hconv; apply Qabs_pos; lra).
    destruct (Qle_bool tp (price o)) eqn:E1, (Qle_bool (Qabs tp) (price o)) eqn:E2;
      try reflexivity.
    + apply Qle_bool_iff in E1. apply not_true_iff_false in E2. exfalso. apply E2.
      apply Qle_bool_iff. lra.
    + apply Qle_bool_iff in E2. apply not_true_iff_false in E1. exfalso. apply E1.
      apply Qle_bool_iff. lra.
  - assert (Qabs tp == - tp) as Ha
      by (rewrite <- Hconv, Qabs_opp, Qopp_involutive; apply Qabs_pos; lra).
    destruct (Qle_bool (price o) (- tp)) eqn:E1, (Qle_bool (price o) (Qabs tp)) eqn:E2;
      try reflexivity.
    + apply Qle_bool_iff in E1. apply not_true_iff_false in E2. exfalso. apply E2.
      apply Qle_bool_iff. lra.
    + apply Qle_bool_iff in E2. apply not_true_iff_false in E1. exfalso. apply E1.
      apply Qle_bool_iff. lra.
Qed.

(** With exact arithmetic: if the new order is in the book after a valid
    submission, [_is_crossing] now answers [False] for it. *)
Lemma queued_does_not_cross (ops : list op) (q sz : Q)
    (sd : OrderSide) (ow : option Owner) :
  Forall valid_op ops -> 0 < q -> 0 < sz ->
  in_book (fst (step (Submit (Some q) sz sd ow) (run ops)))
    (length (objects (fst (run ops)))) ->
  _is_crossing (length (objects (fst (run ops))))
    (fst (step (Submit (Some q) sz sd ow) (run ops)))
  = Ok false (fst (step (Submit (Some q) sz sd ow) (run ops))).
Proof.
  intros Hv Hq Hsz.
  pose proof (run_balanced ops Hv) as Hb. pose proof (run_sound ops Hv) as Hs.
  destruct (run ops) as [w l]. cbn [fst] in *.
  pose proof (proj1 Hb) as HInv. cbn [fst] in HInv.
  destruct (submit_stages w l (Some q) sz sd ow Hb Hsz)
    as [([[=] | (q0 & [= <-] & Hq0)] & _)
       | (q0 & w2 & [= <-] & _ & HInv1 & Hout1 & Hadd & ->)]; [lra|].
  destruct (matching_posted w q sz sd ow None HInv Hs Hq Hsz) as ((Hkey & _) & Hp).
  set (o := mkOrder q sz sd ow None CREATED None) in *.
  set (w1 := mkWorld _ _ _) in *. set (r := length (objects w)) in *.
  assert (objects w1 !! r = Some o) as Hr by apply list_lookup_middle, eq_refl.
  destruct (add_order_trace keyed_and_priced r w1 o HInv1 Hout1 Hr Hsz)
    as (w3 & o3 & Hrun & HInv3 & Hout3 & Hr3 & _ & Hk3 & (Hkey3 & Hp3) & _ & Hadd3).
  { intros w0 tp m rest or go w0' Hat _ Hturn Hk HInv' (Hk0 & Hp0). split.
    - apply (keyed_sub w0); auto.
      now apply (turn_sublevels r m (other (own_side o)) tp rest or w0 w0' go).
    - now apply (priced_kept w0). }
  { now split. }
  rewrite Hadd in Hadd3. injection Hadd3 as ->.
  set (o1 := with_status (with_order_id o (fst (_new_order_id (lob w1)))) POSTED) in *.
  set (wp := posted r o w1) in *.
  assert (objects wp !! r = Some o1) as Hrp
    by (apply list_lookup_insert_eq; eauto using lookup_lt_Some).
  destruct (Inv_outside w1 wp r HInv1 Hout1) as (HInvp & Houtp & _).
  { intros x Hx. apply list_lookup_insert_ne. congruence. }
  { intros s. apply dict_new_order_id. }
  assert (side o3 = side o1 /\ price o3 = price o1) as [Hside Hprice].
  { destruct Hk3 as (_ & HO & _). destruct (HO _ _ Hrp) as (o3' & E & Hpr & Hsd & _).
    rewrite Hr3 in E. injection E as <-. now split. }
  intros Hin. apply in_book_last_set in Hin.
  assert (Qeq_bool (size o3) 0 = false) as Hz.
  { destruct (Qeq_bool (size o3) 0) eqn:E; [|reflexivity].
    unfold rested in Hin. rewrite E in Hin. contradiction. }
  set (wf := last_set r (rested r o3 w3)).
  assert (objects wf !! r = Some o3) as Hrf
    by (unfold wf, last_set, rested; rewrite Hz; exact Hr3).
  rewrite (_is_crossing_eq r wf o3 Hrf). f_equal.
  assert (dict (other (own_side o3)) (lob wf) = dict (other (own_side o3)) (lob w3)) as Hd.
  { unfold wf, last_set, rested. rewrite Hz. cbn [lob].
    destruct (own_side o3); reflexivity. }
  rewrite (crossing_ext o3 o3 (lob w3) (lob wf) eq_refl eq_refl Hd).
  assert (own_side o3 = own_side o1) as Hown by (unfold own_side; now rewrite Hside).
  destruct (crossing o1 (snd (_new_order_id (lob w1)))) eqn:Hc.
  - assert (unfilled o1) as Hun1 by (split; [exact Hsz | now left]).
    destruct (_match_exit r wp o1 w3 HInvp Houtp Hrp Hun1 Hrun)
      as [(o' & E & Hz') | [Hnone | (tp & top & Hpeek & Hlim)]].
    + rewrite Hr3 in E. injection E as <-. rewrite Hz' in Hz. discriminate.
    + unfold crossing. rewrite <- Hown in Hnone. unfold own_side in Hnone.
      destruct (side o3); simpl in Hnone; now rewrite Hnone.
    + rewrite <- Hown in Hpeek.
      rewrite (crossing_limit o3 w3 tp top HInv3 Hkey3 Hp3 Hpeek).
      unfold limit in *. now rewrite Hside, Hprice.
  - injection Hrun as <-. rewrite Hrp in Hr3. injection Hr3 as <-. exact Hc.
Qed.

(** ** First in, first out *)

Lemma heads_taken_refl s w :
  Inv w -> heads_taken s w w.
Proof.
  intros HInv k q Hg. exists [], q. splits; auto.
  - destruct q; [|exact Hg]. exfalso.
    destruct (sd_get_key _ _ _ Hg) as (k' & Hin & _).
    pose proof (inv_nonempty _ HInv s) as Hne.
    unfold levels_nonempty in Hne. rewrite Forall_forall in Hne.
    now apply (Hne _ Hin).
  - intros x Hx. apply elem_of_nil in Hx. contradiction.
Qed.

Lemma heads_taken_turn r s w0 w tp m rest or go w' :
  at_turn r s tp m rest or w -> turn r m s tp rest w go w' -> Inv w' ->
  (forall x, in_book w0 x -> x <> r) ->
  heads_taken s w0 w -> heads_taken s w0 w'.
Proof.
  intros Hat Hturn HInv' Hr0 Hht k q Hg.
  pose proof (turn_Inv _ _ _ _ _ _ _ Hat) as HInv.
  pose proof (turn_ne r m s tp rest or w Hat) as Hne.
  pose proof (turn_level r m s tp rest or w Hat) as Hlevel.
  destruct (Hht k q Hg) as (filled & left & -> & Hleft & Hfilled & Htail).
  destruct (turn_head_only _ _ _ _ _ _ _ _ Hturn) as (Hsame & _ & Hthis).
  destruct (turn_orders _ _ _ _ _ _ _ _ Hne Hturn)
    as (om & or0 & om' & or' & Hm & Hr & Hm' & Hr' & Hfill).
  assert (forall x, x ∈ filled -> x <> m /\ x <> r) as Hfne.
  { intros x Hx. split.
    - intros ->. destruct (Hfilled _ Hx) as (o' & Ho' & Hst & _).
      destruct (inv_rests _ HInv s m (turn_head_in r m s tp rest or w Hat))
        as (o0 & E & _ & _ & Hl).
      rewrite Ho' in E. injection E as <-. destruct Hl; congruence.
    - apply Hr0. exists s. apply (sd_get_sub _ _ _ Hg), elem_of_app. now left. }
  assert (forall x, x ∈ filled ->
            exists o', objects w' !! x = Some o' /\ status o' = FILLED /\ size o' = 0)
    as Hfilled'.
  { intros x Hx. destruct (Hfne x Hx) as [Hxm Hxr].
    rewrite Hsame by assumption. now apply Hfilled. }
  assert (forall x, x ∈ left -> x <> r) as Hlr.
  { intros x Hx. apply Hr0. exists s. apply (sd_get_sub _ _ _ Hg), elem_of_app. now right. }
  (* the level of [k] is the level the turn takes from, or another one *)
  destruct (Qeq_dec k tp) as [Ek | Ek].
  - (* the same level: [left] is [m :: rest] *)
    rewrite (sd_get_proper _ _ _ Ek), Hlevel in Hleft.
    destruct left as [|m0 left0]; [discriminate|]. injection Hleft as E1 E2.
    subst m0 left0.
    destruct Hthis as [Hd | Hd].
    + (* the head stays *)
      exists filled, (m :: rest). splits; auto.
      * now rewrite Hd, (sd_get_proper _ _ _ Ek).
      * intros x Hx. simpl in Hx. rewrite <- Htail by exact Hx.
        apply Hsame; [apply Hlr; now right|].
        intros ->. pose proof (inv_nodup _ HInv s) as Hnd.
        rewrite (sd_refs_get _ _ _ Hlevel) in Hnd.
        apply NoDup_app in Hnd as (Hnd & _). apply NoDup_cons in Hnd as [Hnot _].
        contradiction.
    + (* the head is taken *)
      exists (filled ++ [m]), rest. splits.
      * now rewrite <- app_assoc.
      * rewrite Hd, (sd_get_proper _ _ _ Ek).
        apply replace_level_get, inv_sorted, HInv.
      * intros x Hx. apply elem_of_app in Hx as [Hx | Hx]; [now apply Hfilled'|].
        apply list_elem_of_singleton in Hx as ->.
        exists om'. split; [exact Hm'|].
        destruct Hfill as [(_ & _ & Hst & Hz & _) | [(_ & _ & _ & _ & _ & _ & Hd' & _)
                          | (_ & _ & Hst & Hz & _)]]; [now split | | now split].
        exfalso. rewrite Hd' in Hd.
        assert (sd_get tp (replace_level tp rest (dict s (lob w))) = Some (m :: rest)) as E
          by now rewrite <- Hd.
        rewrite replace_level_get in E by apply inv_sorted, HInv.
        pose proof (inv_nodup _ HInv s) as Hnd.
        rewrite (sd_refs_get _ _ _ Hlevel) in Hnd.
        apply NoDup_app in Hnd as (Hnd & _). apply NoDup_cons in Hnd as [Hnot _].
        destruct rest; [discriminate|]. injection E as E1 E2.
        apply Hnot. rewrite <- E1. constructor.
      * intros x Hx.
        assert (x ∈ rest) as Hxr by (destruct rest; [apply elem_of_nil in Hx; contradiction | now right]).
        rewrite <- Htail by (simpl; exact Hxr).
        apply Hsame; [apply Hlr; now right|].
        intros ->. pose proof (inv_nodup _ HInv s) as Hnd.
        rewrite (sd_refs_get _ _ _ Hlevel) in Hnd.
        apply NoDup_app in Hnd as (Hnd & _). apply NoDup_cons in Hnd as [Hnot _].
        contradiction.
  - (* another level *)
    exists filled, left. splits; auto.
    + destruct Hthis as [Hd | Hd]; rewrite Hd; [exact Hleft|].
      now rewrite replace_level_get_ne.
    + intros x Hx. rewrite <- Htail by exact Hx.
      assert (x ∈ left) as Hxl by (destruct left; [apply elem_of_nil in Hx; contradiction | now right]).
      apply Hsame; [now apply Hlr|].
      intros ->.
      (* [m] is in the level of [tp], not in the level of [k] *)
      destruct left as [|y left0]; [apply elem_of_nil in Hxl; contradiction|].
      pose proof (inv_nodup _ HInv s) as Hnd.
      rewrite (sd_refs_get _ _ _ Hlevel) in Hnd.
      apply NoDup_app in Hnd as (_ & Hdis & _).
      apply (Hdis m); [constructor|].
      assert (sd_get k (sd_del tp (dict s (lob w))) = Some (y :: left0)) as Hk
        by now rewrite sd_get_del_ne.
      apply (sd_get_sub _ _ _ Hk). exact Hxl.
Qed.

Lemma run_queued_in_order ops :
  Forall valid_op ops -> queued_in_order (fst (run ops)).
Proof.
  apply (run_preserves queued_in_order); [|apply queued_in_order_step].
  intros [] k0 q0; discriminate.
Qed.

(** A submission takes the orders of a level from its head on. *)
Lemma submit_heads_taken ops q sz sd ow k lvl :
  Forall valid_op ops -> 0 < sz ->
  sd_get k (dict (other (own_side (mkOrder q sz sd ow None CREATED None)))
              (lob (fst (run ops)))) = Some lvl ->
  Sorted.StronglySorted lt lvl /\
  exists filled left,
    lvl = filled ++ left /\
    sd_get k (dict (other (own_side (mkOrder q sz sd ow None CREATED None)))
                (lob (fst (step (Submit (Some q) sz sd ow) (run ops)))))
    = match left with [] => None | _ :: _ => Some left end /\
    (forall x, x ∈ filled ->
       exists o', objects (fst (step (Submit (Some q) sz sd ow) (run ops))) !! x
                  = Some o' /\ status o' = FILLED /\ size o' = 0) /\
    (forall x, x ∈ left ->
       exists o', objects (fst (step (Submit (Some q) sz sd ow) (run ops))) !! x
                  = Some o' /\ live (status o')) /\
    (forall x, x ∈ tail left ->
       objects (fst (step (Submit (Some q) sz sd ow) (run ops))) !! x
       = objects (fst (run ops)) !! x).
Proof.
  intros Hv Hsz Hg. split; [exact (run_queued_in_order ops Hv _ _ _ Hg)|].
  pose proof (run_balanced ops Hv) as Hb.
  assert (balanced (step (Submit (Some q) sz sd ow) (run ops))) as Hb'
    by (apply step_balanced; [exact Hsz | exact Hb]).
  pose proof (proj1 Hb') as HInv'.
  set (s := other (own_side (mkOrder q sz sd ow None CREATED None))) in *.
  enough (heads_taken s (fst (run ops)) (fst (step (Submit (Some q) sz sd ow) (run ops))))
    as Hht.
  { destruct (Hht k lvl Hg) as (filled & left & Hq & Hleft & Hfilled & Htail).
    exists filled, left. splits; auto.
    intros x Hx.
    assert (x ∈ sd_refs (dict s (lob (fst (step (Submit (Some q) sz sd ow) (run ops))))))
      as Hin.
    { destruct left as [|y left0]; [apply elem_of_nil in Hx; contradiction|].
      exact (sd_get_sub _ _ _ Hleft _ Hx). }
    destruct (inv_rests _ HInv' _ _ Hin) as (o' & Ho' & _ & _ & Hl). eauto. }
  clear HInv' Hb' Hg. clear k lvl. destruct (run ops) as [w l]. cbn [fst] in *.
  pose proof (proj1 Hb) as HInv. cbn [fst] in HInv.
  destruct (submit_stages w l (Some q) sz sd ow Hb Hsz)
    as [(_ & ->) | (q0 & w2 & [= <-] & Hq & HInv1 & Hout1 & Hadd & ->)];
    [now apply heads_taken_refl|].
  set (o := mkOrder q sz sd ow None CREATED None) in *.
  set (w1 := mkWorld _ _ _) in *. set (r := length (objects w)) in *.
  assert (objects w1 !! r = Some o) as Hr by apply list_lookup_middle, eq_refl.
  set (wp := posted r o w1).
  destruct (Inv_outside w1 wp r HInv1 Hout1) as (HInvp & Houtp & _).
  { intros x Hx. apply list_lookup_insert_ne. congruence. }
  { intros s0. apply dict_new_order_id. }
  destruct (add_order_stages (heads_taken s wp) r w1 o HInv1 Hout1 Hr Hsz)
    as (w3 & o3 & HInv3 & Hout3 & Hr3 & _ & Hk3 & Hht & _ & Hadd3).
  { intros w0 tp m rest or go w0' Hat _ Hturn _ HInv0'.
    apply (heads_taken_turn r s wp w0 tp m rest or go w0'); auto.
    intros x Hx ->. contradiction. }
  { now apply heads_taken_refl. }
  rewrite Hadd in Hadd3. injection Hadd3 as ->.
  intros k lvl Hg.
  assert (dict s (lob wp) = dict s (lob w)) as Hdp by apply dict_new_order_id.
  rewrite <- Hdp in Hg.
  destruct (Hht k lvl Hg) as (filled & left & Hq' & Hleft & Hfilled & Htail).
  assert (objects (last_set r (rested r o3 w3)) = objects w3) as Hobj
    by (unfold last_set, rested; now destruct (Qeq_bool (size o3) 0)).
  assert (dict s (lob (last_set r (rested r o3 w3))) = dict s (lob w3)) as Hd.
  { assert (own_side o3 = own_side o) as Hown.
    { destruct Hk3 as (_ & HO & _).
      assert (objects wp !! r
              = Some (with_status (with_order_id o (fst (_new_order_id (lob w1)))) POSTED))
        as Hrp by (apply list_lookup_insert_eq; eauto using lookup_lt_Some).
      destruct (HO _ _ Hrp) as (o3' & E & _ & Hsd & _).
      rewrite Hr3 in E. injection E as <-. unfold own_side. now rewrite Hsd. }
    unfold last_set, rested. destruct (Qeq_bool (size o3) 0).
    - now destruct s.
    - cbn [lob]. rewrite Hown. unfold s.
      destruct (own_side o); reflexivity. }
  exists filled, left. rewrite Hobj, Hd. splits; auto.
  intros x Hx. rewrite (Htail x Hx).
  assert (x ∈ lvl) as Hxl.
  { rewrite Hq'. apply elem_of_app. right.
    destruct left; [apply elem_of_nil in Hx; contradiction | now right]. }
  assert (in_book w x) as Hbx.
  { exists s. rewrite Hdp in Hg. exact (sd_get_sub _ _ _ Hg _ Hxl). }
  pose proof (in_book_lt _ _ HInv Hbx) as Hlt.
  unfold wp, posted, w1. cbn [objects].
  rewrite list_lookup_insert_ne by (unfold r; lia).
  now apply lookup_app_l.
Qed.

(** C5: a submitted order of which something is left is put at the tail of
    the queue of its price, the other levels of its side unchanged; every
    queue of the other side was in the order of arrival, and what the
    submission has taken from it, through all the turns of the loop of
    [_match], is a first part of it: the orders taken are FILLED, those that
    are left form the queue now, and only the first of them can have been
    touched.  With two SELL orders of size 1 at 100, a BUY of size 1 at 100
    fills the first and leaves the second as it was; with three and a BUY of
    size 2, it fills the first two and leaves the third as it was. *)
Theorem C5_fifo_within_level :
  (forall ops q sz sd ow,
     Forall valid_op ops -> 0 < sz -> 0 < q ->
     queued_last (length (objects (fst (run ops))))
                 (mkOrder q sz sd ow None CREATED None)
                 (fst (run ops))
                 (fst (step (Submit (Some q) sz sd ow) (run ops)))) /\
  (forall ops q sz sd ow k lvl,
     Forall valid_op ops -> 0 < sz ->
     sd_get k (dict (other (own_side (mkOrder q sz sd ow None CREATED None)))
                 (lob (fst (run ops)))) = Some lvl ->
     taken_from_head (other (own_side (mkOrder q sz sd ow None CREATED None))) k lvl
       (fst (run ops)) (fst (step (Submit (Some q) sz sd ow) (run ops)))) /\
  (let w := fst (run same_price_asks) in
   let w' := fst (run (same_price_asks ++ [Submit (Some 100) 1 BUY None])) in
   asks (lob w) = [(100, [0%nat; 1%nat])] /\
   asks (lob w') = [(100, [1%nat])] /\ bids (lob w') = [] /\
   objects w' !! 0%nat = Some (mkOrder 100 0 SELL None None FILLED (Some 11%N)) /\
   objects w' !! 1%nat = Some (mkOrder 100 1 SELL None None POSTED (Some 12%N)) /\
   objects w' !! 2%nat = Some (mkOrder 100 0 BUY None None FILLED (Some 13%N))) /\
  (let w := fst (run three_asks) in
   let w' := fst (run (three_asks ++ [Submit (Some 100) 2 BUY None])) in
   asks (lob w) = [(100, [0%nat; 1%nat; 2%nat])] /\
   asks (lob w') = [(100, [2%nat])] /\ bids (lob w') = [] /\
   objects w' !! 0%nat = Some (mkOrder 100 0 SELL None None FILLED (Some 11%N)) /\
   objects w' !! 1%nat = Some (mkOrder 100 0 SELL None None FILLED (Some 12%N)) /\
   objects w' !! 2%nat = Some (mkOrder 100 1 SELL None None POSTED (Some 13%N)) /\
   objects w' !! 3%nat = Some (mkOrder 100 0 BUY None None FILLED (Some 14%N))).
Proof.
  splits.
  - intros ops q sz sd ow Hv Hsz Hq. now apply submit_queued_last.
  - intros ops q sz sd ow k lvl Hv Hsz Hg. now apply submit_heads_taken.
  - vm_compute. splits; reflexivity.
  - vm_compute. splits; reflexivity.
Qed.

Lemma C5_fifo_within_level_witness :
  sd_get 100 (dict ASKS (lob (fst (run three_asks)))) = Some [0%nat; 1%nat; 2%nat] /\
  taken_from_head ASKS 100 [0%nat; 1%nat; 2%nat]
    (fst (run three_asks))
    (fst (step (Submit (Some 100) 2 BUY None) (run three_asks))).
Proof.
  assert (sd_get 100 (dict ASKS (lob (fst (run three_asks))))
          = Some [0%nat; 1%nat; 2%nat]) as H by (vm_compute; reflexivity).
  split; [exact H|].
  apply (proj1 (proj2 C5_fifo_within_level) three_asks 100 2 BUY None 100
           [0%nat; 1%nat; 2%nat]);
    [unfold three_asks; valid_ops | reflexivity | exact H].
Defined.

(** ** The rounding of the context leaves 28 digits as they are *)

Lemma pow10_pos e : (0 < 10 ^ e \/ e < 0)%Z.
Proof. destruct (Z_lt_le_dec e 0); [now right | left; now apply Z.pow_pos_nonneg]. Qed.

Lemma inject_pow10_pos e : (0 <= e)%Z -> 0 < inject_Z (10 ^ e).
Proof.
  intros H. change 0 with (inject_Z 0). rewrite <- Zlt_Qlt.
  now apply Z.pow_pos_nonneg.
Qed.

Lemma round_half_even_Z c z : c == inject_Z z -> round_half_even c = z.
Proof.
  intros H. unfold round_half_even.
  assert (Qfloor c = z) as -> by (rewrite H; apply Qfloor_Z).
  assert (Qcompare (c - inject_Z z) (1 # 2) = Lt) as ->; [|reflexivity].
  change (c - inject_Z z < 1 # 2). rewrite H. lra.
Qed.

Lemma Qabs_scale_pos x t : 0 < t -> Qabs (x * t) == Qabs x * t.
Proof. intros H. rewrite Qabs_Qmult, (Qabs_pos t); [reflexivity | lra]. Qed.

Lemma Qabs_inject n : Qabs (inject_Z n) == inject_Z (Z.abs n).
Proof. unfold Qabs, inject_Z. reflexivity. Qed.

Lemma nearest_grid k x : grid k x -> nearest x == x.
Proof.
  intros (n & Hn & Hx). unfold nearest.
  destruct (List.find (coefficient_ok x) (exponent_candidates x)) as [e|] eqn:Hf;
    [|reflexivity].
  apply List.find_some in Hf as [_ Hok]. unfold coefficient_ok in Hok.
  apply andb_true_iff in Hok as [Hlo _]. apply Qle_bool_iff in Hlo.
  set (K := Z.of_nat k) in *.
  assert (0 <= K)%Z as HK by (unfold K; lia).
  pose proof (inject_pow10_pos K HK) as HpK.
  assert (Qabs x == inject_Z (Z.abs n) / inject_Z (10 ^ K)) as Hax.
  { rewrite Hx. unfold Qdiv. rewrite Qabs_scale_pos, Qabs_inject; [reflexivity|].
    now apply Qinv_lt_0_compat. }
  assert (e <= - K)%Z as He.
  { destruct (Z_le_gt_dec e (- K)) as [H | H]; [exact H | exfalso].
    unfold scale10 in Hlo. destruct (0 <=? - e)%Z eqn:E.
    - apply Z.leb_le in E.
      pose proof (inject_pow10_pos (- e) E) as Hpe.
      rewrite Qabs_scale_pos, Hax in Hlo by exact Hpe.
      assert (inject_Z (10 ^ 27) * inject_Z (10 ^ K)
              <= inject_Z (Z.abs n) * inject_Z (10 ^ (- e))) as H1.
      { apply (Qmult_le_r _ _ (/ inject_Z (10 ^ K)));
          [now apply Qinv_lt_0_compat|].
        field_simplify; [|lra|lra]. field_simplify in Hlo; [|lra]. exact Hlo. }
      rewrite <- !inject_Z_mult, <- Zle_Qle in H1.
      replace K with ((- e) + (K + e))%Z in H1 at 1 by lia.
      rewrite Z.pow_add_r in H1 by lia.
      assert (0 < 10 ^ (- e))%Z by now apply Z.pow_pos_nonneg.
      assert (10 <= 10 ^ (K + e))%Z.
      { change 10%Z with (10 ^ 1)%Z at 1. apply Z.pow_le_mono_r; lia. }
      change (10 ^ 28)%Z with (10 ^ 27 * 10)%Z in Hn. nia.
    - apply Z.leb_gt in E. rewrite Z.opp_involutive in Hlo.
      assert (0 < e)%Z as Hepos by lia.
      pose proof (inject_pow10_pos e (Z.lt_le_incl _ _ Hepos)) as Hpe.
      unfold Qdiv in Hlo. rewrite Qabs_scale_pos, Hax in Hlo
        by now apply Qinv_lt_0_compat.
      assert (inject_Z (10 ^ 27) * (inject_Z (10 ^ K) * inject_Z (10 ^ e))
              <= inject_Z (Z.abs n)) as H1.
      { apply (Qmult_le_r _ _ (/ (inject_Z (10 ^ K) * inject_Z (10 ^ e)))).
        - apply Qinv_lt_0_compat. nra.
        - field_simplify; [|lra|lra]. field_simplify in Hlo; [|lra]. exact Hlo. }
      rewrite <- !inject_Z_mult, <- Zle_Qle in H1.
      assert (1 <= 10 ^ K)%Z by (pose proof (Z.pow_pos_nonneg 10 K); lia).
      assert (10 <= 10 ^ e)%Z.
      { change 10%Z with (10 ^ 1)%Z at 1. apply Z.pow_le_mono_r; lia. }
      change (10 ^ 28)%Z with (10 ^ 27 * 10)%Z in Hn. nia. }
  assert (0 <= - e)%Z as Hne by lia.
  pose proof (inject_pow10_pos (- e) Hne) as Hpe.
  assert (scale10 x (- e) == inject_Z (n * 10 ^ (- e - K))) as Hc.
  { unfold scale10. replace (0 <=? - e)%Z with true by (symmetry; now apply Z.leb_le).
    rewrite Hx, inject_Z_mult.
    replace (- e)%Z with (K + (- e - K))%Z at 1 by lia.
    rewrite Z.pow_add_r, inject_Z_mult by lia.
    field. lra. }
  rewrite (round_half_even_Z _ _ Hc).
  unfold scale10. destruct (0 <=? e)%Z eqn:E.
  - apply Z.leb_le in E. assert (e = 0%Z) as -> by lia.
    assert (k = 0%nat) as -> by (unfold K in *; lia).
    rewrite Hx. unfold K. simpl Z.of_nat. simpl Z.opp. simpl Z.sub. simpl Z.pow.
    rewrite Z.mul_1_r. change (inject_Z (10 ^ 0)) with 1.
    change (inject_Z (10 ^ Z.of_nat 0)) with 1. field.
  - rewrite Hx, inject_Z_mult.
    replace (- e)%Z with (K + (- e - K))%Z at 2 by lia.
    rewrite Z.pow_add_r, inject_Z_mult by lia.
    assert (0 < inject_Z (10 ^ (- e - K))) by (apply inject_pow10_pos; lia).
    field. split; lra.
Qed.

(** The context leaves a decimal it can hold as it is. *)
Lemma round_ctx_grid k x : grid k x -> round_ctx x = x.
Proof.
  intros H. unfold round_ctx.
  replace (Qeq_bool (nearest x) x) with true; [reflexivity|].
  symmetry. apply Qeq_bool_iff. now apply (nearest_grid k).
Qed.

Lemma round_ctx_eq x : round_ctx x == nearest x.
Proof.
  unfold round_ctx. destruct (Qeq_bool (nearest x) x) eqn:E; [|reflexivity].
  apply Qeq_bool_iff in E. now symmetry.
Qed.

(** ** Decimals on a grid *)

Lemma grid_proper k x y : x == y -> grid k x -> grid k y.
Proof. intros E (n & Hn & Hx). exists n. split; [exact Hn | now rewrite <- E]. Qed.

Lemma grid_0 k : grid k 0.
Proof.
  exists 0%Z. split; [reflexivity|].
  pose proof (inject_pow10_pos (Z.of_nat k) (Nat2Z.is_nonneg k)) as H.
  change (inject_Z 0) with 0. field. lra.
Qed.

Lemma grid_opp k x : grid k x -> grid k (- x).
Proof.
  intros (n & Hn & Hx). exists (- n)%Z. split; [now rewrite Z.abs_opp|].
  pose proof (inject_pow10_pos (Z.of_nat k) (Nat2Z.is_nonneg k)) as H.
  rewrite Hx, inject_Z_opp. field. lra.
Qed.

Lemma grid_abs k x : grid k x -> grid k (Qabs x).
Proof.
  intros H. apply Qabs_case; intros _; [exact H | now apply grid_opp].
Qed.

Lemma grid_numerator k x n :
  x == inject_Z n / inject_Z (10 ^ Z.of_nat k) -> 0 <= x -> (0 <= n)%Z.
Proof.
  intros Hx H0.
  pose proof (inject_pow10_pos (Z.of_nat k) (Nat2Z.is_nonneg k)) as H.
  destruct (Z_lt_le_dec n 0) as [Hneg|]; [|assumption]. exfalso.
  assert (inject_Z n < 0) as Hn by (change 0 with (inject_Z 0); now rewrite <- Zlt_Qlt).
  assert (x * inject_Z (10 ^ Z.of_nat k) == inject_Z n) as E
    by (rewrite Hx; field; lra).
  assert (0 <= x * inject_Z (10 ^ Z.of_nat k)) by (apply Qmult_le_0_compat; lra).
  lra.
Qed.

Lemma grid_sub k a b :
  grid k a -> grid k b -> 0 <= a -> 0 <= b -> grid k (a - b).
Proof.
  intros (n & Hn & Ha) (m & Hm & Hb) Ha0 Hb0.
  pose proof (grid_numerator k a n Ha Ha0). pose proof (grid_numerator k b m Hb Hb0).
  pose proof (inject_pow10_pos (Z.of_nat k) (Nat2Z.is_nonneg k)) as Hpos.
  exists (n - m)%Z. split; [lia|].
  rewrite Ha, Hb. unfold Zminus. rewrite inject_Z_plus, inject_Z_opp. field. lra.
Qed.

Lemma keys_on_put k p v d : keys_on k d -> grid k p -> keys_on k (sd_put p v d).
Proof.
  intros Hd Hp. induction d as [|[k0 x] d IH]; simpl.
  - now repeat constructor.
  - inversion Hd as [|? ? H0 Hd']; subst. destruct (p ?= k0).
    + now constructor.
    + constructor; [exact Hp | now constructor].
    + constructor; [exact H0 | now apply IH].
Qed.

Lemma keys_on_del k p d : keys_on k d -> keys_on k (sd_del p d).
Proof.
  intros Hd. induction d as [|[k0 x] d IH]; simpl; [constructor|].
  inversion Hd as [|? ? H0 Hd']; subst.
  destruct (Qeq_bool p k0); [exact Hd' | constructor; [exact H0 | now apply IH]].
Qed.

Lemma keys_on_replace k p q d : keys_on k d -> grid k p -> keys_on k (replace_level p q d).
Proof.
  intros Hd Hp. unfold replace_level.
  destruct q; [apply keys_on_del|]; now apply keys_on_put.
Qed.

Lemma on_grid_lookup k w x o :
  on_grid k w -> objects w !! x = Some o ->
  grid k (price o) /\ grid k (size o) /\ 0 <= size o.
Proof.
  intros [Ho _] Hx. rewrite Forall_forall in Ho. apply Ho.
  now apply (list_elem_of_lookup_2 _ x).
Qed.

Lemma on_grid_peek k w s tp top :
  on_grid k w -> peekitem (dict s (lob w)) = Some (tp, top) -> grid k tp.
Proof.
  intros [_ Hk] Hp. apply peekitem_in in Hp. specialize (Hk s).
  unfold keys_on in Hk. rewrite Forall_forall in Hk. exact (Hk _ Hp).
Qed.

Lemma keys_on_with_dict k s d b s' :
  keys_on k d -> (forall s0, keys_on k (dict s0 b)) -> keys_on k (dict s' (with_dict s d b)).
Proof.
  intros Hd Hb. destruct s, s'; simpl; try exact Hd; try apply (Hb BIDS); apply (Hb ASKS).
Qed.

Lemma on_grid_turn k r m s tp rest w go w' :
  on_grid k w -> grid k tp -> turn r m s tp rest w go w' -> on_grid k w'.
Proof.
  intros Hg Htp Ht. pose proof Hg as [Ho Hk].
  assert (forall s' d, d = replace_level tp rest (dict s (lob w)) ->
            keys_on k (dict s' (with_dict s d (lob w)))) as Hd.
  { intros s' d ->. apply keys_on_with_dict; [now apply keys_on_replace | exact Hk]. }
  destruct Ht as [om or Hm Hr Hlt | om or Hm Hr Hlt | om or Hm Hr Heq];
    destruct (on_grid_lookup _ _ _ _ Hg Hm) as (Pm & Sm & Zm);
    destruct (on_grid_lookup _ _ _ _ Hg Hr) as (Pr & Sr & Zr);
    split; cbn [objects lob]; try (intros s'; first [now apply Hd | apply Hk]);
    repeat apply Forall_insert; try exact Ho; cbn [price size with_status with_size];
    splits; auto using grid_0, grid_sub; lra.
Qed.

(** ** The operations of the context on the grid *)

Lemma size_sub_ctx_eq rd r m w a b :
  objects w !! r = Some a -> objects w !! m = Some b ->
  size_sub_ctx rd r m w =
  Ok tt (mkWorld (<[r := with_size a (rd (size a - size b))]> (objects w))
           (lob w) (inbox w)).
Proof.
  intros Ha Hb. unfold size_sub_ctx, bind, write.
  now rewrite (read_eq _ _ _ Ha), (read_eq _ _ _ Hb).
Qed.

Lemma _convert_price_ctx_eq k rd o :
  exact_on k rd -> grid k (price o) -> _convert_price_ctx rd o = _convert_price o.
Proof.
  intros Hrd Hp. unfold _convert_price_ctx, _convert_price.
  destruct (side o); [|reflexivity]. now apply Hrd, grid_opp.
Qed.

(** A turn of the loop on the grid: no difference of sizes is rounded. *)
Lemma match_body_ctx_eq k rd r s tp m rest w om or :
  exact_on k rd -> on_grid k w -> r <> m ->
  objects w !! m = Some om -> objects w !! r = Some or ->
  match_body_ctx rd r s tp (m :: rest) w = match_body r s tp (m :: rest) w.
Proof.
  intros Hrd Hg Hne Hm Hr.
  destruct (on_grid_lookup _ _ _ _ Hg Hm) as (_ & Sm & Zm).
  destruct (on_grid_lookup _ _ _ _ Hg Hr) as (_ & Sr & Zr).
  assert (rd (size om - size or) = size om - size or) as E1
    by (apply Hrd, grid_sub; auto).
  assert (rd (size or - size om) = size or - size om) as E2
    by (apply Hrd, grid_sub; auto).
  unfold match_body_ctx.
  run_with read_eq. run_with read_eq. rewrite E1.
  destruct (Qcompare_spec (size om - size or) 0) as [C|C|C].
  - rewrite (match_body_Eq r s tp m rest w om or Hm Hr) by (auto; lra).
    run_with popleft_eq.
    run_with size_zero_eq.
    run_with size_zero_eq.
    run_with del_if_empty_eq.
    run_with update_status_eq.
    run_with update_status_eq.
    finish_body.
  - rewrite (match_body_Lt r s tp m rest w om or Hm Hr) by lra.
    run_with popleft_eq.
    run_with size_sub_ctx_eq. rewrite E2.
    run_with size_zero_eq.
    run_with del_if_empty_eq.
    run_with update_status_eq.
    run_with update_status_eq.
    finish_body.
  - rewrite (match_body_Gt r s tp m rest w om or Hm Hr) by lra.
    run_with size_sub_ctx_eq. rewrite E1.
    run_with size_zero_eq.
    run_with update_status_eq.
    run_with update_status_eq.
    finish_body.
Qed.

Lemma match_loop_ctx_eq k rd r s cond :
  exact_on k rd ->
  forall fuel tp top w or,
    Inv w -> ~ in_book w r -> objects w !! r = Some or -> unfilled or ->
    peekitem (dict s (lob w)) = Some (tp, top) -> on_grid k w ->
    match_loop_ctx rd fuel r s cond tp top w = match_loop fuel r s cond tp top w.
Proof.
  intros Hrd. induction fuel as [|fuel IH]; intros tp top w or HInv Hout Hr Hun Hpeek Hg;
    [reflexivity|].
  simpl match_loop_ctx. simpl match_loop.
  pose proof (on_grid_peek _ _ _ _ _ Hg Hpeek) as Htp.
  rewrite (Hrd (Qabs tp)) by now apply grid_abs.
  destruct (cond (Qabs tp)) eqn:Hc; [|reflexivity].
  destruct top as [|m rest].
  { pose proof (inv_nonempty _ HInv s) as Hne.
    apply peekitem_in in Hpeek.
    unfold levels_nonempty in Hne. rewrite Forall_forall in Hne.
    now specialize (Hne _ Hpeek). }
  destruct (match_body_ok r s tp m rest w or HInv Hout Hr Hun Hpeek)
    as (go & w1 & Hbody & HInv1 & Hout1 & Hlen1 & Heff1 & Hfr1 & Hgo).
  assert (r <> m) as Hne.
  { intros ->. apply Hout. exists s.
    apply (sd_refs_elem _ tp (m :: rest)); [now apply peekitem_in | constructor]. }
  assert (exists om, objects w !! m = Some om) as (om & Hm).
  { destruct (inv_rests _ HInv s m) as (om & Hm & _); [|eauto].
    apply (sd_refs_elem _ tp (m :: rest)); [now apply peekitem_in | constructor]. }
  pose proof (match_body_ctx_eq k rd r s tp m rest w om or Hrd Hg Hne Hm Hr) as Hctx.
  rewrite Hbody in Hctx.
  rewrite (bind_Ok _ _ _ _ _ Hbody), (bind_Ok _ _ _ _ _ Hctx).
  assert (on_grid k w1) as Hg1
    by (apply (on_grid_turn k r m s tp rest w go); auto; now apply match_body_turn).
  destruct go; [|reflexivity].
  destruct Hgo as [(o0 & or1 & E0 & Hr1 & Hp & Hs & Hun1) Hless].
  unfold get_dict, bind, get_book, ret. cbv beta iota.
  destruct (peekitem (dict s (lob w1))) as [[tp' top']|] eqn:Hpeek1; [|reflexivity].
  exact (IH tp' top' w1 or1 HInv1 Hout1 Hr1 Hun1 Hpeek1 Hg1).
Qed.

Lemma _match_ctx_eq k rd r w o :
  exact_on k rd ->
  Inv w -> ~ in_book w r -> objects w !! r = Some o -> unfilled o -> on_grid k w ->
  _match_ctx rd r w = _match r w.
Proof.
  intros Hrd HInv Hout Hr Hun Hg. unfold _match_ctx, _match.
  rewrite !(bind_Ok _ _ _ _ _ (read_eq _ _ _ Hr)).
  unfold get_dict, bind, get_book, ret. cbv beta iota zeta.
  destruct (peekitem (dict match side o with BUY => ASKS | SELL => BIDS end (lob w)))
    as [[tp top]|] eqn:Hpeek; [|reflexivity].
  now apply (match_loop_ctx_eq k) with (or := o).
Qed.

Lemma _is_crossing_ctx_eq k rd r w :
  exact_on k rd -> on_grid k w -> _is_crossing_ctx rd r w = _is_crossing r w.
Proof.
  intros Hrd Hg. unfold _is_crossing_ctx, _is_crossing, bind, read.
  destruct (objects w !! r) as [o|]; [|reflexivity].
  unfold get_book. destruct (side o); [reflexivity|].
  destruct (peekitem (bids (lob w))) as [[key q]|] eqn:Hpeek; [|reflexivity].
  rewrite (Hrd (- key)); [reflexivity|].
  apply grid_opp, (on_grid_peek k w BIDS key q Hg Hpeek).
Qed.

Lemma rest_order_ctx_eq k rd r w :
  exact_on k rd -> on_grid k w -> rest_order_ctx rd r w = rest_order r w.
Proof.
  intros Hrd Hg. unfold rest_order_ctx, rest_order, bind at 1 3, read.
  destruct (objects w !! r) as [o|] eqn:Hr; [|reflexivity].
  destruct (on_grid_lookup _ _ _ _ Hg Hr) as (Hp & _).
  now rewrite (_convert_price_ctx_eq k rd o Hrd Hp).
Qed.

Lemma remove_order_ctx_eq k rd r w :
  exact_on k rd -> on_grid k w -> remove_order_ctx rd r w = remove_order r w.
Proof.
  intros Hrd Hg. unfold remove_order_ctx, remove_order, bind at 1 6, read.
  destruct (objects w !! r) as [o|] eqn:Hr; [|reflexivity].
  destruct (on_grid_lookup _ _ _ _ Hg Hr) as (Hp & _).
  now rewrite (_convert_price_ctx_eq k rd o Hrd Hp).
Qed.

Lemma _is_crossing_ctx_val k rd r w o :
  exact_on k rd -> keys_on k (bids (lob w)) -> objects w !! r = Some o ->
  _is_crossing_ctx rd r w = Ok (crossing o (lob w)) w.
Proof.
  intros Hrd Hk H. unfold _is_crossing_ctx, crossing.
  rewrite (bind_Ok _ _ _ _ _ (read_eq _ _ _ H)).
  unfold bind, get_book, ret.
  destruct (side o); [destruct (peekitem (asks (lob w))) as [[? ?]|]; reflexivity|].
  destruct (peekitem (bids (lob w))) as [[key q]|] eqn:Hpeek; [|reflexivity].
  rewrite (Hrd (- key)); [reflexivity|]. apply grid_opp.
  apply peekitem_in in Hpeek. unfold keys_on in Hk. rewrite Forall_forall in Hk.
  exact (Hk _ Hpeek).
Qed.

Lemma add_order_ctx_eq k rd r w o :
  exact_on k rd -> on_grid k w -> objects w !! r = Some o ->
  add_order_ctx rd r w =
  ((if crossing (with_status (with_order_id o (fst (_new_order_id (lob w)))) POSTED)
         (snd (_new_order_id (lob w)))
    then _match_ctx rd r else ret tt) ;;;
   rest_order_ctx rd r ;;; set_last_order r ;;; ret true) (posted r o w).
Proof.
  intros Hrd [_ Hk] H. unfold add_order_ctx.
  unfold bind at 1, get_book at 1. unfold bind at 1, put_book at 1.
  run_with assign_id_eq.
  run_with update_status_eq.
  erewrite bind_Ok;
    [| apply (_is_crossing_ctx_val k); [exact Hrd | apply (Hk BIDS) | lookup_tac] ].
  unfold posted. rewrite list_insert_insert_eq. reflexivity.
Qed.

Lemma bind_same {A B} (m m' : M A) (f : A -> M B) w :
  m w = m' w -> bind m f w = bind m' f w.
Proof. unfold bind. now intros ->. Qed.

Lemma on_grid_posted k r o w :
  on_grid k w -> objects w !! r = Some o -> on_grid k (posted r o w).
Proof.
  intros Hg Hr. destruct (on_grid_lookup _ _ _ _ Hg Hr) as (P & S & Z).
  destruct Hg as [Ho Hk]. split; cbn [objects lob posted].
  - apply Forall_insert; [exact Ho | now splits].
  - intros s. rewrite dict_new_order_id. apply Hk.
Qed.

Lemma on_grid_rested k r o w :
  on_grid k w -> grid k (price o) -> on_grid k (rested r o w).
Proof.
  intros Hg Hp. unfold rested. destruct (Qeq_bool (size o) 0); [exact Hg|].
  destruct Hg as [Ho Hk]. split; cbn [objects lob]; [exact Ho|].
  intros s. apply keys_on_with_dict; [|exact Hk]. apply keys_on_put; [apply Hk|].
  unfold _convert_price. destruct (side o); [now apply grid_opp | exact Hp].
Qed.

Lemma on_grid_last_set k r w : on_grid k w -> on_grid k (last_set r w).
Proof. intros [Ho Hk]. split; [exact Ho|]. intros []; [apply (Hk BIDS) | apply (Hk ASKS)]. Qed.

Lemma on_grid_after_cancel k r o q' w :
  on_grid k w -> objects w !! r = Some o -> on_grid k (after_cancel r o q' w).
Proof.
  intros Hg Hr. destruct (on_grid_lookup _ _ _ _ Hg Hr) as (P & S & Z).
  destruct Hg as [Ho Hk]. split; cbn [objects lob after_cancel].
  - apply Forall_insert; [exact Ho | now splits].
  - intros s. apply keys_on_with_dict; [|exact Hk]. apply keys_on_replace; [apply Hk|].
    unfold _convert_price. destruct (side o); [now apply grid_opp | exact P].
Qed.

Lemma on_grid_empty k : on_grid k empty_world.
Proof. split; [constructor | intros []; constructor]. Qed.

(** [add_order] on the grid: the context rounds nothing, and the book stays
    on the grid. *)
Lemma add_order_on_grid k rd r w o :
  exact_on k rd ->
  Inv w -> ~ in_book w r -> objects w !! r = Some o -> 0 < size o -> on_grid k w ->
  add_order_ctx rd r w = add_order r w /\ on_grid k (after (add_order r w) w).
Proof.
  intros Hrd HInv Hout Hr Hpos Hg.
  destruct (add_order_trace (on_grid k) r w o HInv Hout Hr Hpos)
    as (w2 & o2 & Hrun2 & HInv2 & Hout2 & Hr2 & Hcase & Hk & Hg2 & Hd & Hadd).
  { intros w0 tp m rest or go w0' Hat _ Ht _ _ Hg0.
    apply (on_grid_turn k r m (other (own_side o)) tp rest w0 go); auto.
    apply (on_grid_peek k w0 (other (own_side o)) tp (m :: rest) Hg0), Hat. }
  { now apply on_grid_posted. }
  split.
  - rewrite (add_order_ctx_eq k rd r w o Hrd Hg Hr), (add_order_eq _ _ _ Hr).
    set (o1 := with_status (with_order_id o (fst (_new_order_id (lob w)))) POSTED) in *.
    set (w1 := posted r o w) in *.
    assert (objects w1 !! r = Some o1) as Hr1
      by (apply list_lookup_insert_eq; eauto using lookup_lt_Some).
    destruct (Inv_outside w w1 r HInv Hout) as (HInv1 & Hout1 & _).
    { intros x Hx. apply list_lookup_insert_ne. congruence. }
    { intros s. apply dict_new_order_id. }
    assert (unfilled o1) as Hun1 by (split; [exact Hpos | now left]).
    assert ((if crossing o1 (snd (_new_order_id (lob w)))
             then _match_ctx rd r else ret tt) w1 = Ok tt w2) as Hctx.
    { rewrite <- Hrun2. destruct (crossing o1 _); [|reflexivity].
      apply (_match_ctx_eq k rd r w1 o1); auto. now apply on_grid_posted. }
    rewrite (bind_Ok _ _ _ _ _ Hctx), (bind_Ok _ _ _ _ _ Hrun2).
    apply bind_same. now apply (rest_order_ctx_eq k).
  - rewrite Hadd. simpl after. apply on_grid_last_set, on_grid_rested; [exact Hg2|].
    apply (on_grid_lookup _ _ _ _ Hg2 Hr2).
Qed.

Lemma remove_order_on_grid k r w :
  on_grid k w -> on_grid k (after (remove_order r w) w).
Proof.
  intros Hg. destruct (objects w !! r) as [o|] eqn:Hr;
    [|now rewrite (remove_order_dangling _ _ Hr)].
  destruct (sd_get (_convert_price o) (dict (own_side o) (lob w))) as [q|] eqn:Hq;
    [|now rewrite (remove_order_no_level _ _ _ Hr Hq)].
  destruct (deque_remove r q) as [q'|] eqn:Hrm.
  - rewrite (remove_order_found _ _ _ _ _ Hr Hq Hrm). now apply on_grid_after_cancel.
  - apply deque_remove_None in Hrm. now rewrite (remove_order_not_queued _ _ _ _ Hr Hq Hrm).
Qed.

(** A valid call on the grid: the context rounds nothing. *)
Lemma step_on_grid k rd x st :
  exact_on k rd -> valid_op x -> grid_op k x -> balanced st -> on_grid k (fst st) ->
  step_ctx rd x st = step x st /\ on_grid k (fst (step x st)).
Proof.
  destruct st as [w l]. intros Hrd Hv Hgx (HInv & _) Hg. cbn [fst] in HInv, Hg.
  destruct x as [p sz sd ow | r]; unfold step_ctx, step.
  - pose proof (Order_new_inv p sz sd None ow w) as Hnew.
    destruct (Order_new p sz sd None ow w) as [r w1 | e w1 |]; [| |contradiction].
    + destruct Hnew as (q & -> & Hq & -> & ->).
      set (o := mkOrder q sz sd ow None CREATED None).
      set (w1 := mkWorld _ _ _). set (r := length (objects w)).
      assert (~ in_book w r) as Hout
        by (intros Hin; apply (in_book_lt _ _ HInv) in Hin; unfold r in Hin; lia).
      assert (objects w1 !! r = Some o) as Hr by apply list_lookup_middle, eq_refl.
      destruct (Inv_outside w w1 r HInv Hout) as (HInv1 & Hout1 & _).
      { intros x Hx. unfold w1. cbn [objects].
        destruct (decide (x < length (objects w))%nat) as [Hlt|Hge].
        - now apply lookup_app_l.
        - rewrite !lookup_ge_None_2; [reflexivity | unfold r in Hx; lia |].
          rewrite length_app. simpl. unfold r in Hx. lia. }
      { reflexivity. }
      assert (on_grid k w1) as Hg1.
      { destruct Hg as [Ho Hk]. destruct Hgx as [Hgp Hgs]. simpl in Hv.
        split; [|exact Hk]. unfold w1. cbn [objects]. apply Forall_app. split; [exact Ho|].
        constructor; [|constructor]. cbn. splits; auto. lra. }
      destruct (add_order_on_grid k rd r w1 o Hrd HInv1 Hout1 Hr Hv Hg1) as [E G].
      rewrite E. split; [reflexivity | exact G].
    + destruct Hnew as (_ & -> & _). split; [reflexivity | exact Hg].
  - rewrite (remove_order_ctx_eq k rd r w Hrd Hg). split; [reflexivity|].
    pose proof (remove_order_on_grid k r w Hg) as G.
    destruct (remove_order r w) as [b w' | e w' |]; exact G.
Qed.

Lemma run_from_on_grid k rd ops :
  exact_on k rd ->
  forall st, Forall valid_op ops -> Forall (grid_op k) ops ->
    balanced st -> on_grid k (fst st) ->
    run_from_ctx rd st ops = run_from st ops /\ on_grid k (fst (run_from st ops)).
Proof.
  intros Hrd. induction ops as [|x ops IH]; intros st Hv Hgo Hb Hg; [now split|].
  inversion Hv as [|? ? Hx Hops]; subst. inversion Hgo as [|? ? Hgx Hgops]; subst.
  destruct (step_on_grid k rd x st Hrd Hx Hgx Hb Hg) as [E G].
  unfold run_from_ctx, run_from. simpl fold_left. rewrite E.
  apply IH; auto. now apply step_balanced.
Qed.

(** On the grid the context rounds nothing: the run with the arithmetic of
    the context is the exact run. *)
Lemma run_ctx_exact k rd ops :
  exact_on k rd -> Forall valid_op ops -> Forall (grid_op k) ops ->
  run_ctx rd ops = run ops.
Proof.
  intros Hrd Hv Hg. apply (run_from_on_grid k rd ops Hrd); auto.
  - apply balanced_empty.
  - apply on_grid_empty.
Qed.

Lemma round_ctx_exact k : exact_on k round_ctx.
Proof. intros x. apply round_ctx_grid. Qed.

(** A valid submission after a valid run on the grid: the context rounds
    nothing, before and during the call. *)
Lemma submit_on_grid k ops x :
  Forall valid_op ops -> Forall (grid_op k) ops -> valid_op x -> grid_op k x ->
  run_ctx round_ctx ops = run ops /\
  step_ctx round_ctx x (run ops) = step x (run ops) /\
  on_grid k (fst (step x (run ops))).
Proof.
  intros Hv Hg Hx Hgx. pose proof (round_ctx_exact k) as Hrd.
  split; [now apply (run_ctx_exact k)|].
  apply (step_on_grid k); auto.
  - now apply run_balanced.
  - apply (run_from_on_grid k round_ctx ops Hrd); auto.
    + apply balanced_empty.
    + apply on_grid_empty.
Qed.


Ltac grid_at n := exists n; split; vm_compute; reflexivity.









(** X17: with the arithmetic of the decimal context, on prices and sizes
    that are decimals of at most [k] fractional digits and 28 digits in all,
    what is left of an order after a valid submission is queued only when
    the order no longer crosses: if the new order is in the book,
    [_is_crossing] now answers [False] for it, so matching went as far as
    the crossing test lets it go. *)
Theorem X17_queued_order_does_not_cross (k : nat) (ops : list op) (q sz : Q)
    (sd : OrderSide) (ow : option Owner) :
  Forall valid_op ops -> Forall (grid_op k) ops ->
  0 < q -> 0 < sz -> grid k q -> grid k sz ->
  in_book (fst (step_ctx round_ctx (Submit (Some q) sz sd ow) (run_ctx round_ctx ops)))
    (length (objects (fst (run_ctx round_ctx ops)))) ->
  _is_crossing_ctx round_ctx (length (objects (fst (run_ctx round_ctx ops))))
    (fst (step_ctx round_ctx (Submit (Some q) sz sd ow) (run_ctx round_ctx ops)))
  = Ok false (fst (step_ctx round_ctx (Submit (Some q) sz sd ow) (run_ctx round_ctx ops))).
Proof.
  intros Hv Hg Hq Hsz Hgq Hgs.
  destruct (submit_on_grid k ops (Submit (Some q) sz sd ow) Hv Hg Hsz) as (-> & -> & Hw).
  { split; [now intros ? [= <-] | exact Hgs]. }
  intros Hin. rewrite (_is_crossing_ctx_eq k round_ctx _ _ (round_ctx_exact k) Hw).
  now apply queued_does_not_cross.
Qed.

Lemma X17_queued_order_does_not_cross_witness :
  in_book (fst (step_ctx round_ctx (Submit (Some 100) 3 BUY None)
                  (run_ctx round_ctx ask_of_two))) 1%nat /\
  _is_crossing_ctx round_ctx (length (objects (fst (run_ctx round_ctx ask_of_two))))
    (fst (step_ctx round_ctx (Submit (Some 100) 3 BUY None) (run_ctx round_ctx ask_of_two)))
  = Ok false (fst (step_ctx round_ctx (Submit (Some 100) 3 BUY None)
                     (run_ctx round_ctx ask_of_two))).
Proof.
  assert (in_book (fst (step_ctx round_ctx (Submit (Some 100) 3 BUY None)
                          (run_ctx round_ctx ask_of_two))) 1%nat) as Hin
    by (exists BIDS; vm_compute; constructor).
  split; [exact Hin|].
  apply (X17_queued_order_does_not_cross 0 ask_of_two 100 3 BUY None).
  - unfold ask_of_two; valid_ops.
  - unfold ask_of_two. repeat constructor; [intros q [= <-]; grid_at 100%Z | grid_at 2%Z].
  - reflexivity.
  - reflexivity.
  - grid_at 100%Z.
  - grid_at 3%Z.
  - exact Hin.
Defined.

(** The context at work: [1E+30 - 1] goes back to [1E+30], a third is cut to
    28 digits, a tie goes to the even digit, and a decimal of 28 digits or
    fewer is not changed. *)
Lemma round_ctx_examples :
  round_ctx (inject_Z (10 ^ 30) - 1) == inject_Z (10 ^ 30) /\
  round_ctx (1 # 3) == 3333333333333333333333333333 # 10000000000000000000000000000 /\
  round_ctx (99999999999999999999999999995 # 100000000000000000000000000000) == 1 /\
  round_ctx (99999999999999999999999999985 # 100000000000000000000000000000)
    == 9999999999999999999999999998 # 10000000000000000000000000000 /\
  round_ctx (- (99999999999999999999999999996 # 100000000000000000000000000000)) == - 1 /\
  round_ctx (201 # 2) = 201 # 2 /\
  round_ctx 0 = 0.
Proof. repeat split; vm_compute; reflexivity. Qed.

(** ** The context that rounds nothing *)

Lemma bind_same_k {A B} (m : M A) (f g : A -> M B) w :
  (forall a w', f a w' = g a w') -> bind m f w = bind m g w.
Proof. intros H. unfold bind. destruct (m w); auto. Qed.

Lemma match_loop_ctx_id r s cond fuel : forall tp top w,
  match_loop_ctx (fun x => x) fuel r s cond tp top w = match_loop fuel r s cond tp top w.
Proof.
  induction fuel as [|fuel IH]; intros tp top w; [reflexivity|].
  simpl match_loop_ctx. simpl match_loop.
  destruct (cond (Qabs tp)); [|reflexivity].
  change (match_body_ctx (fun x => x) r s tp top) with (match_body r s tp top).
  unfold bind at 1 3. destruct (match_body r s tp top w) as [go w1 | |]; try reflexivity.
  destruct go; [|reflexivity].
  unfold get_dict, bind, get_book, ret. cbv beta iota.
  destruct (peekitem (dict s (lob w1))) as [[tp' top']|]; [apply IH | reflexivity].
Qed.

Lemma add_order_ctx_id r w : add_order_ctx (fun x => x) r w = add_order r w.
Proof.
  unfold add_order_ctx, add_order.
  change (_is_crossing_ctx (fun x => x) r) with (_is_crossing r).
  change (rest_order_ctx (fun x => x) r) with (rest_order r).
  repeat (apply bind_same_k; intros ? ?).
  apply bind_same. destruct a3; [|reflexivity].
  unfold _match_ctx, _match. apply bind_same_k. intros o w1.
  apply bind_same_k. intros d w2.
  destruct (peekitem d) as [[tp top]|]; [apply match_loop_ctx_id | reflexivity].
Qed.

(** With the identity for rounding, the run of the context is the exact
    run. *)
Lemma run_ctx_id ops : run_ctx (fun x => x) ops = run ops.
Proof.
  unfold run_ctx, run, run_from_ctx, run_from.
  generalize (empty_world, mkLedger 0 0 0 0).
  induction ops as [|x ops IH]; intros st; [reflexivity|].
  simpl fold_left. rewrite <- IH. f_equal.
  destruct st as [w l]. destruct x as [p sz sd ow | r]; unfold step_ctx, step.
  - destruct (Order_new p sz sd None ow w) as [r w1 | |]; try reflexivity.
    now rewrite add_order_ctx_id.
  - reflexivity.
Qed.
